(** * Alembic autogenerate: schema comparison and command rendering

    A shallow embedding of [alembic/autogenerate.py].  The Python module
    compares a declared schema (a [MetaData] object) with the schema
    observed through an [Inspector], collects a list of diffs and renders
    that list twice, once per migration direction.

    The embedding keeps the shape of the source: dictionaries are [gmap]s,
    sets are [gset]s, the dynamically typed values stored in keyword
    dictionaries are an inductive type of Python values, and the effects of
    the module (log records, calls to the pluggable comparators, additions
    to the shared [imports] set, raised exceptions) are threaded through a
    small state-and-error monad. *)

From stdpp Require Import gmap strings list fin_maps sorting.
From Stdlib Require Import Ascii String.

Local Open Scope string_scope.
Local Open Scope list_scope.

(** ** Python runtime: strings *)

Module Py.

(** [sep.join(l)] *)
Fixpoint join (sep : string) (l : list string) : string :=
  match l with
  | [] => EmptyString
  | [x] => x
  | x :: rest => x +:+ sep +:+ join sep rest
  end.

Fixpoint str_mem (c : ascii) (s : string) : bool :=
  match s with
  | EmptyString => false
  | String a s' => if Ascii.eqb a c then true else str_mem c s'
  end.

Definition squote : ascii := "'"%char.
Definition dquote : ascii := "034"%char.
Definition backslash : ascii := "\"%char.
Definition newline : ascii := "010"%char.

(** The string of one newline. *)
Definition nl : string := String newline EmptyString.

Definition hex_digit (n : N) : ascii :=
  ascii_of_N (if (n <? 10)%N then 48 + n else 87 + n)%N.

(** One character of [repr(str)] as Python 2 prints a byte string. *)
Definition repr_char (quote c : ascii) : string :=
  let n := N_of_ascii c in
  if Ascii.eqb c quote || Ascii.eqb c backslash then
    String backslash (String c EmptyString)
  else if (n =? 9)%N then String backslash "t"
  else if (n =? 10)%N then String backslash "n"
  else if (n =? 13)%N then String backslash "r"
  else if (n <? 32)%N || (127 <=? n)%N then
    String backslash
      (String "x" (String (hex_digit (n / 16)) (String (hex_digit (n mod 16)) EmptyString)))
  else String c EmptyString.

Fixpoint repr_chars (quote : ascii) (s : string) : string :=
  match s with
  | EmptyString => EmptyString
  | String c s' => repr_char quote c +:+ repr_chars quote s'
  end.

(** [repr(s)] for a byte string: single quotes unless the string holds a
    single quote and no double quote. *)
Definition repr_str (s : string) : string :=
  let quote := if str_mem squote s && negb (str_mem dquote s) then dquote else squote in
  String quote (repr_chars quote s +:+ String quote EmptyString).

Definition repr_bool (b : bool) : string := if b then "True" else "False".

(** [s.strip()] *)
Fixpoint lstrip (s : string) : string :=
  match s with
  | EmptyString => EmptyString
  | String c s' => if Ascii.is_space c then lstrip s' else s
  end.

Definition rstrip (s : string) : string := String.rev (lstrip (String.rev s)).
Definition strip (s : string) : string := rstrip (lstrip s).

(** [re.compile(r'^', re.M).sub(pad, s)]: [pad] goes in front of the
    text and after every newline. *)
Fixpoint sub_after_newlines (pad s : string) : string :=
  match s with
  | EmptyString => EmptyString
  | String c s' =>
      if Ascii.eqb c newline then String c (pad +:+ sub_after_newlines pad s')
      else String c (sub_after_newlines pad s')
  end.

Definition sub_line_starts (pad s : string) : string :=
  pad +:+ sub_after_newlines pad s.

(** The tail part of the substitution below: a quote that ends the
    string, or that stands before a final newline, is dropped. *)
Fixpoint drop_final_quote (s : string) : string :=
  match s with
  | EmptyString => EmptyString
  | String c s' =>
      if Ascii.eqb c squote then
        match s' with
        | EmptyString => EmptyString
        | String d EmptyString => if Ascii.eqb d newline then s' else String c (drop_final_quote s')
        | _ => String c (drop_final_quote s')
        end
      else String c (drop_final_quote s')
  end.

(** [re.sub] of the pattern [^'|'$] by the empty string: the quote at
    the start and the quote at the end are dropped. *)
Definition sub_outer_quotes (s : string) : string :=
  match s with
  | String c s' => if Ascii.eqb c squote then drop_final_quote s' else drop_final_quote s
  | EmptyString => EmptyString
  end.

(** [s.startswith(p)] and the rest of [s] after [p]. *)
Fixpoint strip_prefix (p s : string) : option string :=
  match p, s with
  | EmptyString, _ => Some s
  | String a p', String b s' => if Ascii.eqb a b then strip_prefix p' s' else None
  | String _ _, EmptyString => None
  end.

Definition startswith (s p : string) : bool :=
  match strip_prefix p s with Some _ => true | None => false end.

(** The class [\w] of the [re] module without flags. *)
Definition is_word (c : ascii) : bool :=
  let n := N_of_ascii c in
  ((48 <=? n) && (n <=? 57) || (65 <=? n) && (n <=? 90)
   || (97 <=? n) && (n <=? 122) || (n =? 95))%N.

Fixpoint take_word (s : string) : string :=
  match s with
  | EmptyString => EmptyString
  | String c s' => if is_word c then String c (take_word s') else EmptyString
  end.

(** [sorted(l)] on byte strings. *)
Definition sorted (l : list string) : list string := merge_sort String.le l.

End Py.

(** ** Schema objects

    The objects of SQLAlchemy that the module reads.  A type object is
    known by the module of its class, by its [repr] and by its type
    affinity; no other attribute of it is read. *)

Inductive type_affinity := NullType | Affinity (cls : string).

Record TypeSpec := {
  ty_module : string;
  ty_repr : string;
  _type_affinity : type_affinity
}.

(** A SQL expression used as a server default; [clause_repr] is its
    [repr], its text comes from the dialect that compiles it. *)
Record sql_clause := { clause_repr : string }.

Inductive default_arg := ArgStr (s : string) | ArgClause (c : sql_clause).

Record DefaultClause := { arg : default_arg }.

(** A declared column, [schema.Column].  [col_key] is the key under
    which the column collection of its table holds it; it is the name
    unless the column was given another key. *)
Record Column := {
  col_name : string;
  col_key : string;
  col_type : TypeSpec;
  col_nullable : option bool;
  col_server_default : option DefaultClause
}.

(** [schema.Column(name, type, nullable=.., server_default=..)]: the key
    is the name, and a default given as text is wrapped in a
    [DefaultClause]. *)
Definition schema_Column (name : string) (ty : TypeSpec) (nullable : option bool)
    (server_default : option string) : Column :=
  {| col_name := name; col_key := name; col_type := ty; col_nullable := nullable;
     col_server_default := (fun s => {| arg := ArgStr s |}) <$> server_default |}.

(** Constraints: the three classes of [_constraint_renderers] and any
    other class.  A foreign key element is its parent column key and its
    column specification. *)
Inductive Constraint :=
| PrimaryKeyConstraint (name : option string) (columns : list string)
| ForeignKeyConstraint (name : option string) (elements : list (string * string))
| CheckConstraint (name : option string)
| OtherConstraint.

(** A table.  [tbl_c] lists, in order, the columns of the collection
    [table.c], which holds one column for a key; [tbl_constraints] lists
    the set [table.constraints], which the renderer walks once and whose
    rendered texts it sorts. *)
Record Table := {
  tbl_name : string;
  tbl_c : list Column;
  tbl_constraints : list Constraint
}.

(** An observed column, the record of [Inspector.get_columns]. *)
Record ColRec := {
  rec_name : string;
  rec_type : TypeSpec;
  rec_nullable : option bool;
  rec_default : option string
}.

(** [dict(pairs)]: a later pair replaces an earlier one with its key. *)
Definition dict {V : Type} (pairs : list (string * V)) : gmap string V :=
  foldl (fun m kv => <[kv.1 := kv.2]> m) ∅ pairs.

(** The declared schema.  [tables] is the dictionary [metadata.tables],
    keyed by table name. *)
Record MetaData := { metadata_tables : list Table }.

Definition tables (metadata : MetaData) : gmap string Table :=
  dict ((fun t => (tbl_name t, t)) <$> metadata_tables metadata).

(** ** Python values held in keyword dictionaries and diff tuples *)

Inductive pyval :=
| PNone
| PBool (b : bool)
| PStr (s : string)
| PType (t : TypeSpec)
| PDefault (d : DefaultClause).

Definition of_nullable (n : option bool) : pyval :=
  match n with Some b => PBool b | None => PNone end.

Definition of_default (d : option string) : pyval :=
  match d with Some s => PStr s | None => PNone end.

Definition of_server_default (d : option DefaultClause) : pyval :=
  match d with Some c => PDefault c | None => PNone end.

(** Truth value of a Python value in an [if]. *)
Definition truthy (v : pyval) : bool :=
  match v with
  | PNone => false
  | PBool b => b
  | PStr EmptyString => false
  | PStr _ => true
  | PType _ => true
  | PDefault _ => true
  end.

Definition is_None (v : pyval) : bool :=
  match v with PNone => true | _ => false end.

Definition is_False (v : pyval) : bool :=
  match v with PBool false => true | _ => false end.

(** [type(v).__module__] *)
Definition py_module (v : pyval) : string :=
  match v with
  | PType t => ty_module t
  | PDefault _ => "sqlalchemy.schema"
  | _ => "__builtin__"
  end.

(** [repr(v)] *)
Definition py_repr (v : pyval) : string :=
  match v with
  | PNone => "None"
  | PBool b => Py.repr_bool b
  | PStr s => Py.repr_str s
  | PType t => ty_repr t
  | PDefault d =>
      "DefaultClause(" +:+
        match arg d with ArgStr s => Py.repr_str s | ArgClause c => clause_repr c end
        +:+ ", for_update=False)"
  end.

(** ** Diffs

    A structural diff is the tuple [("add_table", t)], [("remove_table", t)],
    [("add_column", tname, c)] or [("remove_column", tname, c)]; its tag is
    kept split at the underscore, as [_invoke_adddrop_command] reads it.  A
    modify diff is the tuple [(tag, tname, cname, kw, old, new)]; the diffs
    of one column travel together in a list. *)

Inductive adddrop := AddOp | RemoveOp.

Inductive modify_tag := modify_type | modify_nullable | modify_default.

Record modify_diff := {
  md_tag : modify_tag;
  md_tname : string;
  md_cname : string;
  md_kw : gmap string pyval;
  md_old : pyval;
  md_new : pyval
}.

(** The arguments after the tag of a structural tuple; they also tell
    whether the tag ends in [table] or in [column]. *)
Inductive cmd_args :=
| TableArgs (t : Table)
| ColumnArgs (tname : string) (c : Column).

(** An entry of the diff list: a tuple, or the list of one column. *)
Inductive diff :=
| AddDrop (a : adddrop) (args : cmd_args)
| ColumnGroup (col_diff : list modify_diff).

Definition add_table (t : Table) : diff := AddDrop AddOp (TableArgs t).
Definition remove_table (t : Table) : diff := AddDrop RemoveOp (TableArgs t).
Definition add_column (tname : string) (c : Column) : diff :=
  AddDrop AddOp (ColumnArgs tname c).
Definition remove_column (tname : string) (c : Column) : diff :=
  AddDrop RemoveOp (ColumnArgs tname c).

(** ** Effects *)

Inductive exn :=
| CommandError (msg : string)
| AttributeError
| IndexError
| KeyError (key : string).

Inductive log_record :=
| DetectedAddedTable (tname : string)
| DetectedRemovedTable (tname : string)
| DetectedAddedColumn (tname cname : string)
| DetectedRemovedColumn (tname cname : string)
| DetectedNullable (what tname cname : string)
| NoDatabaseType (tname cname : string)
| NoModelType (tname cname : string)
| DetectedTypeChange (conn_type metadata_type : TypeSpec) (tname cname : string)
| DetectedServerDefault (tname cname : string).

(** What a run does besides returning: it logs, and it calls the two
    comparators of the migration context. *)
Inductive event :=
| LogInfo (r : log_record)
| CompareTypeCall (conn_col : ColRec) (metadata_col : Column)
| CompareServerDefaultCall (conn_col : ColRec) (metadata_col : Column)
    (rendered_metadata_default : option string).

(** The mutable surroundings of a run: the shared [imports] set, which
    the caller hands to [produce_migration_diffs], and the record of
    events so far. *)
Record world := { w_imports : gset string; w_trace : list event }.

Definition M (A : Type) : Type := world -> (exn + A) * world.

Definition ret {A} (a : A) : M A := fun w => (inr a, w).

Definition raise {A} (e : exn) : M A := fun w => (inl e, w).

Definition bind {A B} (c : M A) (k : A -> M B) : M B :=
  fun w => match c w with
           | (inr a, w') => k a w'
           | (inl e, w') => (inl e, w')
           end.

Notation "x <~ c ;; k" := (bind c (fun x => k))
  (at level 100, c at next level, right associativity).
Notation "c ;;; k" := (bind c (fun _ => k))
  (at level 100, right associativity).

Definition emit (e : event) : M unit :=
  fun w => (inr tt, {| w_imports := w_imports w; w_trace := w_trace w ++ [e] |}).

Definition log_info (r : log_record) : M unit := emit (LogInfo r).

(** [imports.add(line)] *)
Definition imports_add (line : string) : M unit :=
  fun w => (inr tt, {| w_imports := {[ line ]} ∪ w_imports w; w_trace := w_trace w |}).

(** [d[k]] on a dictionary. *)
Definition getitem {V} (d : gmap string V) (k : string) : M V :=
  match d !! k with Some v => ret v | None => raise (KeyError k) end.

(** A [for] loop that threads an accumulator. *)
Fixpoint for_each {A S} (l : list A) (body : A -> S -> M S) (s : S) : M S :=
  match l with
  | [] => ret s
  | x :: rest => s' <~ body x s ;; for_each rest body s'
  end.

(** A list comprehension whose element expression has effects. *)
Fixpoint map_M {A B} (f : A -> M B) (l : list A) : M (list B) :=
  match l with
  | [] => ret []
  | x :: rest => y <~ f x ;; ys <~ map_M f rest ;; ret (y :: ys)
  end.

(** The order in which the interpreter walks a set: some enumeration of
    its elements, fixed by the hash table and not by the program. *)
Record SetOrder := {
  iter : gset string -> list string;
  iter_perm : forall s, iter s ≡ₚ elements s
}.

(** ** The objects a run is given *)

Record Dialect := { compile : sql_clause -> string }.

(** [Inspector]: the observed schema.  [reflecttable] gives the columns
    and constraints that reflection loads into an empty table. *)
Record Inspector := {
  get_table_names : list string;
  get_columns : string -> list ColRec;
  reflecttable : string -> list Column * list Constraint
}.

Record Connection := {
  dialect : Dialect;
  from_engine : Inspector
}.

Record Opts := {
  target_metadata : option MetaData;
  upgrade_token : string;
  downgrade_token : string;
  sqlalchemy_module_prefix : option string;
  alembic_module_prefix : option string
}.

(** The migration context, with its two pluggable comparators. *)
Record MigrationContext := {
  context_opts : Opts;
  context_bind : Connection;
  env_py_location : string;
  compare_type : ColRec -> Column -> bool;
  compare_server_default : ColRec -> Column -> option string -> bool
}.

(** The dictionary [autogen_context]; its [imports] entry is the shared
    set kept in the [world]. *)
Record autogen_context := {
  ac_connection : Connection;
  ac_dialect : Dialect;
  ac_context : MigrationContext;
  ac_opts : Opts
}.

Inductive updown := upgrade | downgrade.

(** ** Rendering of defaults and types *)

(** [x or ''] on an optional string. *)
Definition or_empty (x : option string) : string :=
  match x with Some s => s | None => EmptyString end.

Definition _sqlalchemy_autogenerate_prefix (ctx : autogen_context) : string :=
  or_empty (sqlalchemy_module_prefix (ac_opts ctx)).

Definition _alembic_autogenerate_prefix (ctx : autogen_context) : string :=
  or_empty (alembic_module_prefix (ac_opts ctx)).

Definition _render_server_default (default : pyval) (ctx : autogen_context) : option string :=
  let default :=
    match default with
    | PDefault d =>
        match arg d with
        | ArgStr s => PStr s
        | ArgClause c => PStr (compile (ac_dialect ctx) c)
        end
    | _ => default
    end in
  match default with
  | PStr s => Some ("'" +:+ Py.sub_outer_quotes s +:+ "'")
  | _ => None
  end.

(** ["%s" % x] for an optional string. *)
Definition fmt_s (x : option string) : string :=
  match x with Some s => s | None => "None" end.

(** [re.match(r"sqlalchemy\.dialects\.(\w+)", mod).group(1)] *)
Definition dialect_name (mod_ : string) : M string :=
  match Py.strip_prefix "sqlalchemy.dialects." mod_ with
  | Some rest =>
      match Py.take_word rest with
      | EmptyString => raise AttributeError
      | dname => ret dname
      end
  | None => raise AttributeError
  end.

Definition _repr_type (prefix : string) (type_ : pyval) (ctx : autogen_context) : M string :=
  let mod_ := py_module type_ in
  if Py.startswith mod_ "sqlalchemy.dialects" then
    dname <~ dialect_name mod_ ;;
    imports_add ("from sqlalchemy.dialects import " +:+ dname) ;;;
    ret (dname +:+ "." +:+ py_repr type_)
  else ret (prefix +:+ py_repr type_).

(** ** Element comparison *)

Definition is_NullType (a : type_affinity) : bool :=
  match a with NullType => true | Affinity _ => false end.

Definition _compare_nullable (tname cname : string) (conn_col : ColRec)
    (metadata_col_nullable : option bool) (diffs : list modify_diff)
    (ctx : autogen_context) : M (list modify_diff) :=
  let conn_col_nullable := rec_nullable conn_col in
  if decide (conn_col_nullable <> metadata_col_nullable) then
    let diffs := diffs ++ [
      {| md_tag := modify_nullable; md_tname := tname; md_cname := cname;
         md_kw := <["existing_type" := PType (rec_type conn_col)]>
                  (<["existing_server_default" := of_default (rec_default conn_col)]> ∅);
         md_old := of_nullable conn_col_nullable;
         md_new := of_nullable metadata_col_nullable |} ] in
    log_info (DetectedNullable
                (if truthy (of_nullable metadata_col_nullable) then "NULL" else "NOT NULL")
                tname cname) ;;;
    ret diffs
  else ret diffs.

Definition _compare_type (tname cname : string) (conn_col : ColRec)
    (metadata_col : Column) (diffs : list modify_diff)
    (ctx : autogen_context) : M (list modify_diff) :=
  let conn_type := rec_type conn_col in
  let metadata_type := col_type metadata_col in
  if is_NullType (_type_affinity conn_type) then
    log_info (NoDatabaseType tname cname) ;;; ret diffs
  else if is_NullType (_type_affinity metadata_type) then
    log_info (NoModelType tname cname) ;;; ret diffs
  else
    emit (CompareTypeCall conn_col metadata_col) ;;;
    let isdiff := compare_type (ac_context ctx) conn_col metadata_col in
    if isdiff then
      let diffs := diffs ++ [
        {| md_tag := modify_type; md_tname := tname; md_cname := cname;
           md_kw := <["existing_nullable" := of_nullable (rec_nullable conn_col)]>
                    (<["existing_server_default" := of_default (rec_default conn_col)]> ∅);
           md_old := PType conn_type;
           md_new := PType metadata_type |} ] in
      log_info (DetectedTypeChange conn_type metadata_type tname cname) ;;;
      ret diffs
    else ret diffs.

Definition _compare_server_default (tname cname : string) (conn_col : ColRec)
    (metadata_col : Column) (diffs : list modify_diff)
    (ctx : autogen_context) : M (list modify_diff) :=
  let metadata_default := col_server_default metadata_col in
  let conn_col_default := rec_default conn_col in
  if bool_decide (conn_col_default = None) && bool_decide (metadata_default = None) then
    ret diffs
  else
    let rendered_metadata_default :=
      _render_server_default (of_server_default metadata_default) ctx in
    emit (CompareServerDefaultCall conn_col metadata_col rendered_metadata_default) ;;;
    let isdiff := compare_server_default (ac_context ctx) conn_col metadata_col
                    rendered_metadata_default in
    if isdiff then
      let conn_col_default := rec_default conn_col in
      let diffs := diffs ++ [
        {| md_tag := modify_default; md_tname := tname; md_cname := cname;
           md_kw := <["existing_nullable" := of_nullable (rec_nullable conn_col)]>
                    (<["existing_type" := PType (rec_type conn_col)]> ∅);
           md_old := of_default conn_col_default;
           md_new := of_server_default metadata_default |} ] in
      log_info (DetectedServerDefault tname cname) ;;;
      ret diffs
    else ret diffs.

(** The columns of a table by name: [dict((c.name, c) for c in table.c)]. *)
Definition cols_by_name (t : Table) : gmap string Column :=
  dict ((fun c => (col_name c, c)) <$> tbl_c t).

(** The column collection [table.c] as a dictionary: it is keyed by the
    keys of the columns, so [table.c[k]] is [getitem (cols_by_key t) k]. *)
Definition cols_by_key (t : Table) : gmap string Column :=
  dict ((fun c => (col_key c, c)) <$> tbl_c t).

(** The body of the last loop of [_compare_columns]: the three attribute
    comparators fill a fresh list, which joins [diffs] unless it is empty. *)
Definition compare_column_attrs (tname colname : string) (conn_col : ColRec)
    (metadata_col : Column) (diffs : list diff) (ctx : autogen_context) : M (list diff) :=
  let col_diff := [] in
  col_diff <~ _compare_type tname colname conn_col metadata_col col_diff ctx ;;
  col_diff <~ _compare_nullable tname colname conn_col (col_nullable metadata_col) col_diff ctx ;;
  col_diff <~ _compare_server_default tname colname conn_col metadata_col col_diff ctx ;;
  match col_diff with
  | [] => ret diffs
  | _ => ret (diffs ++ [ColumnGroup col_diff])
  end.

Definition _compare_columns (order : SetOrder) (tname : string)
    (conn_table : gmap string ColRec) (metadata_table : Table)
    (diffs : list diff) (ctx : autogen_context) : M (list diff) :=
  let metadata_cols_by_name := cols_by_name metadata_table in
  let conn_col_names : gset string := dom conn_table in
  let metadata_col_names : gset string := dom metadata_cols_by_name in
  diffs <~ for_each (iter order (metadata_col_names ∖ conn_col_names))
    (fun cname diffs =>
       c <~ getitem metadata_cols_by_name cname ;;
       let diffs := diffs ++ [add_column tname c] in
       log_info (DetectedAddedColumn tname cname) ;;;
       ret diffs) diffs ;;
  diffs <~ for_each (iter order (conn_col_names ∖ metadata_col_names))
    (fun cname diffs =>
       r <~ getitem conn_table cname ;;
       let diffs := diffs ++ [remove_column tname
                      (schema_Column cname (rec_type r) (rec_nullable r) (rec_default r))] in
       log_info (DetectedRemovedColumn tname cname) ;;;
       ret diffs) diffs ;;
  for_each (iter order (metadata_col_names ∩ conn_col_names))
    (fun colname diffs =>
       metadata_col <~ getitem (cols_by_key metadata_table) colname ;;
       conn_col <~ getitem conn_table colname ;;
       compare_column_attrs tname colname conn_col metadata_col diffs ctx) diffs.

(** ** Walk of the two schemas *)

Definition _compare_tables (order : SetOrder)
    (conn_table_names metadata_table_names : gset string)
    (inspector : Inspector) (metadata : MetaData)
    (diffs : list diff) (ctx : autogen_context) : M (list diff) :=
  diffs <~ for_each (iter order (metadata_table_names ∖ conn_table_names))
    (fun tname diffs =>
       t <~ getitem (tables metadata) tname ;;
       let diffs := diffs ++ [add_table t] in
       log_info (DetectedAddedTable tname) ;;;
       ret diffs) diffs ;;
  let removal_metadata : gmap string Table := ∅ in
  acc <~ for_each (iter order (conn_table_names ∖ metadata_table_names))
    (fun tname '(removal_metadata, diffs) =>
       let t :=
         match removal_metadata !! tname with
         | Some t => t
         | None =>
             {| tbl_name := tname;
                tbl_c := (reflecttable inspector tname).1;
                tbl_constraints := (reflecttable inspector tname).2 |}
         end in
       let removal_metadata := <[tname := t]> removal_metadata in
       let diffs := diffs ++ [remove_table t] in
       log_info (DetectedRemovedTable tname) ;;;
       ret (removal_metadata, diffs)) (removal_metadata, diffs) ;;
  let diffs := acc.2 in
  let existing_tables := conn_table_names ∩ metadata_table_names in
  let conn_column_info : gmap string (gmap string ColRec) :=
    dict ((fun tname =>
             (tname, dict ((fun rec => (rec_name rec, rec)) <$> get_columns inspector tname)))
          <$> iter order existing_tables) in
  for_each (Py.sorted (iter order existing_tables))
    (fun tname diffs =>
       conn_table <~ getitem conn_column_info tname ;;
       metadata_table <~ getitem (tables metadata) tname ;;
       _compare_columns order tname conn_table metadata_table diffs ctx) diffs.

Definition _produce_net_changes (order : SetOrder) (connection : Connection)
    (metadata : MetaData) (diffs : list diff) (ctx : autogen_context) : M (list diff) :=
  let inspector := from_engine connection in
  let conn_table_names : gset string :=
    list_to_set (get_table_names inspector) ∖ list_to_set ["alembic_version"] in
  let metadata_table_names : gset string := dom (tables metadata) in
  _compare_tables order conn_table_names metadata_table_names inspector metadata diffs ctx.

(** ** Rendering of the commands *)

Definition name_given (name : option string) : bool :=
  match name with
  | Some (String _ _) => true
  | _ => false
  end.

(** The [opts] list of a constraint renderer, as the texts [name=..]. *)
Definition constraint_opts (name : option string) : list string :=
  if name_given name then ["name=" +:+ Py.repr_str (or_empty name)] else [].

Definition _render_primary_key (name : option string) (columns : list string)
    (ctx : autogen_context) : string :=
  _sqlalchemy_autogenerate_prefix ctx +:+ "PrimaryKeyConstraint(" +:+
    Py.join ", " ((Py.repr_str <$> columns) ++ constraint_opts name) +:+ ")".

Definition _render_foreign_key (name : option string) (elements : list (string * string))
    (ctx : autogen_context) : string :=
  _sqlalchemy_autogenerate_prefix ctx +:+ "ForeignKeyConstraint([" +:+
    Py.join ", " ((fun f => "'" +:+ f.1 +:+ "'") <$> elements) +:+ "], [" +:+
    Py.join ", " ((fun f => Py.repr_str f.2) <$> elements) +:+ "], " +:+
    Py.join ", " (constraint_opts name) +:+ ")".

Definition _render_check_constraint (name : option string) (ctx : autogen_context) : string :=
  _sqlalchemy_autogenerate_prefix ctx +:+ "CheckConstraint('TODO')".

Definition _render_constraint (constraint : Constraint) (ctx : autogen_context)
    : option string :=
  match constraint with
  | PrimaryKeyConstraint name columns => Some (_render_primary_key name columns ctx)
  | ForeignKeyConstraint name elements => Some (_render_foreign_key name elements ctx)
  | CheckConstraint name => Some (_render_check_constraint name ctx)
  | OtherConstraint => None
  end.

Definition _render_column (column : Column) (ctx : autogen_context) : M string :=
  let opts := [] in
  let opts :=
    if truthy (of_server_default (col_server_default column)) then
      opts ++ [("server_default",
                fmt_s (_render_server_default (of_server_default (col_server_default column)) ctx))]
    else opts in
  let opts :=
    match col_nullable column with
    | Some b => opts ++ [("nullable", Py.repr_bool b)]
    | None => opts
    end in
  ty <~ _repr_type (_sqlalchemy_autogenerate_prefix ctx) (PType (col_type column)) ctx ;;
  ret (_sqlalchemy_autogenerate_prefix ctx +:+ "Column(" +:+ Py.repr_str (col_name column)
       +:+ ", " +:+ ty +:+ ", "
       +:+ Py.join ", " ((fun kv => kv.1 +:+ "=" +:+ kv.2) <$> opts) +:+ ")").

Definition _add_table (table : Table) (ctx : autogen_context) : M string :=
  cols <~ map_M (fun col => _render_column col ctx) (tbl_c table) ;;
  let rendered := (fun cons => _render_constraint cons ctx) <$> tbl_constraints table in
  let args := Py.join ("," +:+ Py.nl) (cols ++ Py.sorted (omap id rendered)) in
  ret (_alembic_autogenerate_prefix ctx +:+ "create_table(" +:+ Py.repr_str (tbl_name table)
       +:+ "," +:+ Py.nl +:+ args +:+ Py.nl +:+ ")").

Definition _drop_table (table : Table) (ctx : autogen_context) : M string :=
  ret (_alembic_autogenerate_prefix ctx +:+ "drop_table(" +:+ Py.repr_str (tbl_name table)
       +:+ ")").

Definition _add_column (tname : string) (column : Column) (ctx : autogen_context) : M string :=
  col <~ _render_column column ctx ;;
  ret (_alembic_autogenerate_prefix ctx +:+ "add_column(" +:+ Py.repr_str tname +:+ ", "
       +:+ col +:+ ")").

Definition _drop_column (tname : string) (column : Column) (ctx : autogen_context) : M string :=
  ret (_alembic_autogenerate_prefix ctx +:+ "drop_column(" +:+ Py.repr_str tname +:+ ", "
       +:+ Py.repr_str (col_name column) +:+ ")").

(** The keyword fields that [_modify_col] appends to the call, in the
    order of the text, each with its rendered value. *)
Definition _modify_col_fields (ctx : autogen_context)
    (server_default type_ nullable existing_type existing_nullable
       existing_server_default : pyval) : M (list (string * string)) :=
  let sqla_prefix := _sqlalchemy_autogenerate_prefix ctx in
  ty <~ _repr_type sqla_prefix existing_type ctx ;;
  let fields := [("existing_type", ty)] in
  let fields :=
    if negb (is_False server_default) then
      fields ++ [("server_default", fmt_s (_render_server_default server_default ctx))]
    else fields in
  fields <~ (if negb (is_None type_) then
               ty <~ _repr_type sqla_prefix type_ ctx ;;
               ret (fields ++ [("type_", ty)])
             else ret fields) ;;
  let fields :=
    if negb (is_None nullable) then fields ++ [("nullable", py_repr nullable)]
    else fields in
  let fields :=
    if negb (is_None existing_nullable) then
      fields ++ [("existing_nullable", py_repr existing_nullable)]
    else fields in
  let fields :=
    if truthy existing_server_default then
      fields ++ [("existing_server_default",
                  fmt_s (_render_server_default existing_server_default ctx))]
    else fields in
  ret fields.

Definition indent11 : string := "           ".

(** The text of one keyword field: [", \n%s<name>=<value>" % indent]. *)
Definition field_text (kv : string * string) : string :=
  ", " +:+ Py.nl +:+ indent11 +:+ kv.1 +:+ "=" +:+ kv.2.

(** The text of the call, from its opening to the closing parenthesis. *)
Definition alter_column_text (tname cname : string) (ctx : autogen_context)
    (fields : list (string * string)) : string :=
  let text := _alembic_autogenerate_prefix ctx +:+ "alter_column(" +:+ Py.repr_str tname
              +:+ ", " +:+ Py.repr_str cname in
  foldl (fun text kv => text +:+ field_text kv) text fields +:+ ")".

Definition _modify_col (tname cname : string) (ctx : autogen_context)
    (server_default type_ nullable existing_type existing_nullable
       existing_server_default : pyval) : M string :=
  fields <~ _modify_col_fields ctx server_default type_ nullable existing_type
              existing_nullable existing_server_default ;;
  ret (alter_column_text tname cname ctx fields).

(** ** Dispatch *)

(** [kw.setdefault(k, v)] *)
Definition setdefault (kw : gmap string pyval) (k : string) (v : pyval) : gmap string pyval :=
  match kw !! k with Some _ => kw | None => <[k := v]> kw end.

Definition _arg_struct (tag : modify_tag) : string * string :=
  match tag with
  | modify_type => ("existing_type", "type_")
  | modify_nullable => ("existing_nullable", "nullable")
  | modify_default => ("existing_server_default", "server_default")
  end.

(** One turn of the loop of [_invoke_modify_command]. *)
Definition merge_diff (ud : updown) (kw : gmap string pyval) (diff : modify_diff)
    : gmap string pyval :=
  let diff_kw := md_kw diff in
  let kw :=
    foldl (fun kw arg =>
             match diff_kw !! arg with
             | Some v => setdefault kw arg v
             | None => kw
             end)
          kw ["existing_type"; "existing_nullable"; "existing_server_default"] in
  let '(old_kw, new_kw) := _arg_struct (md_tag diff) in
  match ud with
  | upgrade => <[old_kw := md_old diff]> (<[new_kw := md_new diff]> kw)
  | downgrade => <[old_kw := md_new diff]> (<[new_kw := md_old diff]> kw)
  end.

(** The keyword dictionary that [_invoke_modify_command] passes on. *)
Definition modify_kw (ud : updown) (args : list modify_diff) : gmap string pyval :=
  let kw := foldl (merge_diff ud) ∅ args in
  let kw := if decide (is_Some (kw !! "nullable")) then delete "existing_nullable" kw else kw in
  let kw := if decide (is_Some (kw !! "server_default"))
            then delete "existing_server_default" kw else kw in
  kw.

(** A keyword argument taken from the dictionary of a call, or the
    default of the parameter. *)
Definition kwarg (kw : gmap string pyval) (k : string) (default : pyval) : pyval :=
  match kw !! k with Some v => v | None => default end.

Definition _invoke_modify_command (ud : updown) (args : list modify_diff)
    (ctx : autogen_context) : M string :=
  match args with
  | [] => raise IndexError
  | first :: _ =>
      let tname := md_tname first in
      let cname := md_cname first in
      let kw := modify_kw ud args in
      _modify_col tname cname ctx
        (kwarg kw "server_default" (PBool false))
        (kwarg kw "type_" PNone)
        (kwarg kw "nullable" PNone)
        (kwarg kw "existing_type" PNone)
        (kwarg kw "existing_nullable" PNone)
        (kwarg kw "existing_server_default" (PBool false))
  end.

(** The table [_commands], with the arguments of the tuple already given
    to both callables: first the drop renderer, then the add renderer. *)
Definition _commands (args : cmd_args)
    : (autogen_context -> M string) * (autogen_context -> M string) :=
  match args with
  | TableArgs t => (_drop_table t, _add_table t)
  | ColumnArgs tname c => (_drop_column tname c, _add_column tname c)
  end.

Definition _invoke_adddrop_command (ud : updown) (a : adddrop) (args : cmd_args)
    (ctx : autogen_context) : M string :=
  let cmd_callables := _commands args in
  match ud, a with
  | upgrade, AddOp | downgrade, RemoveOp => cmd_callables.2 ctx
  | _, _ => cmd_callables.1 ctx
  end.

Definition _invoke_command (ud : updown) (args : diff) (ctx : autogen_context) : M string :=
  match args with
  | AddDrop a cargs => _invoke_adddrop_command ud a cargs ctx
  | ColumnGroup col_diff => _invoke_modify_command ud col_diff ctx
  end.

(** ** Command sequences *)

(** The list [buf] of the rendered commands, one for each diff. *)
Definition render_all (ud : updown) (diffs : list diff) (ctx : autogen_context)
    : M (list string) :=
  map_M (fun diff => _invoke_command ud diff ctx) diffs.

Definition join_commands (buf : list string) : string :=
  let buf := match buf with [] => ["pass"] | _ => buf end in
  Py.join Py.nl buf.

Definition _produce_upgrade_commands (diffs : list diff) (ctx : autogen_context) : M string :=
  buf <~ render_all upgrade diffs ctx ;;
  ret (join_commands buf).

Definition _produce_downgrade_commands (diffs : list diff) (ctx : autogen_context) : M string :=
  buf <~ render_all downgrade diffs ctx ;;
  ret (join_commands buf).

Definition _indent (text : string) : string :=
  let text := "### commands auto generated by Alembic - please adjust! ###" +:+ Py.nl +:+ text in
  let text := text +:+ Py.nl +:+ "### end Alembic commands ###" in
  Py.strip (Py.sub_line_starts "    " text).

(** ** Top level *)

Definition get_imports : M (gset string) := fun w => (inr (w_imports w), w).

(** What a run leaves behind: the diff list it built and the template
    arguments it filled. *)
Record run_result := {
  run_diffs : list diff;
  run_template_args : gmap string string
}.

Definition produce_migration_diffs (order : SetOrder) (context : MigrationContext)
    (template_args : gmap string string) : M run_result :=
  let opts := context_opts context in
  let metadata := target_metadata opts in
  match metadata with
  | None =>
      raise (CommandError
               ("Can't proceed with --autogenerate option; environment script "
                +:+ env_py_location context +:+
                " does not provide a MetaData object to the context."))
  | Some metadata =>
      let connection := context_bind context in
      let diffs := [] in
      let ctx := {| ac_connection := connection; ac_dialect := dialect connection;
                    ac_context := context; ac_opts := opts |} in
      diffs <~ _produce_net_changes order connection metadata diffs ctx ;;
      up <~ _produce_upgrade_commands diffs ctx ;;
      let template_args := <[upgrade_token opts := _indent up]> template_args in
      down <~ _produce_downgrade_commands diffs ctx ;;
      let template_args := <[downgrade_token opts := _indent down]> template_args in
      imports <~ get_imports ;;
      let template_args :=
        <["imports" := Py.join Py.nl (Py.sorted (iter order imports))]> template_args in
      ret {| run_diffs := diffs; run_template_args := template_args |}
  end.

(** ** Vocabulary of the properties *)

(** A computation that raises nothing and returns [a], whatever the
    world it starts in. *)
Definition yields {A} (c : M A) (a : A) : Prop :=
  forall w, exists w', c w = (inr a, w').

(** The events a computation adds to the trace of [w]. *)
Definition appends {A} (c : M A) (w : world) (evs : list event) : Prop :=
  (c w).2 = {| w_imports := w_imports w; w_trace := w_trace w ++ evs |}.

Definition is_compare_type_call (e : event) : bool :=
  match e with CompareTypeCall _ _ => true | _ => false end.

Definition is_compare_default_call (e : event) : bool :=
  match e with CompareServerDefaultCall _ _ _ => true | _ => false end.

(** The tables a diff is about. *)
Definition diff_tables (d : diff) : list string :=
  match d with
  | AddDrop _ (TableArgs t) => [tbl_name t]
  | AddDrop _ (ColumnArgs tname _) => [tname]
  | ColumnGroup col_diff => md_tname <$> col_diff
  end.

(** The module of a type object lets [_repr_type] find a dialect name
    whenever it looks for one. *)
Definition module_ok (mod_ : string) : Prop :=
  Py.startswith mod_ "sqlalchemy.dialects" = true ->
  exists rest c s, Py.strip_prefix "sqlalchemy.dialects." mod_ = Some rest
                   /\ Py.take_word rest = String c s.

(** The text [_repr_type] returns when it returns. *)
Definition repr_type_text (prefix : string) (type_ : pyval) : string :=
  let mod_ := py_module type_ in
  if Py.startswith mod_ "sqlalchemy.dialects" then
    match Py.strip_prefix "sqlalchemy.dialects." mod_ with
    | Some rest => Py.take_word rest +:+ "." +:+ py_repr type_
    | None => EmptyString
    end
  else prefix +:+ py_repr type_.

(** The names of the keyword fields of an [alter_column] call, by the
    arguments [_modify_col] is given. *)
Definition modify_col_field_names
    (server_default type_ nullable existing_nullable existing_server_default : pyval)
    : list string :=
  ["existing_type"]
  ++ (if is_False server_default then [] else ["server_default"])
  ++ (if is_None type_ then [] else ["type_"])
  ++ (if is_None nullable then [] else ["nullable"])
  ++ (if is_None existing_nullable then [] else ["existing_nullable"])
  ++ (if truthy existing_server_default then ["existing_server_default"] else []).

(** The keyword fields of the one call a column group is rendered to. *)
Definition alter_column_fields (ud : updown) (args : list modify_diff)
    (ctx : autogen_context) : M (list (string * string)) :=
  let kw := modify_kw ud args in
  _modify_col_fields ctx
    (kwarg kw "server_default" (PBool false))
    (kwarg kw "type_" PNone)
    (kwarg kw "nullable" PNone)
    (kwarg kw "existing_type" PNone)
    (kwarg kw "existing_nullable" PNone)
    (kwarg kw "existing_server_default" (PBool false)).

(** The keyword fields of an [alter_column] call with their rendered
    values, by the arguments [_modify_col] is given. *)
Definition modify_col_field_list (ctx : autogen_context)
    (server_default type_ nullable existing_type existing_nullable
       existing_server_default : pyval) : list (string * string) :=
  let sqla_prefix := _sqlalchemy_autogenerate_prefix ctx in
  [("existing_type", repr_type_text sqla_prefix existing_type)]
  ++ (if is_False server_default then []
      else [("server_default", fmt_s (_render_server_default server_default ctx))])
  ++ (if is_None type_ then [] else [("type_", repr_type_text sqla_prefix type_)])
  ++ (if is_None nullable then [] else [("nullable", py_repr nullable)])
  ++ (if is_None existing_nullable then []
      else [("existing_nullable", py_repr existing_nullable)])
  ++ (if truthy existing_server_default
      then [("existing_server_default",
             fmt_s (_render_server_default existing_server_default ctx))]
      else []).

(** The three tuples the attribute comparators append. *)
Definition type_diff (tname cname : string) (conn_col : ColRec) (metadata_col : Column)
    : modify_diff :=
  {| md_tag := modify_type; md_tname := tname; md_cname := cname;
     md_kw := <["existing_nullable" := of_nullable (rec_nullable conn_col)]>
              (<["existing_server_default" := of_default (rec_default conn_col)]> ∅);
     md_old := PType (rec_type conn_col);
     md_new := PType (col_type metadata_col) |}.

Definition nullable_diff (tname cname : string) (conn_col : ColRec)
    (metadata_col_nullable : option bool) : modify_diff :=
  {| md_tag := modify_nullable; md_tname := tname; md_cname := cname;
     md_kw := <["existing_type" := PType (rec_type conn_col)]>
              (<["existing_server_default" := of_default (rec_default conn_col)]> ∅);
     md_old := of_nullable (rec_nullable conn_col);
     md_new := of_nullable metadata_col_nullable |}.

Definition default_diff (tname cname : string) (conn_col : ColRec) (metadata_col : Column)
    : modify_diff :=
  {| md_tag := modify_default; md_tname := tname; md_cname := cname;
     md_kw := <["existing_nullable" := of_nullable (rec_nullable conn_col)]>
              (<["existing_type" := PType (rec_type conn_col)]> ∅);
     md_old := of_default (rec_default conn_col);
     md_new := of_server_default (col_server_default metadata_col) |}.

(** What each attribute comparator appends, as a function of the two
    columns and of the answers of the comparison predicates. *)
Definition type_changes (tname cname : string) (conn_col : ColRec) (metadata_col : Column)
    (ctx : autogen_context) : list modify_diff :=
  if is_NullType (_type_affinity (rec_type conn_col)) then []
  else if is_NullType (_type_affinity (col_type metadata_col)) then []
  else if compare_type (ac_context ctx) conn_col metadata_col
       then [type_diff tname cname conn_col metadata_col]
       else [].

Definition nullable_changes (tname cname : string) (conn_col : ColRec)
    (metadata_col_nullable : option bool) : list modify_diff :=
  if decide (rec_nullable conn_col <> metadata_col_nullable)
  then [nullable_diff tname cname conn_col metadata_col_nullable]
  else [].

Definition default_changes (tname cname : string) (conn_col : ColRec)
    (metadata_col : Column) (ctx : autogen_context) : list modify_diff :=
  if bool_decide (rec_default conn_col = None)
     && bool_decide (col_server_default metadata_col = None) then []
  else if compare_server_default (ac_context ctx) conn_col metadata_col
            (_render_server_default (of_server_default (col_server_default metadata_col)) ctx)
       then [default_diff tname cname conn_col metadata_col]
       else [].

(** The entry of the diff list for one column found on both sides. *)
Definition column_entry (tname cname : string) (conn_col : ColRec) (metadata_col : Column)
    (ctx : autogen_context) : list diff :=
  match type_changes tname cname conn_col metadata_col ctx
        ++ nullable_changes tname cname conn_col (col_nullable metadata_col)
        ++ default_changes tname cname conn_col metadata_col ctx with
  | [] => []
  | g => [ColumnGroup g]
  end.

(** The diffs of one table found on both sides, in the order of the
    three loops of [_compare_columns]; the declared column of a name
    found on both sides is the one the column collection holds under
    that name as a key. *)
Definition column_changes (order : SetOrder) (tname : string)
    (conn_table : gmap string ColRec) (metadata_table : Table) (ctx : autogen_context)
    : list diff :=
  let cols := cols_by_name metadata_table in
  (iter order (dom cols ∖ dom conn_table) ≫= fun cname =>
     match cols !! cname with
     | Some c => [add_column tname c]
     | None => []
     end)
  ++ (iter order (dom conn_table ∖ dom cols) ≫= fun cname =>
        match conn_table !! cname with
        | Some r => [remove_column tname
                       (schema_Column cname (rec_type r) (rec_nullable r) (rec_default r))]
        | None => []
        end)
  ++ (iter order (dom cols ∩ dom conn_table) ≫= fun cname =>
        match cols_by_key metadata_table !! cname, conn_table !! cname with
        | Some c, Some r => column_entry tname cname r c ctx
        | _, _ => []
        end).

(** The observed names that take part in the comparison. *)
Definition conn_names (inspector : Inspector) : gset string :=
  list_to_set (get_table_names inspector) ∖ list_to_set ["alembic_version"].

(** The table that reflection builds for an observed name. *)
Definition reflected (inspector : Inspector) (tname : string) : Table :=
  {| tbl_name := tname;
     tbl_c := (reflecttable inspector tname).1;
     tbl_constraints := (reflecttable inspector tname).2 |}.

Definition observed_columns (inspector : Inspector) (tname : string) : gmap string ColRec :=
  dict ((fun rec => (rec_name rec, rec)) <$> get_columns inspector tname).

(** The table diffs of a run, in the order of the first two loops of
    [_compare_tables]. *)
Definition table_changes (order : SetOrder) (inspector : Inspector) (metadata : MetaData)
    : list diff :=
  (iter order (dom (tables metadata) ∖ conn_names inspector) ≫= fun tname =>
     match tables metadata !! tname with
     | Some t => [add_table t]
     | None => []
     end)
  ++ ((fun tname => remove_table (reflected inspector tname))
      <$> iter order (conn_names inspector ∖ dom (tables metadata))).

(** The names of the tables found on both sides, in the order in which
    their columns are compared. *)
Definition existing_sorted (order : SetOrder) (inspector : Inspector) (metadata : MetaData)
    : list string :=
  Py.sorted (iter order (conn_names inspector ∩ dom (tables metadata))).

(** The column diffs of one table of [existing_sorted]. *)
Definition existing_table_changes (order : SetOrder) (inspector : Inspector)
    (metadata : MetaData) (ctx : autogen_context) (tname : string) : list diff :=
  match tables metadata !! tname with
  | Some metadata_table =>
      column_changes order tname (observed_columns inspector tname) metadata_table ctx
  | None => []
  end.

(** The diff list of a run. *)
Definition net_changes (order : SetOrder) (connection : Connection) (metadata : MetaData)
    (ctx : autogen_context) : list diff :=
  let inspector := from_engine connection in
  table_changes order inspector metadata
  ++ (existing_sorted order inspector metadata
        ≫= existing_table_changes order inspector metadata ctx).

(** The nullable flag a direction sets on a column. *)
Definition nullable_set (ud : updown) (conn_col : ColRec) (metadata_col : Column) : pyval :=
  match ud with
  | upgrade => of_nullable (col_nullable metadata_col)
  | downgrade => of_nullable (rec_nullable conn_col)
  end.

(** The type a direction leaves behind as [existing_type] when it
    changes the type of a column. *)
Definition type_replaced (ud : updown) (conn_col : ColRec) (metadata_col : Column)
    : TypeSpec :=
  match ud with
  | upgrade => rec_type conn_col
  | downgrade => col_type metadata_col
  end.

(** A computation that raises, if it raises, an exception of [P]. *)
Definition raises_only {A} (P : exn -> Prop) (c : M A) : Prop :=
  forall w e w', c w = (inl e, w') -> P e.

(** The exceptions of the rendering: a type whose module names no
    dialect, and a column group without a diff. *)
Definition render_error (e : exn) : Prop := e = AttributeError \/ e = IndexError.

(** The renderer of a direction. *)
Definition produce_commands (ud : updown) : list diff -> autogen_context -> M string :=
  match ud with
  | upgrade => _produce_upgrade_commands
  | downgrade => _produce_downgrade_commands
  end.

(** A diff that is rendered to a command, wherever the rendering starts. *)
Definition renders (ud : updown) (ctx : autogen_context) (d : diff) : Prop :=
  forall w, exists c w', _invoke_command ud d ctx w = (inr c, w').

(** [c] is a command that [_invoke_command] returns for [d]. *)
Definition rendering_of (ud : updown) (ctx : autogen_context) (d : diff) (c : string)
    : Prop :=
  exists w w', _invoke_command ud d ctx w = (inr c, w').

(** The diff that undoes a diff: an added table or column is removed,
    and a modified attribute goes back from its new value to its old one. *)
Definition flip_adddrop (a : adddrop) : adddrop :=
  match a with AddOp => RemoveOp | RemoveOp => AddOp end.

Definition swap_diff (m : modify_diff) : modify_diff :=
  {| md_tag := md_tag m; md_tname := md_tname m; md_cname := md_cname m;
     md_kw := md_kw m; md_old := md_new m; md_new := md_old m |}.

Definition reverse_diff (d : diff) : diff :=
  match d with
  | AddDrop a args => AddDrop (flip_adddrop a) args
  | ColumnGroup col_diff => ColumnGroup (swap_diff <$> col_diff)
  end.

(** The keyword parameters of [_modify_col]. *)
Definition modify_col_keywords : list string :=
  ["server_default"; "type_"; "nullable"; "existing_type"; "existing_nullable";
   "existing_server_default"].

(** The type and the default a direction sets on a column. *)
Definition type_set (ud : updown) (conn_col : ColRec) (metadata_col : Column) : TypeSpec :=
  match ud with
  | upgrade => col_type metadata_col
  | downgrade => rec_type conn_col
  end.

Definition default_set (ud : updown) (conn_col : ColRec) (metadata_col : Column) : pyval :=
  match ud with
  | upgrade => of_server_default (col_server_default metadata_col)
  | downgrade => of_default (rec_default conn_col)
  end.

(** The calls to the two comparison predicates among some events. *)
Definition calls_of (evs : list event) : list event :=
  List.filter (fun e => is_compare_type_call e || is_compare_default_call e) evs.

(** The line that [_repr_type] adds to the imports for a dialect. *)
Definition dialect_import (line : string) : Prop :=
  exists c dname, line = "from sqlalchemy.dialects import " +:+ String c dname
                  /\ Py.take_word (String c dname) = String c dname.

(** What a rendering does to the world: the trace stays, the imports
    grow, by dialect imports only. *)
Definition only_imports {A} (c : M A) : Prop :=
  forall w r w', c w = (r, w') ->
    w_trace w' = w_trace w
    /\ w_imports w ⊆ w_imports w'
    /\ forall line, line ∈ w_imports w' -> line ∉ w_imports w -> dialect_import line.

(** What a comparison does to the world: the imports stay, the trace grows. *)
Definition only_logs {A} (c : M A) : Prop :=
  forall w r w', c w = (r, w') ->
    w_imports w' = w_imports w /\ exists evs, w_trace w' = w_trace w ++ evs.

(** Every type of the two schemas has a module in which [_repr_type]
    finds what it looks for. *)
Definition schema_types_ok (inspector : Inspector) (metadata : MetaData) : Prop :=
  (forall t c, t ∈ metadata_tables metadata -> c ∈ tbl_c t ->
               module_ok (ty_module (col_type c)))
  /\ (forall tname r, r ∈ get_columns inspector tname ->
                      module_ok (ty_module (rec_type r)))
  /\ (forall tname c, c ∈ (reflecttable inspector tname).1 ->
                      module_ok (ty_module (col_type c))).

(** The lookups [metadata_table.c[colname]] of [_compare_columns] find
    a column: every column name that a declared table shares with its
    observed table is a key of the column collection of the table. *)
Definition shared_names_resolve (conn_table : gmap string ColRec) (t : Table) : Prop :=
  forall colname, colname ∈ dom (cols_by_name t) -> colname ∈ dom conn_table ->
                  is_Some (cols_by_key t !! colname).

Definition keys_resolve (inspector : Inspector) (metadata : MetaData) : Prop :=
  forall tname t, tname ∈ conn_names inspector -> tables metadata !! tname = Some t ->
                  shared_names_resolve (observed_columns inspector tname) t.

(** A computation that raises, whatever the world it starts in. *)
Definition fails {A} (c : M A) : Prop :=
  forall w, exists e w', c w = (inl e, w').

Definition is_KeyError (e : exn) : Prop := exists k, e = KeyError k.

(** The text of one keyword field of a call, written out. *)
Definition kwfield (name value : string) : string :=
  ", " +:+ Py.nl +:+ "           " +:+ name +:+ "=" +:+ value.

(** The text of some keyword fields, one after the other. *)
Definition fields_text (fields : list (string * string)) : string :=
  foldr (fun kv text => kwfield kv.1 kv.2 +:+ text) EmptyString fields.

(** A computation that returns, whatever the world it starts in. *)
Definition succeeds {A} (c : M A) : Prop :=
  forall w, exists a w', c w = (inr a, w').

(** The dictionary [autogen_context] that [produce_migration_diffs]
    builds from the migration context. *)
Definition autogen_context_of (context : MigrationContext) : autogen_context :=
  {| ac_connection := context_bind context;
     ac_dialect := dialect (context_bind context);
     ac_context := context;
     ac_opts := context_opts context |}.

(** ** Sample schemas *)

Module Sample.

(** Two ways for the interpreter to walk a set. *)
Definition hash_order : SetOrder :=
  {| iter := elements; iter_perm := fun s => reflexivity (elements s) |}.

Definition reversed_order : SetOrder :=
  {| iter := fun s => reverse (elements s);
     iter_perm := fun s => reverse_Permutation (elements s) |}.

Definition INTEGER : TypeSpec :=
  {| ty_module := "sqlalchemy.types"; ty_repr := "INTEGER()";
     _type_affinity := Affinity "Integer" |}.

Definition VARCHAR : TypeSpec :=
  {| ty_module := "sqlalchemy.dialects.postgresql.base"; ty_repr := "VARCHAR(length=50)";
     _type_affinity := Affinity "String" |}.

Definition NULLTYPE : TypeSpec :=
  {| ty_module := "sqlalchemy.types"; ty_repr := "NullType()";
     _type_affinity := NullType |}.

(** Observed [users.email]: an integer, nullable, with default ['x']. *)
Definition email_rec : ColRec :=
  {| rec_name := "email"; rec_type := INTEGER; rec_nullable := Some true;
     rec_default := Some "'x'" |}.

(** Declared [users.email]: a string, not nullable, with the same default. *)
Definition email_col : Column :=
  {| col_name := "email"; col_key := "email"; col_type := VARCHAR; col_nullable := Some false;
     col_server_default := Some {| arg := ArgStr "x" |} |}.

(** Declared [users.email] with only the nullable flag changed. *)
Definition email_col_not_null : Column :=
  {| col_name := "email"; col_key := "email"; col_type := INTEGER; col_nullable := Some false;
     col_server_default := Some {| arg := ArgStr "x" |} |}.

Definition untyped_rec : ColRec :=
  {| rec_name := "data"; rec_type := NULLTYPE; rec_nullable := Some true;
     rec_default := None |}.

Definition data_col : Column :=
  {| col_name := "data"; col_key := "data"; col_type := VARCHAR; col_nullable := Some false;
     col_server_default := None |}.

Definition id_col : Column :=
  {| col_name := "id"; col_key := "id"; col_type := INTEGER; col_nullable := Some false;
     col_server_default := None |}.

Definition table_named (name : string) : Table :=
  {| tbl_name := name; tbl_c := [id_col];
     tbl_constraints := [PrimaryKeyConstraint None ["id"]] |}.

Definition users : Table :=
  {| tbl_name := "users"; tbl_c := [id_col; email_col];
     tbl_constraints := [PrimaryKeyConstraint None ["id"]] |}.

Definition id_rec : ColRec :=
  {| rec_name := "id"; rec_type := INTEGER; rec_nullable := Some false;
     rec_default := None |}.

(** A database with the listed tables, each with the one column [id],
    but [users], which has [id] and [email]. *)
Definition inspector_of (names : list string) : Inspector :=
  {| get_table_names := names;
     get_columns := fun tname =>
       if String.eqb tname "users" then [id_rec; email_rec] else [id_rec];
     reflecttable := fun tname => ([id_col], [PrimaryKeyConstraint None ["id"]]) |}.

Definition connection_of (names : list string) : Connection :=
  {| dialect := {| compile := clause_repr |}; from_engine := inspector_of names |}.

Definition opts_of (metadata : option MetaData) : Opts :=
  {| target_metadata := metadata; upgrade_token := "upgrades";
     downgrade_token := "downgrades"; sqlalchemy_module_prefix := Some "sa.";
     alembic_module_prefix := Some "op." |}.

(** The comparators of the sample context: types differ when their
    [repr] differs, defaults differ when the observed text is not the
    rendered declared one. *)
Definition context_of (metadata : option MetaData) (names : list string)
    : MigrationContext :=
  {| context_opts := opts_of metadata;
     context_bind := connection_of names;
     env_py_location := "alembic/env.py";
     compare_type := fun r c => negb (String.eqb (ty_repr (rec_type r)) (ty_repr (col_type c)));
     compare_server_default := fun r c rendered =>
       negb (bool_decide (rec_default r = rendered)) |}.

Definition ctx_of (metadata : option MetaData) (names : list string) : autogen_context :=
  {| ac_connection := connection_of names;
     ac_dialect := dialect (connection_of names);
     ac_context := context_of metadata names;
     ac_opts := opts_of metadata |}.

Definition ctx : autogen_context := ctx_of None [].

(** The group of [users.email]: type and nullable flag changed. *)
Definition email_group : list modify_diff :=
  [type_diff "users" "email" email_rec email_col;
   nullable_diff "users" "email" email_rec (Some false)].

(** The group of [users.email] when only the nullable flag changed. *)
Definition email_nullable_group : list modify_diff :=
  [nullable_diff "users" "email" email_rec (Some false)].

Definition w0 : world := {| w_imports := ∅; w_trace := [] |}.

(** The result of a computation started in the empty world. *)
Definition result_of {A} (c : M A) : option A :=
  match (c w0).1 with inr a => Some a | inl _ => None end.

(** A type whose class lives in [sqlalchemy.dialects] itself, and a
    declared table with a column of that type. *)
Definition DIALECTLESS : TypeSpec :=
  {| ty_module := "sqlalchemy.dialects"; ty_repr := "Odd()";
     _type_affinity := Affinity "String" |}.

Definition odd_table : Table :=
  {| tbl_name := "odd";
     tbl_c := [{| col_name := "x"; col_key := "x"; col_type := DIALECTLESS; col_nullable := Some true;
                  col_server_default := None |}];
     tbl_constraints := [] |}.

(** The declared [users] with its column [email] held under another key. *)
Definition keyed_users : Table :=
  {| tbl_name := "users";
     tbl_c := [id_col;
               {| col_name := "email"; col_key := "mail"; col_type := VARCHAR;
                  col_nullable := Some false; col_server_default := None |}];
     tbl_constraints := [] |}.

End Sample.

(** * Properties *)

(** ** The monad *)

Lemma bind_run {A B} (c : M A) (k : A -> M B) w a w' :
  c w = (inr a, w') -> bind c k w = k a w'.
Proof. intros H. unfold bind. rewrite H. reflexivity. Qed.

Lemma bind_run_err {A B} (c : M A) (k : A -> M B) w e w' :
  c w = (inl e, w') -> bind c k w = (inl e, w').
Proof. intros H. unfold bind. rewrite H. reflexivity. Qed.

Lemma run_fst {A} (c : M A) w a : (c w).1 = inr a -> c w = (inr a, (c w).2).
Proof. destruct (c w) as [r w']. simpl. intros ->. reflexivity. Qed.

Lemma yields_ret {A} (a : A) : yields (ret a) a.
Proof. intros w. exists w. reflexivity. Qed.

Lemma yields_bind {A B} (c : M A) (k : A -> M B) a b :
  yields c a -> yields (k a) b -> yields (bind c k) b.
Proof.
  intros Hc Hk w. destruct (Hc w) as [w1 H1]. destruct (Hk w1) as [w2 H2].
  exists w2. rewrite (bind_run _ _ _ _ _ H1). exact H2.
Qed.

Lemma yields_eq {A} (c : M A) a b : yields c a -> a = b -> yields c b.
Proof. intros H <-. exact H. Qed.

Lemma yields_emit e : yields (emit e) tt.
Proof. intros w. eexists. reflexivity. Qed.

Lemma yields_log_info r : yields (log_info r) tt.
Proof. apply yields_emit. Qed.

Lemma yields_getitem {V} (d : gmap string V) k v :
  d !! k = Some v -> yields (getitem d k) v.
Proof. intros H w. exists w. unfold getitem. rewrite H. reflexivity. Qed.

Lemma yields_for_each {A S} (l : list A) (body : A -> S -> M S) (step : S -> A -> S) :
  forall s, (forall x s', x ∈ l -> yields (body x s') (step s' x)) ->
            yields (for_each l body s) (foldl step s l).
Proof.
  induction l as [|x l IH]; intros s Hbody; simpl.
  - apply yields_ret.
  - eapply yields_bind.
    + apply Hbody. left.
    + apply IH. intros y s' Hy. apply Hbody. right. exact Hy.
Qed.

Lemma yields_inj {A} (c : M A) a b : yields c a -> yields c b -> a = b.
Proof.
  intros Ha Hb. pose (w := {| w_imports := ∅; w_trace := [] |}).
  destruct (Ha w) as [w1 H1]. destruct (Hb w) as [w2 H2]. congruence.
Qed.

Ltac run_m :=
  unfold bind, ret, raise, log_info, emit, imports_add, get_imports; simpl.

(** ** Add and drop dispatch *)

(** C2: the renderer of a structural diff follows the four-way table:
    upgrade of an add diff and downgrade of a remove diff call the add
    renderer, downgrade of an add diff and upgrade of a remove diff call
    the drop renderer, for tables and for columns alike. *)
Theorem adddrop_dispatch_four_way (t : Table) (tname : string) (c : Column)
    (ctx : autogen_context) :
  (_invoke_command upgrade (add_table t) ctx = _add_table t ctx
   /\ _invoke_command downgrade (add_table t) ctx = _drop_table t ctx
   /\ _invoke_command upgrade (remove_table t) ctx = _drop_table t ctx
   /\ _invoke_command downgrade (remove_table t) ctx = _add_table t ctx)
  /\ (_invoke_command upgrade (add_column tname c) ctx = _add_column tname c ctx
      /\ _invoke_command downgrade (add_column tname c) ctx = _drop_column tname c ctx
      /\ _invoke_command upgrade (remove_column tname c) ctx = _drop_column tname c ctx
      /\ _invoke_command downgrade (remove_column tname c) ctx = _add_column tname c ctx)
  /\ (forall args,
        _invoke_adddrop_command upgrade AddOp args ctx = (_commands args).2 ctx
        /\ _invoke_adddrop_command downgrade AddOp args ctx = (_commands args).1 ctx
        /\ _invoke_adddrop_command upgrade RemoveOp args ctx = (_commands args).1 ctx
        /\ _invoke_adddrop_command downgrade RemoveOp args ctx = (_commands args).2 ctx).
Proof. repeat split. Qed.

(** ** Attribute comparators *)

Lemma compare_type_run tname cname conn_col metadata_col diffs ctx w :
  exists out evs,
    _compare_type tname cname conn_col metadata_col diffs ctx w
    = (inr out, {| w_imports := w_imports w; w_trace := w_trace w ++ evs |})
    /\ ((_type_affinity (rec_type conn_col) = NullType
         /\ out = diffs /\ evs = [LogInfo (NoDatabaseType tname cname)])
        \/ (_type_affinity (rec_type conn_col) <> NullType
            /\ _type_affinity (col_type metadata_col) = NullType
            /\ out = diffs /\ evs = [LogInfo (NoModelType tname cname)])
        \/ (_type_affinity (rec_type conn_col) <> NullType
            /\ _type_affinity (col_type metadata_col) <> NullType
            /\ compare_type (ac_context ctx) conn_col metadata_col = false
            /\ out = diffs /\ evs = [CompareTypeCall conn_col metadata_col])
        \/ (_type_affinity (rec_type conn_col) <> NullType
            /\ _type_affinity (col_type metadata_col) <> NullType
            /\ compare_type (ac_context ctx) conn_col metadata_col = true
            /\ (exists d, out = diffs ++ [d] /\ md_tag d = modify_type
                          /\ md_tname d = tname /\ md_cname d = cname
                          /\ md_old d = PType (rec_type conn_col)
                          /\ md_new d = PType (col_type metadata_col)
                          /\ md_kw d = <["existing_nullable" := of_nullable (rec_nullable conn_col)]>
                               (<["existing_server_default" := of_default (rec_default conn_col)]> ∅))
            /\ evs = [CompareTypeCall conn_col metadata_col;
                      LogInfo (DetectedTypeChange (rec_type conn_col) (col_type metadata_col)
                                 tname cname)])).
Proof.
  unfold _compare_type.
  destruct (_type_affinity (rec_type conn_col)) eqn:Ha; simpl.
  { do 2 eexists. split; [reflexivity|]. left. auto. }
  destruct (_type_affinity (col_type metadata_col)) eqn:Hb; simpl.
  { do 2 eexists. split; [reflexivity|]. right. left. repeat split; congruence. }
  run_m. destruct (compare_type (ac_context ctx) conn_col metadata_col) eqn:Hc; simpl.
  - do 2 eexists. rewrite <- app_assoc. split; [reflexivity|].
    right. right. right. repeat split; try congruence.
    eexists. repeat split.
  - do 2 eexists. split; [reflexivity|]. right. right. left. repeat split; congruence.
Qed.

(** The diff that [_compare_nullable] appends. *)
Lemma compare_nullable_run tname cname conn_col metadata_col_nullable diffs ctx w :
  exists out evs,
    _compare_nullable tname cname conn_col metadata_col_nullable diffs ctx w
    = (inr out, {| w_imports := w_imports w; w_trace := w_trace w ++ evs |})
    /\ ((rec_nullable conn_col = metadata_col_nullable /\ out = diffs /\ evs = [])
        \/ (rec_nullable conn_col <> metadata_col_nullable
            /\ (exists d, out = diffs ++ [d] /\ md_tag d = modify_nullable
                          /\ md_tname d = tname /\ md_cname d = cname
                          /\ md_old d = of_nullable (rec_nullable conn_col)
                          /\ md_new d = of_nullable metadata_col_nullable
                          /\ md_kw d = <["existing_type" := PType (rec_type conn_col)]>
                               (<["existing_server_default" := of_default (rec_default conn_col)]> ∅))
            /\ exists what, evs = [LogInfo (DetectedNullable what tname cname)])).
Proof.
  unfold _compare_nullable.
  destruct (decide (rec_nullable conn_col <> metadata_col_nullable)) as [Hne|Heq].
  - run_m. do 2 eexists. split; [reflexivity|]. right. split; [exact Hne|].
    split; [eexists; repeat split | eexists; reflexivity].
  - exists diffs, []. rewrite app_nil_r. destruct w. split; [reflexivity|].
    left. split; [|auto]. destruct (decide (rec_nullable conn_col = metadata_col_nullable)); tauto.
Qed.

Lemma compare_server_default_run tname cname conn_col metadata_col diffs ctx w :
  let rendered :=
    _render_server_default (of_server_default (col_server_default metadata_col)) ctx in
  exists out evs,
    _compare_server_default tname cname conn_col metadata_col diffs ctx w
    = (inr out, {| w_imports := w_imports w; w_trace := w_trace w ++ evs |})
    /\ ((rec_default conn_col = None /\ col_server_default metadata_col = None
         /\ out = diffs /\ evs = [])
        \/ ((rec_default conn_col <> None \/ col_server_default metadata_col <> None)
            /\ compare_server_default (ac_context ctx) conn_col metadata_col rendered = false
            /\ out = diffs
            /\ evs = [CompareServerDefaultCall conn_col metadata_col rendered])
        \/ ((rec_default conn_col <> None \/ col_server_default metadata_col <> None)
            /\ compare_server_default (ac_context ctx) conn_col metadata_col rendered = true
            /\ (exists d, out = diffs ++ [d] /\ md_tag d = modify_default
                          /\ md_tname d = tname /\ md_cname d = cname
                          /\ md_old d = of_default (rec_default conn_col)
                          /\ md_new d = of_server_default (col_server_default metadata_col)
                          /\ md_kw d = <["existing_nullable" := of_nullable (rec_nullable conn_col)]>
                               (<["existing_type" := PType (rec_type conn_col)]> ∅))
            /\ evs = [CompareServerDefaultCall conn_col metadata_col rendered;
                      LogInfo (DetectedServerDefault tname cname)])).
Proof.
  intros rendered. unfold _compare_server_default. fold rendered.
  assert (Hside : forall (A : Type) (x : option A) (B : Type) (y : option B),
             bool_decide (x = None) && bool_decide (y = None) = false ->
             x <> None \/ y <> None).
  { intros A [a|] B [b|] H; simpl in H; try discriminate; auto. }
  destruct (bool_decide (rec_default conn_col = None)
            && bool_decide (col_server_default metadata_col = None)) eqn:Hnone.
  - apply andb_true_iff in Hnone as [H1 H2].
    apply bool_decide_eq_true in H1, H2.
    exists diffs, []. rewrite app_nil_r. destruct w. split; [reflexivity|]. left. auto.
  - apply Hside in Hnone. run_m.
    destruct (compare_server_default (ac_context ctx) conn_col metadata_col rendered) eqn:Hc;
      simpl.
    + do 2 eexists. rewrite <- app_assoc. split; [reflexivity|].
      right. right. split; [exact Hnone|]. split; [reflexivity|].
      split; [eexists; repeat split | reflexivity].
    + do 2 eexists. split; [reflexivity|]. right. left. auto.
Qed.

(** The three comparators in a row, as [_compare_columns] calls them for a
    column found on both sides. *)
Lemma compare_column_attrs_run tname colname conn_col metadata_col diffs ctx w :
  exists g1 g2 g3 e1 e2 e3 w1 w2,
    _compare_type tname colname conn_col metadata_col [] ctx w
    = (inr g1, w1) /\ w1 = {| w_imports := w_imports w; w_trace := w_trace w ++ e1 |}
    /\ _compare_nullable tname colname conn_col (col_nullable metadata_col) g1 ctx w1
       = (inr (g1 ++ g2), w2)
    /\ w2 = {| w_imports := w_imports w; w_trace := w_trace w ++ e1 ++ e2 |}
    /\ _compare_server_default tname colname conn_col metadata_col (g1 ++ g2) ctx w2
       = (inr (g1 ++ g2 ++ g3),
          {| w_imports := w_imports w; w_trace := w_trace w ++ e1 ++ e2 ++ e3 |})
    /\ compare_column_attrs tname colname conn_col metadata_col diffs ctx w
       = (inr (match g1 ++ g2 ++ g3 with
               | [] => diffs
               | g => diffs ++ [ColumnGroup g]
               end),
          {| w_imports := w_imports w; w_trace := w_trace w ++ e1 ++ e2 ++ e3 |}).
Proof.
  destruct (compare_type_run tname colname conn_col metadata_col [] ctx w)
    as (o1 & e1 & H1 & _).
  set (w1 := {| w_imports := w_imports w; w_trace := w_trace w ++ e1 |}) in *.
  destruct (compare_nullable_run tname colname conn_col (col_nullable metadata_col) o1 ctx w1)
    as (o2 & e2 & H2 & C2).
  assert (exists g2, o2 = o1 ++ g2) as [g2 ->].
  { destruct C2 as [(_ & -> & _)|(_ & (d & -> & _) & _)]; [exists []; by rewrite app_nil_r|by exists [d]]. }
  simpl in H2. rewrite <- app_assoc in H2.
  set (w2 := {| w_imports := w_imports w; w_trace := w_trace w ++ e1 ++ e2 |}) in *.
  destruct (compare_server_default_run tname colname conn_col metadata_col (o1 ++ g2) ctx w2)
    as (o3 & e3 & H3 & C3).
  assert (exists g3, o3 = (o1 ++ g2) ++ g3) as [g3 ->].
  { destruct C3 as [(_ & _ & -> & _)|[(_ & _ & -> & _)|(_ & _ & (d & -> & _) & _)]];
      [exists []; by rewrite app_nil_r|exists []; by rewrite app_nil_r|by exists [d]]. }
  simpl in H3. rewrite <- !app_assoc in H3.
  exists o1, g2, g3, e1, e2, e3, w1, w2.
  repeat split; try assumption.
  unfold compare_column_attrs.
  rewrite (bind_run _ _ _ _ _ H1), (bind_run _ _ _ _ _ H2), (bind_run _ _ _ _ _ H3).
  destruct (o1 ++ g2 ++ g3); reflexivity.
Qed.

Lemma app_singleton_neq {A} (l : list A) (x : A) : l ++ [x] <> l.
Proof.
  intros H. apply (f_equal (@List.length _)) in H. rewrite length_app in H. simpl in H. lia.
Qed.

(** C3: when the type of either side has the null affinity, the type
    comparator returns its list unchanged, logs one diagnostic and does
    not ask the comparison predicate; the group of the column, whatever
    its nullable flags and defaults are, holds no [modify_type] diff. *)
Theorem unresolved_type_no_modify_type (tname cname : string) (conn_col : ColRec)
    (metadata_col : Column) (ctx : autogen_context)
    (Hnull : _type_affinity (rec_type conn_col) = NullType
             \/ _type_affinity (col_type metadata_col) = NullType) :
  (forall diffs w, exists r,
      _compare_type tname cname conn_col metadata_col diffs ctx w
      = (inr diffs, {| w_imports := w_imports w; w_trace := w_trace w ++ [LogInfo r] |})
      /\ (r = NoDatabaseType tname cname \/ r = NoModelType tname cname))
  /\ (forall diffs w, exists out evs,
        compare_column_attrs tname cname conn_col metadata_col diffs ctx w
        = (inr out, {| w_imports := w_imports w; w_trace := w_trace w ++ evs |})
        /\ Forall (fun e => is_compare_type_call e = false) evs
        /\ (out = diffs
            \/ exists g, out = diffs ++ [ColumnGroup g]
                         /\ Forall (fun d => md_tag d <> modify_type) g)).
Proof.
  assert (Hty : forall diffs w, exists r,
      _compare_type tname cname conn_col metadata_col diffs ctx w
      = (inr diffs, {| w_imports := w_imports w; w_trace := w_trace w ++ [LogInfo r] |})
      /\ (r = NoDatabaseType tname cname \/ r = NoModelType tname cname)).
  { intros diffs w.
    destruct (compare_type_run tname cname conn_col metadata_col diffs ctx w)
      as (out & evs & Hrun & Hcase).
    destruct Hcase as [(_ & -> & ->)|[(_ & _ & -> & ->)|[(Ha & Hb & _)|(Ha & Hb & _)]]];
      [eexists; split; [exact Hrun|auto]..| |]; destruct Hnull; contradiction. }
  split; [exact Hty|].
  intros diffs w.
  destruct (compare_column_attrs_run tname cname conn_col metadata_col diffs ctx w)
    as (g1 & g2 & g3 & e1 & e2 & e3 & w1 & w2 & H1 & -> & H2 & -> & H3 & Hall).
  destruct (Hty [] w) as (r & Hr & _).
  rewrite Hr in H1. injection H1 as <- He1. apply app_inv_head in He1. subst e1.
  simpl in H2, H3, Hall.
  destruct (compare_nullable_run tname cname conn_col (col_nullable metadata_col) [] ctx
              {| w_imports := w_imports w; w_trace := w_trace w ++ [LogInfo r] |})
    as (o2 & v2 & R2 & C2).
  pose proof (eq_trans (eq_sym R2) H2) as E2. injection E2 as -> He2.
  rewrite <- app_assoc in He2. apply app_inv_head in He2.
  simpl in He2. injection He2 as ->.
  destruct (compare_server_default_run tname cname conn_col metadata_col g2 ctx
              {| w_imports := w_imports w; w_trace := w_trace w ++ [LogInfo r] ++ e2 |})
    as (o3 & v3 & R3 & C3).
  pose proof (eq_trans (eq_sym R3) H3) as E3. injection E3 as -> He3.
  rewrite <- !app_assoc in He3. apply app_inv_head in He3.
  simpl in He3. injection He3 as He3. apply app_inv_head in He3. subst v3.
  exists (match g2 ++ g3 with [] => diffs | g => diffs ++ [ColumnGroup g] end),
         ([LogInfo r] ++ e2 ++ e3).
  split; [exact Hall|].
  assert (Hg2 : Forall (fun d => md_tag d <> modify_type) g2
                /\ Forall (fun e => is_compare_type_call e = false) e2).
  { destruct C2 as [(_ & -> & ->)|(_ & (d & -> & Htag & _) & (what & ->))].
    - split; constructor.
    - split; repeat constructor. rewrite Htag. discriminate. }
  assert (Hg3 : Forall (fun d => md_tag d <> modify_type) g3
                /\ Forall (fun e => is_compare_type_call e = false) e3).
  { destruct C3 as [(_ & _ & Ho & ->)|[(_ & _ & Ho & ->)|(_ & _ & (d & Ho & Htag & _) & ->)]].
    - apply (f_equal (@List.length _)) in Ho. rewrite length_app in Ho.
      destruct g3; [|simpl in Ho; lia]. split; constructor.
    - apply (f_equal (@List.length _)) in Ho. rewrite length_app in Ho.
      destruct g3; [|simpl in Ho; lia]. split; repeat constructor.
    - apply app_inv_head in Ho. subst g3. split; repeat constructor.
      rewrite Htag. discriminate. }
  destruct Hg2 as [Hg2 He2], Hg3 as [Hg3 He3].
  split.
  - apply Forall_app. split; [repeat constructor|]. apply Forall_app. auto.
  - destruct (g2 ++ g3) eqn:Hg; [left; reflexivity|right].
    eexists. split; [reflexivity|]. rewrite <- Hg. apply Forall_app. auto.
Qed.

(** C4: the nullable comparator appends a [modify_nullable] diff exactly
    when the observed flag differs from the declared flag, an unknown flag
    differing from both booleans; the diff carries the observed type and
    the observed default as its existing context. *)
Theorem nullable_diff_iff_flags_differ (tname cname : string) (conn_col : ColRec)
    (metadata_col_nullable : option bool) (diffs : list modify_diff)
    (ctx : autogen_context) (w : world) :
  exists out w',
    _compare_nullable tname cname conn_col metadata_col_nullable diffs ctx w = (inr out, w')
    /\ ((exists d, out = diffs ++ [d]
                   /\ md_tag d = modify_nullable
                   /\ md_tname d = tname /\ md_cname d = cname
                   /\ md_old d = of_nullable (rec_nullable conn_col)
                   /\ md_new d = of_nullable metadata_col_nullable
                   /\ md_kw d !! "existing_type" = Some (PType (rec_type conn_col))
                   /\ md_kw d !! "existing_server_default"
                      = Some (of_default (rec_default conn_col)))
        <-> rec_nullable conn_col <> metadata_col_nullable)
    /\ (out = diffs <-> rec_nullable conn_col = metadata_col_nullable)
    /\ (forall b, (rec_nullable conn_col = None /\ metadata_col_nullable = Some b)
                  \/ (rec_nullable conn_col = Some b /\ metadata_col_nullable = None) ->
                  out <> diffs).
Proof.
  destruct (compare_nullable_run tname cname conn_col metadata_col_nullable diffs ctx w)
    as (out & evs & Hrun & Hcase).
  exists out, {| w_imports := w_imports w; w_trace := w_trace w ++ evs |}.
  split; [exact Hrun|].
  destruct Hcase as [(Heq & -> & _)|(Hne & (d & -> & Htag & Ht & Hc & Ho & Hn & Hkw) & _)].
  - split; [|split].
    + split; [|tauto]. intros (d & Hd & _). symmetry in Hd.
      exfalso. exact (app_singleton_neq _ _ Hd).
    + tauto.
    + intros b [[H1 H2]|[H1 H2]]; congruence.
  - split; [|split].
    + split; [intros _; exact Hne|]. intros _. exists d. rewrite Hkw.
      repeat split; try assumption.
    + split; [|tauto]. intros Hd. exfalso. exact (app_singleton_neq _ _ Hd).
    + intros _ _. apply app_singleton_neq.
Qed.

(** C5: when neither side has a default the default comparator returns
    its list unchanged and leaves the world as it was, so the comparison
    predicate is not called; a diff is appended only when some side has a
    default and the predicate, then called, answers that they differ. *)
Theorem default_comparator_short_circuit (tname cname : string) (conn_col : ColRec)
    (metadata_col : Column) (diffs : list modify_diff) (ctx : autogen_context)
    (w : world) :
  exists out evs,
    _compare_server_default tname cname conn_col metadata_col diffs ctx w
    = (inr out, {| w_imports := w_imports w; w_trace := w_trace w ++ evs |})
    /\ (rec_default conn_col = None -> col_server_default metadata_col = None ->
        out = diffs /\ evs = [])
    /\ (out <> diffs ->
        (rec_default conn_col <> None \/ col_server_default metadata_col <> None)
        /\ compare_server_default (ac_context ctx) conn_col metadata_col
             (_render_server_default (of_server_default (col_server_default metadata_col)) ctx)
           = true
        /\ Exists (fun e => is_compare_default_call e = true) evs
        /\ exists d, out = diffs ++ [d] /\ md_tag d = modify_default).
Proof.
  destruct (compare_server_default_run tname cname conn_col metadata_col diffs ctx w)
    as (out & evs & Hrun & Hcase).
  exists out, evs. split; [exact Hrun|].
  destruct Hcase as [(H1 & H2 & -> & ->)|[(Hs & Hc & -> & ->)|(Hs & Hc & (d & -> & Htag & _) & ->)]].
  - split; [auto|]. intros H. contradiction.
  - split; [|intros H; contradiction]. intros H1 H2. destruct Hs; contradiction.
  - split; [intros H1 H2; destruct Hs; contradiction|].
    intros _. repeat split; [exact Hs|exact Hc|left; reflexivity|].
    exists d. auto.
Qed.

(** ** Rendering of a column group *)

Lemma append_cons c s t : String c s +:+ t = String c (s +:+ t).
Proof. reflexivity. Qed.

Lemma append_nil_l t : EmptyString +:+ t = t.
Proof. reflexivity. Qed.

Lemma append_nil_r s : s +:+ EmptyString = s.
Proof. induction s as [|c s IH]; [reflexivity|]. rewrite append_cons, IH. reflexivity. Qed.

Lemma append_assoc s t u : (s +:+ t) +:+ u = s +:+ (t +:+ u).
Proof.
  induction s as [|c s IH]; [reflexivity|]. rewrite !append_cons, IH. reflexivity.
Qed.

Lemma repr_type_sound prefix v ctx w s w' :
  _repr_type prefix v ctx w = (inr s, w') -> s = repr_type_text prefix v.
Proof.
  unfold _repr_type, repr_type_text, dialect_name.
  destruct (Py.startswith (py_module v) "sqlalchemy.dialects").
  - destruct (Py.strip_prefix "sqlalchemy.dialects." (py_module v)) as [rest|].
    + destruct (Py.take_word rest); run_m; congruence.
    + run_m. congruence.
  - run_m. congruence.
Qed.

Lemma repr_type_run prefix v ctx w :
  module_ok (py_module v) ->
  exists w', _repr_type prefix v ctx w = (inr (repr_type_text prefix v), w').
Proof.
  unfold module_ok, _repr_type, repr_type_text, dialect_name. intros Hok.
  destruct (Py.startswith (py_module v) "sqlalchemy.dialects").
  - destruct (Hok eq_refl) as (rest & c & s & -> & ->). run_m. eexists. reflexivity.
  - run_m. eexists. reflexivity.
Qed.

Lemma modify_col_fields_sound ctx sd ty n et en esd w fields w' :
  _modify_col_fields ctx sd ty n et en esd w = (inr fields, w') ->
  fields.*1 = modify_col_field_names sd ty n en esd
  /\ fields !! 0%nat
     = Some ("existing_type", repr_type_text (_sqlalchemy_autogenerate_prefix ctx) et).
Proof.
  unfold _modify_col_fields, modify_col_field_names. unfold bind at 1.
  destruct (_repr_type (_sqlalchemy_autogenerate_prefix ctx) et ctx w) as [[e|s] w1] eqn:H1;
    [discriminate|].
  apply repr_type_sound in H1. subst s.
  destruct (is_None ty) eqn:Hty; simpl.
  - run_m. intros [= <- _].
    destruct (is_False sd), (is_None n), (is_None en), (truthy esd); split; reflexivity.
  - unfold bind at 1. unfold bind at 1.
    destruct (_repr_type (_sqlalchemy_autogenerate_prefix ctx) ty ctx w1) as [[e|s] w2];
      [discriminate|].
    run_m. intros [= <- _].
    destruct (is_False sd), (is_None n), (is_None en), (truthy esd); split; reflexivity.
Qed.

Lemma modify_col_fields_run ctx sd ty n et en esd w :
  module_ok (py_module et) -> module_ok (py_module ty) ->
  exists fields w', _modify_col_fields ctx sd ty n et en esd w = (inr fields, w').
Proof.
  intros Het Hty. unfold _modify_col_fields.
  destruct (repr_type_run (_sqlalchemy_autogenerate_prefix ctx) et ctx w Het) as [w1 H1].
  rewrite (bind_run _ _ _ _ _ H1).
  destruct (is_None ty); simpl.
  - run_m. do 2 eexists. reflexivity.
  - destruct (repr_type_run (_sqlalchemy_autogenerate_prefix ctx) ty ctx w1 Hty) as [w2 H2].
    unfold bind at 1. rewrite (bind_run _ _ _ _ _ H2). run_m. do 2 eexists. reflexivity.
Qed.

(** [_invoke_modify_command] renders the fields of the group into one call. *)
Lemma invoke_modify_command_fields ud d args ctx w :
  _invoke_modify_command ud (d :: args) ctx w
  = match alter_column_fields ud (d :: args) ctx w with
    | (inr fields, w') => (inr (alter_column_text (md_tname d) (md_cname d) ctx fields), w')
    | (inl e, w') => (inl e, w')
    end.
Proof. reflexivity. Qed.

(** The fields of a call are the listed ones, with the listed values. *)
Lemma modify_col_fields_values ctx sd ty n et en esd w fields w' :
  _modify_col_fields ctx sd ty n et en esd w = (inr fields, w') ->
  fields = modify_col_field_list ctx sd ty n et en esd.
Proof.
  unfold _modify_col_fields, modify_col_field_list. unfold bind at 1.
  destruct (_repr_type (_sqlalchemy_autogenerate_prefix ctx) et ctx w) as [[e|s] w1] eqn:H1;
    [discriminate|].
  apply repr_type_sound in H1. subst s.
  destruct (is_None ty) eqn:Hty; simpl.
  - run_m. intros [= <- _].
    destruct (is_False sd), (is_None n), (is_None en), (truthy esd); reflexivity.
  - unfold bind at 1. unfold bind at 1.
    destruct (_repr_type (_sqlalchemy_autogenerate_prefix ctx) ty ctx w1) as [[e|s] w2] eqn:H2;
      [discriminate|].
    apply repr_type_sound in H2. subst s.
    run_m. intros [= <- _].
    destruct (is_False sd), (is_None n), (is_None en), (truthy esd); reflexivity.
Qed.

Lemma append_assoc_call p a t s c f z :
  ((p +:+ a +:+ t +:+ s +:+ c) +:+ f) +:+ z = p +:+ a +:+ t +:+ s +:+ c +:+ f +:+ z.
Proof. rewrite !append_assoc. reflexivity. Qed.

Lemma field_text_kwfield kv : field_text kv = kwfield kv.1 kv.2.
Proof. reflexivity. Qed.

Lemma foldl_field_text fields : forall text,
  foldl (fun text kv => text +:+ field_text kv) text fields = text +:+ fields_text fields.
Proof.
  induction fields as [|kv fields IH]; intros text.
  - simpl. symmetry. apply append_nil_r.
  - change (foldl (fun text kv => text +:+ field_text kv) (text +:+ field_text kv) fields
            = text +:+ (kwfield kv.1 kv.2 +:+ fields_text fields)).
    rewrite IH, field_text_kwfield. apply append_assoc.
Qed.

(** The text of the call: its opening, the fields, the closing parenthesis. *)
Lemma alter_column_text_fields tname cname ctx fields :
  alter_column_text tname cname ctx fields
  = _alembic_autogenerate_prefix ctx +:+ "alter_column(" +:+ Py.repr_str tname +:+ ", "
    +:+ Py.repr_str cname +:+ fields_text fields +:+ ")".
Proof.
  unfold alter_column_text. rewrite foldl_field_text.
  exact (append_assoc_call (_alembic_autogenerate_prefix ctx) "alter_column("
           (Py.repr_str tname) ", " (Py.repr_str cname) (fields_text fields) ")").
Qed.

Lemma fields_text_cons name value fields :
  fields_text ((name, value) :: fields) = kwfield name value +:+ fields_text fields.
Proof. reflexivity. Qed.

Lemma fields_text_app l1 l2 : fields_text (l1 ++ l2) = fields_text l1 +:+ fields_text l2.
Proof.
  induction l1 as [|[name value] l1 IH]; [reflexivity|].
  change (fields_text ((name, value) :: (l1 ++ l2))
          = (kwfield name value +:+ fields_text l1) +:+ fields_text l2).
  rewrite fields_text_cons, IH, append_assoc. reflexivity.
Qed.

Lemma fields_text_if (b : bool) name value rest :
  fields_text ((if b then [(name, value)] else []) ++ rest)
  = (if b then kwfield name value else EmptyString) +:+ fields_text rest.
Proof. destruct b; reflexivity. Qed.

Lemma fields_text_unless (b : bool) name value rest :
  fields_text ((if b then [] else [(name, value)]) ++ rest)
  = (if b then EmptyString else kwfield name value) +:+ fields_text rest.
Proof. destruct b; reflexivity. Qed.

(** The text of every rendered [alter_column] call, written out. *)
Lemma invoke_modify_command_text ud d args ctx w text w' :
  _invoke_command ud (ColumnGroup (d :: args)) ctx w = (inr text, w') ->
  let kw := modify_kw ud (d :: args) in
  let sqla_prefix := _sqlalchemy_autogenerate_prefix ctx in
  text
  = _alembic_autogenerate_prefix ctx +:+ "alter_column(" +:+ Py.repr_str (md_tname d)
    +:+ ", " +:+ Py.repr_str (md_cname d)
    +:+ kwfield "existing_type" (repr_type_text sqla_prefix (kwarg kw "existing_type" PNone))
    +:+ (if is_False (kwarg kw "server_default" (PBool false)) then EmptyString
         else kwfield "server_default"
                (fmt_s (_render_server_default (kwarg kw "server_default" (PBool false))
                          ctx)))
    +:+ (if is_None (kwarg kw "type_" PNone) then EmptyString
         else kwfield "type_" (repr_type_text sqla_prefix (kwarg kw "type_" PNone)))
    +:+ (if is_None (kwarg kw "nullable" PNone) then EmptyString
         else kwfield "nullable" (py_repr (kwarg kw "nullable" PNone)))
    +:+ (if is_None (kwarg kw "existing_nullable" PNone) then EmptyString
         else kwfield "existing_nullable" (py_repr (kwarg kw "existing_nullable" PNone)))
    +:+ (if truthy (kwarg kw "existing_server_default" (PBool false))
         then kwfield "existing_server_default"
                (fmt_s (_render_server_default
                          (kwarg kw "existing_server_default" (PBool false)) ctx))
         else EmptyString)
    +:+ ")".
Proof.
  unfold _invoke_command. rewrite invoke_modify_command_fields.
  destruct (alter_column_fields ud (d :: args) ctx w) as [[e|fields] w1] eqn:Hrun;
    [discriminate|].
  intros Htext. injection Htext as <- _.
  unfold alter_column_fields in Hrun. apply modify_col_fields_values in Hrun. subst fields.
  rewrite alter_column_text_fields.
  do 4 f_equal. unfold modify_col_field_list.
  change ([?x] ++ ?l) with (x :: l).
  rewrite fields_text_cons, !fields_text_unless.
  rewrite <- (app_nil_r (if truthy _ then _ else _)), fields_text_if.
  rewrite !append_assoc. reflexivity.
Qed.

(** The loop of [_invoke_modify_command] only adds keys. *)
Lemma merge_diff_keeps ud kw d k :
  is_Some (kw !! k) -> is_Some (merge_diff ud kw d !! k).
Proof.
  intros Hk. unfold merge_diff.
  assert (Hsd : forall kw' a v, is_Some (kw' !! k) -> is_Some (setdefault kw' a v !! k)).
  { intros kw' a v H. unfold setdefault. destruct (kw' !! a); [exact H|].
    rewrite lookup_insert. case_decide; [eauto|exact H]. }
  set (kw3 := foldl _ kw _).
  assert (H3 : is_Some (kw3 !! k)).
  { subst kw3. simpl. repeat (destruct (md_kw d !! _); [apply Hsd|]); assumption. }
  destruct (_arg_struct (md_tag d)) as [old_kw new_kw].
  destruct ud; rewrite !lookup_insert; repeat case_decide; eauto.
Qed.

Lemma merge_diff_sets_new ud kw d :
  is_Some (merge_diff ud kw d !! (_arg_struct (md_tag d)).2).
Proof.
  unfold merge_diff. set (kw3 := foldl _ kw _).
  destruct (_arg_struct (md_tag d)) as [old_kw new_kw]. simpl.
  destruct ud; rewrite !lookup_insert; repeat case_decide; eauto; congruence.
Qed.

Lemma foldl_merge_keeps ud args : forall kw k,
  is_Some (kw !! k) -> is_Some (foldl (merge_diff ud) kw args !! k).
Proof.
  induction args as [|d args IH]; intros kw k Hk; simpl; [exact Hk|].
  apply IH. apply merge_diff_keeps. exact Hk.
Qed.

Lemma foldl_merge_has_new ud args tag : forall kw,
  (exists d, d ∈ args /\ md_tag d = tag) ->
  is_Some (foldl (merge_diff ud) kw args !! (_arg_struct tag).2).
Proof.
  induction args as [|d args IH]; intros kw (d' & Hin & Htag).
  - inversion Hin.
  - simpl. apply elem_of_cons in Hin as [->|Hin].
    + apply foldl_merge_keeps. rewrite <- Htag. apply merge_diff_sets_new.
    + apply IH. eauto.
Qed.

Lemma modify_kw_drops_existing_nullable ud args :
  (exists d, d ∈ args /\ md_tag d = modify_nullable) ->
  is_Some (modify_kw ud args !! "nullable")
  /\ modify_kw ud args !! "existing_nullable" = None.
Proof.
  intros H. apply (foldl_merge_has_new ud args modify_nullable ∅) in H. simpl in H.
  unfold modify_kw.
  destruct (decide (is_Some (foldl (merge_diff ud) ∅ args !! "nullable"))); [|contradiction].
  split.
  - case_decide; repeat (rewrite lookup_delete_ne by discriminate); exact H.
  - case_decide; [rewrite lookup_delete_ne by discriminate|]; apply lookup_delete_eq.
Qed.

Lemma modify_kw_drops_existing_server_default ud args :
  (exists d, d ∈ args /\ md_tag d = modify_default) ->
  is_Some (modify_kw ud args !! "server_default")
  /\ modify_kw ud args !! "existing_server_default" = None.
Proof.
  intros H. apply (foldl_merge_has_new ud args modify_default ∅) in H. simpl in H.
  unfold modify_kw.
  set (kw1 := if decide (is_Some (foldl (merge_diff ud) ∅ args !! "nullable")) then _ else _).
  assert (H1 : is_Some (kw1 !! "server_default")).
  { subst kw1. case_decide; [rewrite lookup_delete_ne by discriminate|]; exact H. }
  destruct (decide (is_Some (kw1 !! "server_default"))); [|contradiction].
  split; [rewrite lookup_delete_ne by discriminate; exact H1|apply lookup_delete_eq].
Qed.

(** What the group of a column can be. *)
Lemma column_group_shape tname cname conn_col metadata_col diffs ctx w out w' :
  compare_column_attrs tname cname conn_col metadata_col diffs ctx w = (inr out, w') ->
  exists g1 g2 g3,
    out = match g1 ++ g2 ++ g3 with [] => diffs | g => diffs ++ [ColumnGroup g] end
    /\ (g1 = []
        \/ (g1 = [type_diff tname cname conn_col metadata_col]
            /\ _type_affinity (rec_type conn_col) <> NullType
            /\ _type_affinity (col_type metadata_col) <> NullType))
    /\ (g2 = [] /\ rec_nullable conn_col = col_nullable metadata_col
        \/ (g2 = [nullable_diff tname cname conn_col (col_nullable metadata_col)]
            /\ rec_nullable conn_col <> col_nullable metadata_col))
    /\ (g3 = [] \/ g3 = [default_diff tname cname conn_col metadata_col]).
Proof.
  intros Hrun.
  destruct (compare_column_attrs_run tname cname conn_col metadata_col diffs ctx w)
    as (g1 & g2 & g3 & e1 & e2 & e3 & w1 & w2 & H1 & -> & H2 & -> & H3 & Hall).
  rewrite Hall in Hrun. injection Hrun as <- _.
  exists g1, g2, g3. split; [reflexivity|].
  destruct (compare_type_run tname cname conn_col metadata_col [] ctx w)
    as (o1 & v1 & R1 & C1).
  pose proof (eq_trans (eq_sym R1) H1) as E1. injection E1 as -> _.
  destruct (compare_nullable_run tname cname conn_col (col_nullable metadata_col) g1 ctx
              {| w_imports := w_imports w; w_trace := w_trace w ++ e1 |})
    as (o2 & v2 & R2 & C2).
  pose proof (eq_trans (eq_sym R2) H2) as E2. injection E2 as -> _.
  destruct (compare_server_default_run tname cname conn_col metadata_col (g1 ++ g2) ctx
              {| w_imports := w_imports w; w_trace := w_trace w ++ e1 ++ e2 |})
    as (o3 & v3 & R3 & C3).
  pose proof (eq_trans (eq_sym R3) H3) as E3. injection E3 as -> _.
  split; [|split].
  - destruct C1 as [(_ & -> & _)|[(_ & _ & -> & _)|[(_ & _ & _ & -> & _)|
      (Ha & Hb & _ & (d & -> & Hd) & _)]]]; auto.
    right. destruct d. simpl in Hd. destruct Hd as (-> & -> & -> & -> & -> & ->). auto.
  - destruct C2 as [(Heq & Ho & _)|(Hne & (d & Ho & Hd) & _)].
    + left. split; [|exact Heq]. apply (f_equal (@List.length _)) in Ho.
      rewrite length_app in Ho. destruct g2; [reflexivity|simpl in Ho; lia].
    + right. split; [|exact Hne]. apply app_inv_head in Ho. subst g2.
      destruct d. simpl in Hd. destruct Hd as (-> & -> & -> & -> & -> & ->). reflexivity.
  - destruct C3 as [(_ & _ & Ho & _)|[(_ & _ & Ho & _)|(_ & _ & (d & Ho & Hd) & _)]].
    + left. apply (f_equal (@List.length _)) in Ho. rewrite !length_app in Ho.
      destruct g3; [reflexivity|simpl in Ho; lia].
    + left. apply (f_equal (@List.length _)) in Ho. rewrite !length_app in Ho.
      destruct g3; [reflexivity|simpl in Ho; lia].
    + right. rewrite app_assoc in Ho. apply app_inv_head in Ho. subst g3.
      destruct d. simpl in Hd. destruct Hd as (-> & -> & -> & -> & -> & ->). reflexivity.
Qed.

(** A group is recovered from the tags of its diffs. *)
Lemma column_group_of_tags tname cname conn_col metadata_col ctx w w' g :
  compare_column_attrs tname cname conn_col metadata_col [] ctx w
  = (inr [ColumnGroup g], w') ->
  (md_tag <$> g = [modify_nullable] ->
   g = [nullable_diff tname cname conn_col (col_nullable metadata_col)]
   /\ rec_nullable conn_col <> col_nullable metadata_col)
  /\ (md_tag <$> g = [modify_type; modify_nullable] ->
      g = [type_diff tname cname conn_col metadata_col;
           nullable_diff tname cname conn_col (col_nullable metadata_col)]
      /\ rec_nullable conn_col <> col_nullable metadata_col
      /\ _type_affinity (rec_type conn_col) <> NullType
      /\ _type_affinity (col_type metadata_col) <> NullType).
Proof.
  intros Hrun. apply column_group_shape in Hrun as (g1 & g2 & g3 & Hout & S1 & S2 & S3).
  assert (Hg : g = g1 ++ g2 ++ g3).
  { destruct (g1 ++ g2 ++ g3) eqn:E; [discriminate|]. simpl in Hout. congruence. }
  subst g.
  destruct S1 as [->|(-> & Ha & Hb)], S2 as [(-> & Hn)|(-> & Hn)], S3 as [->| ->];
    split; intros Ht; try discriminate Ht; auto.
Qed.

Lemma module_ok_builtin : module_ok "__builtin__".
Proof. intros H. discriminate H. Qed.

(** The keyword arguments of a group that changes the nullable flag only. *)
Lemma nullable_only_kwargs ud tname cname conn_col metadata_col :
  let kw := modify_kw ud [nullable_diff tname cname conn_col (col_nullable metadata_col)] in
  kwarg kw "server_default" (PBool false) = PBool false
  /\ kwarg kw "type_" PNone = PNone
  /\ kwarg kw "nullable" PNone = nullable_set ud conn_col metadata_col
  /\ kwarg kw "existing_type" PNone = PType (rec_type conn_col)
  /\ kwarg kw "existing_nullable" PNone = PNone
  /\ kwarg kw "existing_server_default" (PBool false) = of_default (rec_default conn_col).
Proof. destruct ud; vm_compute; repeat split. Qed.

(** The keyword arguments of a group that changes type and nullable flag. *)
Lemma type_nullable_kwargs ud tname cname conn_col metadata_col :
  let kw := modify_kw ud [type_diff tname cname conn_col metadata_col;
                          nullable_diff tname cname conn_col (col_nullable metadata_col)] in
  kwarg kw "server_default" (PBool false) = PBool false
  /\ kwarg kw "type_" PNone
     = PType (match ud with upgrade => col_type metadata_col | downgrade => rec_type conn_col end)
  /\ kwarg kw "nullable" PNone = nullable_set ud conn_col metadata_col
  /\ kwarg kw "existing_type" PNone = PType (type_replaced ud conn_col metadata_col)
  /\ kwarg kw "existing_nullable" PNone = PNone
  /\ kwarg kw "existing_server_default" (PBool false) = of_default (rec_default conn_col).
Proof. destruct ud; vm_compute; repeat split. Qed.

(** C8: every rendered [alter_column] call starts its keyword fields with
    [existing_type]: its text is the opening of the call with the two
    names, then the field [existing_type] with the rendering of the
    keyword argument of that name, then the other fields and the closing
    parenthesis.  For a column whose nullable flag alone changed, the
    upgrade call and the downgrade call both carry the rendering of the
    observed type there, and set [nullable] to the flag of their
    direction; the text of the call is written out. *)
Theorem alter_column_carries_existing_type (tname cname : string) (conn_col : ColRec)
    (metadata_col : Column) (ctx : autogen_context) (w0 : world)
    (g : list modify_diff)
    (Hgroup : (compare_column_attrs tname cname conn_col metadata_col [] ctx w0).1
              = inr [ColumnGroup g])
    (Htags : md_tag <$> g = [modify_nullable])
    (Hmod : module_ok (ty_module (rec_type conn_col))) :
  (forall ud args ctx' w fields w',
      alter_column_fields ud args ctx' w = (inr fields, w') ->
      exists v, fields !! 0%nat = Some ("existing_type", v))
  /\ (forall ud d args ctx' w text w',
        _invoke_command ud (ColumnGroup (d :: args)) ctx' w = (inr text, w') ->
        let kw := modify_kw ud (d :: args) in
        let sqla_prefix := _sqlalchemy_autogenerate_prefix ctx' in
        text
        = _alembic_autogenerate_prefix ctx' +:+ "alter_column("
          +:+ Py.repr_str (md_tname d) +:+ ", " +:+ Py.repr_str (md_cname d)
          +:+ kwfield "existing_type"
                (repr_type_text sqla_prefix (kwarg kw "existing_type" PNone))
          +:+ (if is_False (kwarg kw "server_default" (PBool false)) then EmptyString
               else kwfield "server_default"
                      (fmt_s (_render_server_default
                                (kwarg kw "server_default" (PBool false)) ctx')))
          +:+ (if is_None (kwarg kw "type_" PNone) then EmptyString
               else kwfield "type_" (repr_type_text sqla_prefix (kwarg kw "type_" PNone)))
          +:+ (if is_None (kwarg kw "nullable" PNone) then EmptyString
               else kwfield "nullable" (py_repr (kwarg kw "nullable" PNone)))
          +:+ (if is_None (kwarg kw "existing_nullable" PNone) then EmptyString
               else kwfield "existing_nullable"
                      (py_repr (kwarg kw "existing_nullable" PNone)))
          +:+ (if truthy (kwarg kw "existing_server_default" (PBool false))
               then kwfield "existing_server_default"
                      (fmt_s (_render_server_default
                                (kwarg kw "existing_server_default" (PBool false)) ctx'))
               else EmptyString)
          +:+ ")")
  /\ (forall ud w, exists fields w',
        alter_column_fields ud g ctx w = (inr fields, w')
        /\ _invoke_command ud (ColumnGroup g) ctx w
           = (inr (alter_column_text tname cname ctx fields), w')
        /\ fields !! 0%nat
           = Some ("existing_type",
                   repr_type_text (_sqlalchemy_autogenerate_prefix ctx)
                     (PType (rec_type conn_col)))
        /\ kwarg (modify_kw ud g) "existing_type" PNone = PType (rec_type conn_col)
        /\ kwarg (modify_kw ud g) "nullable" PNone = nullable_set ud conn_col metadata_col
        /\ alter_column_text tname cname ctx fields
           = _alembic_autogenerate_prefix ctx +:+ "alter_column("
             +:+ Py.repr_str tname +:+ ", " +:+ Py.repr_str cname
             +:+ kwfield "existing_type"
                   (repr_type_text (_sqlalchemy_autogenerate_prefix ctx)
                      (PType (rec_type conn_col)))
             +:+ (if is_None (nullable_set ud conn_col metadata_col) then EmptyString
                  else kwfield "nullable" (py_repr (nullable_set ud conn_col metadata_col)))
             +:+ (if truthy (of_default (rec_default conn_col))
                  then kwfield "existing_server_default"
                         (fmt_s (_render_server_default (of_default (rec_default conn_col))
                                   ctx))
                  else EmptyString)
             +:+ ")").
Proof.
  split; [|split].
  - intros ud args ctx' w fields w' Hrun.
    apply modify_col_fields_sound in Hrun as [_ H0]. eauto.
  - intros ud d args ctx' w text w' Hrun.
    exact (invoke_modify_command_text ud d args ctx' w text w' Hrun).
  - intros ud w.
    destruct (column_group_of_tags _ _ _ _ _ _ _ _ (run_fst _ _ _ Hgroup)) as [Hg _].
    destruct (Hg Htags) as [-> Hne].
    destruct (nullable_only_kwargs ud tname cname conn_col metadata_col)
      as (K1 & K2 & K3 & K4 & K5 & K6).
    assert (Hrun : exists fields w',
               alter_column_fields ud
                 [nullable_diff tname cname conn_col (col_nullable metadata_col)] ctx w
               = (inr fields, w')).
    { unfold alter_column_fields. rewrite K2, K4.
      apply modify_col_fields_run; [exact Hmod|exact module_ok_builtin]. }
    destruct Hrun as (fields & w' & Hrun). exists fields, w'.
    split; [exact Hrun|].
    assert (Hinv : _invoke_command ud
                     (ColumnGroup [nullable_diff tname cname conn_col
                                     (col_nullable metadata_col)]) ctx w
                   = (inr (alter_column_text tname cname ctx fields), w')).
    { unfold _invoke_command. rewrite invoke_modify_command_fields, Hrun. reflexivity. }
    split; [exact Hinv|].
    apply invoke_modify_command_text in Hinv. rewrite K1, K2, K3, K4, K5, K6 in Hinv.
    unfold alter_column_fields in Hrun. apply modify_col_fields_sound in Hrun as [_ H0].
    rewrite K4 in H0. auto.
Qed.

Lemma alter_column_carries_existing_type_witness :
  ((compare_column_attrs "users" "email" Sample.email_rec Sample.email_col_not_null []
      Sample.ctx Sample.w0).1
   = inr [ColumnGroup Sample.email_nullable_group]
   /\ md_tag <$> Sample.email_nullable_group = [modify_nullable]
   /\ module_ok (ty_module (rec_type Sample.email_rec)))
  /\ forall ud w, exists fields w',
       alter_column_fields ud Sample.email_nullable_group Sample.ctx w = (inr fields, w')
       /\ fields !! 0%nat = Some ("existing_type", "sa.INTEGER()")
       /\ _invoke_command ud (ColumnGroup Sample.email_nullable_group) Sample.ctx w
          = (inr ("op.alter_column('users', 'email', " +:+ Py.nl
                  +:+ "           existing_type=sa.INTEGER(), " +:+ Py.nl
                  +:+ "           nullable="
                  +:+ match ud with upgrade => "False" | downgrade => "True" end
                  +:+ ", " +:+ Py.nl
                  +:+ "           existing_server_default='x')"), w').
Proof.
  assert (H1 : (compare_column_attrs "users" "email" Sample.email_rec
                  Sample.email_col_not_null [] Sample.ctx Sample.w0).1
               = inr [ColumnGroup Sample.email_nullable_group]).
  { vm_compute. reflexivity. }
  assert (H2 : md_tag <$> Sample.email_nullable_group = [modify_nullable]).
  { reflexivity. }
  assert (H3 : module_ok (ty_module (rec_type Sample.email_rec))).
  { intros H. discriminate H. }
  split; [auto|].
  intros ud w.
  destruct (alter_column_carries_existing_type "users" "email" Sample.email_rec
              Sample.email_col_not_null Sample.ctx Sample.w0 _ H1 H2 H3) as (_ & _ & Hs).
  destruct (Hs ud w) as (fields & w' & Hf & Hinv & H0 & _ & _ & Htext).
  exists fields, w'. split; [exact Hf|]. split; [exact H0|].
  rewrite Hinv, Htext. destruct ud; vm_compute; reflexivity.
Defined.

Ltac mem_dec :=
  match goal with
  | |- _ ∈ _ => apply (bool_decide_unpack _); vm_compute; exact I
  | |- _ ∉ _ => apply (bool_decide_unpack _); vm_compute; exact I
  | H : _ ∈ _ |- _ => apply (bool_decide_pack _) in H; vm_compute in H; destruct H
  end.

Lemma field_names_cases (a b : bool) (fields : list (string * string)) :
  fields.*1 = ["existing_type"; "type_"]
              ++ ((if a then [] else ["nullable"])
                  ++ (if b then ["existing_server_default"] else [])) ->
  "existing_type" ∈ fields.*1 /\ "type_" ∈ fields.*1
  /\ ("existing_nullable" ∉ fields.*1) /\ ("server_default" ∉ fields.*1)
  /\ (a = false -> "nullable" ∈ fields.*1)
  /\ ("existing_server_default" ∈ fields.*1 <-> b = true).
Proof.
  intros ->. destruct a, b; simpl; repeat split; intros;
    try discriminate; try reflexivity; try mem_dec.
Qed.

(** C1, as the code has it: in the group of a column whose type and
    nullable flag changed and whose default did not, the one rendered
    [alter_column] call has the fields [existing_type] and [type_], has
    [nullable] when the flag its direction sets is a boolean, has neither
    [existing_nullable] nor [server_default], and has
    [existing_server_default] exactly when the observed column has a
    default that is not the empty text; its [existing_type] is a type whose
    affinity is known; the text of the call is written out, field by
    field.  For every group, a [modify_nullable] diff removes
    [existing_nullable] from the call and a [modify_default] diff removes
    [existing_server_default], from the fields and so from the text,
    which is the one of these fields. *)
Theorem composite_merge_fields (tname cname : string) (conn_col : ColRec)
    (metadata_col : Column) (ctx : autogen_context) (w0 : world)
    (g : list modify_diff)
    (Hgroup : (compare_column_attrs tname cname conn_col metadata_col [] ctx w0).1
              = inr [ColumnGroup g])
    (Htags : md_tag <$> g = [modify_type; modify_nullable])
    (Hmod1 : module_ok (ty_module (rec_type conn_col)))
    (Hmod2 : module_ok (ty_module (col_type metadata_col))) :
  (forall ud w, exists fields w',
      alter_column_fields ud g ctx w = (inr fields, w')
      /\ _invoke_command ud (ColumnGroup g) ctx w
         = (inr (alter_column_text tname cname ctx fields), w')
      /\ fields.*1
         = ["existing_type"; "type_"]
           ++ ((if is_None (nullable_set ud conn_col metadata_col) then [] else ["nullable"])
               ++ (if truthy (of_default (rec_default conn_col))
                   then ["existing_server_default"] else []))
      /\ ("existing_type" ∈ fields.*1 /\ "type_" ∈ fields.*1
          /\ ("existing_nullable" ∉ fields.*1) /\ ("server_default" ∉ fields.*1)
          /\ (is_None (nullable_set ud conn_col metadata_col) = false ->
              "nullable" ∈ fields.*1)
          /\ ("existing_server_default" ∈ fields.*1
              <-> truthy (of_default (rec_default conn_col)) = true))
      /\ kwarg (modify_kw ud g) "existing_type" PNone
         = PType (type_replaced ud conn_col metadata_col)
      /\ _type_affinity (type_replaced ud conn_col metadata_col) <> NullType
      /\ fields !! 0%nat
         = Some ("existing_type",
                 repr_type_text (_sqlalchemy_autogenerate_prefix ctx)
                   (PType (type_replaced ud conn_col metadata_col)))
      /\ alter_column_text tname cname ctx fields
         = _alembic_autogenerate_prefix ctx +:+ "alter_column("
           +:+ Py.repr_str tname +:+ ", " +:+ Py.repr_str cname
           +:+ kwfield "existing_type"
                 (repr_type_text (_sqlalchemy_autogenerate_prefix ctx)
                    (PType (type_replaced ud conn_col metadata_col)))
           +:+ kwfield "type_"
                 (repr_type_text (_sqlalchemy_autogenerate_prefix ctx)
                    (PType (type_set ud conn_col metadata_col)))
           +:+ (if is_None (nullable_set ud conn_col metadata_col) then EmptyString
                else kwfield "nullable" (py_repr (nullable_set ud conn_col metadata_col)))
           +:+ (if truthy (of_default (rec_default conn_col))
                then kwfield "existing_server_default"
                       (fmt_s (_render_server_default (of_default (rec_default conn_col))
                                 ctx))
                else EmptyString)
           +:+ ")")
  /\ (forall ud args ctx' w fields w',
        (exists d, d ∈ args /\ md_tag d = modify_nullable) ->
        alter_column_fields ud args ctx' w = (inr fields, w') ->
        "existing_nullable" ∉ fields.*1)
  /\ (forall ud args ctx' w fields w',
        (exists d, d ∈ args /\ md_tag d = modify_default) ->
        alter_column_fields ud args ctx' w = (inr fields, w') ->
        "existing_server_default" ∉ fields.*1)
  /\ (forall ud d args ctx' w text w',
        (exists d', d' ∈ d :: args /\ md_tag d' = modify_nullable) ->
        _invoke_command ud (ColumnGroup (d :: args)) ctx' w = (inr text, w') ->
        let kw := modify_kw ud (d :: args) in
        let sqla_prefix := _sqlalchemy_autogenerate_prefix ctx' in
        text
        = _alembic_autogenerate_prefix ctx' +:+ "alter_column("
          +:+ Py.repr_str (md_tname d) +:+ ", " +:+ Py.repr_str (md_cname d)
          +:+ kwfield "existing_type"
                (repr_type_text sqla_prefix (kwarg kw "existing_type" PNone))
          +:+ (if is_False (kwarg kw "server_default" (PBool false)) then EmptyString
               else kwfield "server_default"
                      (fmt_s (_render_server_default
                                (kwarg kw "server_default" (PBool false)) ctx')))
          +:+ (if is_None (kwarg kw "type_" PNone) then EmptyString
               else kwfield "type_" (repr_type_text sqla_prefix (kwarg kw "type_" PNone)))
          +:+ (if is_None (kwarg kw "nullable" PNone) then EmptyString
               else kwfield "nullable" (py_repr (kwarg kw "nullable" PNone)))
          +:+ (if truthy (kwarg kw "existing_server_default" (PBool false))
               then kwfield "existing_server_default"
                      (fmt_s (_render_server_default
                                (kwarg kw "existing_server_default" (PBool false)) ctx'))
               else EmptyString)
          +:+ ")")
  /\ (forall ud d args ctx' w text w',
        (exists d', d' ∈ d :: args /\ md_tag d' = modify_default) ->
        _invoke_command ud (ColumnGroup (d :: args)) ctx' w = (inr text, w') ->
        let kw := modify_kw ud (d :: args) in
        let sqla_prefix := _sqlalchemy_autogenerate_prefix ctx' in
        text
        = _alembic_autogenerate_prefix ctx' +:+ "alter_column("
          +:+ Py.repr_str (md_tname d) +:+ ", " +:+ Py.repr_str (md_cname d)
          +:+ kwfield "existing_type"
                (repr_type_text sqla_prefix (kwarg kw "existing_type" PNone))
          +:+ (if is_False (kwarg kw "server_default" (PBool false)) then EmptyString
               else kwfield "server_default"
                      (fmt_s (_render_server_default
                                (kwarg kw "server_default" (PBool false)) ctx')))
          +:+ (if is_None (kwarg kw "type_" PNone) then EmptyString
               else kwfield "type_" (repr_type_text sqla_prefix (kwarg kw "type_" PNone)))
          +:+ (if is_None (kwarg kw "nullable" PNone) then EmptyString
               else kwfield "nullable" (py_repr (kwarg kw "nullable" PNone)))
          +:+ (if is_None (kwarg kw "existing_nullable" PNone) then EmptyString
               else kwfield "existing_nullable"
                      (py_repr (kwarg kw "existing_nullable" PNone)))
          +:+ ")").
Proof.
  split; [|split; [|split; [|split]]].
  - intros ud w.
    destruct (column_group_of_tags _ _ _ _ _ _ _ _ (run_fst _ _ _ Hgroup)) as [_ Hg].
    destruct (Hg Htags) as (-> & Hne & Ha & Hb).
    destruct (type_nullable_kwargs ud tname cname conn_col metadata_col)
      as (K1 & K2 & K3 & K4 & K5 & K6).
    assert (Hrun : exists fields w',
               alter_column_fields ud
                 [type_diff tname cname conn_col metadata_col;
                  nullable_diff tname cname conn_col (col_nullable metadata_col)] ctx w
               = (inr fields, w')).
    { unfold alter_column_fields. rewrite K2, K4.
      apply modify_col_fields_run; destruct ud; assumption. }
    destruct Hrun as (fields & w' & Hrun). exists fields, w'.
    split; [exact Hrun|].
    assert (Hinv : _invoke_command ud
                     (ColumnGroup [type_diff tname cname conn_col metadata_col;
                                   nullable_diff tname cname conn_col
                                     (col_nullable metadata_col)]) ctx w
                   = (inr (alter_column_text tname cname ctx fields), w')).
    { unfold _invoke_command. rewrite invoke_modify_command_fields, Hrun. reflexivity. }
    split; [exact Hinv|].
    apply invoke_modify_command_text in Hinv. rewrite K1, K2, K3, K4, K5, K6 in Hinv.
    unfold alter_column_fields in Hrun.
    apply modify_col_fields_sound in Hrun as [Hnames H0].
    rewrite K1, K2, K3, K5, K6 in Hnames. rewrite K4 in H0.
    unfold modify_col_field_names in Hnames. simpl in Hnames.
    split; [exact Hnames|]. split; [exact (field_names_cases _ _ _ Hnames)|].
    split; [exact K4|]. split; [destruct ud; assumption|]. split; [exact H0|exact Hinv].
  - intros ud args ctx' w fields w' Hd Hrun.
    apply modify_kw_drops_existing_nullable with (ud := ud) in Hd as [_ Hnone].
    unfold alter_column_fields in Hrun.
    apply modify_col_fields_sound in Hrun as [Hnames _]. rewrite Hnames.
    unfold kwarg at 4. rewrite Hnone. unfold modify_col_field_names. simpl.
    repeat match goal with |- context [if ?b then _ else _] => destruct b end;
      simpl; intros Hin; mem_dec.
  - intros ud args ctx' w fields w' Hd Hrun.
    apply modify_kw_drops_existing_server_default with (ud := ud) in Hd as [_ Hnone].
    unfold alter_column_fields in Hrun.
    apply modify_col_fields_sound in Hrun as [Hnames _]. rewrite Hnames.
    unfold kwarg at 5. rewrite Hnone. unfold modify_col_field_names. simpl.
    repeat match goal with |- context [if ?b then _ else _] => destruct b end;
      simpl; intros Hin; mem_dec.
  - intros ud d args ctx' w text w' Hd Hrun.
    apply modify_kw_drops_existing_nullable with (ud := ud) in Hd as [_ Hnone].
    apply invoke_modify_command_text in Hrun.
    unfold kwarg at 7 8 in Hrun. rewrite Hnone in Hrun. exact Hrun.
  - intros ud d args ctx' w text w' Hd Hrun.
    apply modify_kw_drops_existing_server_default with (ud := ud) in Hd as [_ Hnone].
    apply invoke_modify_command_text in Hrun.
    unfold kwarg at 9 10 in Hrun. rewrite Hnone in Hrun. exact Hrun.
Qed.

(** ** Dictionaries built from lists *)

Lemma dict_snoc {V} (l : list (string * V)) kv :
  dict (l ++ [kv]) = <[kv.1 := kv.2]> (dict l).
Proof. unfold dict. rewrite foldl_app. reflexivity. Qed.

Lemma dict_lookup_Some {V} (l : list (string * V)) k v :
  dict l !! k = Some v -> (k, v) ∈ l.
Proof.
  induction l as [|kv l IH] using rev_ind; intros H.
  - unfold dict in H. simpl in H. rewrite lookup_empty in H. discriminate.
  - rewrite dict_snoc, lookup_insert in H. apply elem_of_app.
    case_decide as Hk.
    + right. injection H as <-. subst k. destruct kv. simpl. left.
    + left. auto.
Qed.

Lemma dict_lookup_is_Some {V} (l : list (string * V)) k :
  is_Some (dict l !! k) <-> k ∈ l.*1.
Proof.
  induction l as [|kv l IH] using rev_ind.
  - unfold dict. simpl. rewrite lookup_empty. split; [intros [? ?]; discriminate|].
    intros H. inversion H.
  - rewrite dict_snoc, lookup_insert, fmap_app, elem_of_app. simpl.
    case_decide as Hk.
    + split; [intros _; right; subst k; left|eauto].
    + rewrite IH. split; [auto|]. intros [H|H]; [exact H|].
      apply list_elem_of_singleton in H. congruence.
Qed.

Lemma elem_of_dom_dict {V} (l : list (string * V)) k :
  k ∈ dom (dict l) <-> k ∈ l.*1.
Proof. rewrite elem_of_dom. apply dict_lookup_is_Some. Qed.

(** A dictionary whose values are computed from the keys. *)
Lemma dict_of_keys {V} (f : string -> V) (l : list string) k :
  k ∈ l -> dict ((fun x => (x, f x)) <$> l) !! k = Some (f k).
Proof.
  intros Hk.
  assert (Hs : is_Some (dict ((fun x => (x, f x)) <$> l) !! k)).
  { apply dict_lookup_is_Some. rewrite <- list_fmap_compose.
    apply list_elem_of_fmap. exists k. auto. }
  destruct Hs as [v Hv]. rewrite Hv. f_equal.
  apply dict_lookup_Some, list_elem_of_fmap in Hv as (x & [= -> ->] & _). reflexivity.
Qed.

(** [metadata.tables] is keyed by the names of its tables. *)
Lemma tables_lookup_name metadata k t :
  tables metadata !! k = Some t -> tbl_name t = k /\ t ∈ metadata_tables metadata.
Proof.
  intros H. apply dict_lookup_Some, list_elem_of_fmap in H as (x & [= -> ->] & Hin). auto.
Qed.

Lemma foldl_snoc_bind {A B} (f : A -> list B) (l : list A) : forall s,
  foldl (fun s x => s ++ f x) s l = s ++ (l ≫= f).
Proof.
  induction l as [|x l IH]; intros s; simpl.
  - by rewrite app_nil_r.
  - rewrite IH, app_assoc. reflexivity.
Qed.

(** ** The diff list of a run *)

Lemma compare_type_yields tname cname conn_col metadata_col diffs ctx :
  yields (_compare_type tname cname conn_col metadata_col diffs ctx)
         (diffs ++ type_changes tname cname conn_col metadata_col ctx).
Proof.
  intros w. unfold _compare_type, type_changes.
  destruct (is_NullType _); [rewrite app_nil_r; run_m; eauto|].
  destruct (is_NullType _); [rewrite app_nil_r; run_m; eauto|].
  run_m. destruct (compare_type _ _ _); [|rewrite app_nil_r]; simpl; eauto.
Qed.

Lemma compare_nullable_yields tname cname conn_col metadata_col_nullable diffs ctx :
  yields (_compare_nullable tname cname conn_col metadata_col_nullable diffs ctx)
         (diffs ++ nullable_changes tname cname conn_col metadata_col_nullable).
Proof.
  intros w. unfold _compare_nullable, nullable_changes.
  destruct (decide _); [|rewrite app_nil_r]; run_m; eauto.
Qed.

Lemma compare_server_default_yields tname cname conn_col metadata_col diffs ctx :
  yields (_compare_server_default tname cname conn_col metadata_col diffs ctx)
         (diffs ++ default_changes tname cname conn_col metadata_col ctx).
Proof.
  intros w. unfold _compare_server_default, default_changes.
  destruct (_ && _); [rewrite app_nil_r; run_m; eauto|].
  run_m. destruct (compare_server_default _ _ _ _); [|rewrite app_nil_r]; simpl; eauto.
Qed.

Lemma compare_column_attrs_yields tname cname conn_col metadata_col diffs ctx :
  yields (compare_column_attrs tname cname conn_col metadata_col diffs ctx)
         (diffs ++ column_entry tname cname conn_col metadata_col ctx).
Proof.
  unfold compare_column_attrs, column_entry.
  eapply yields_bind; [apply compare_type_yields|].
  eapply yields_bind; [apply compare_nullable_yields|].
  eapply yields_bind; [apply compare_server_default_yields|].
  simpl. rewrite <- app_assoc.
  destruct (_ ++ _ ++ _); [rewrite app_nil_r|]; apply yields_ret.
Qed.

Lemma elem_of_iter (order : SetOrder) (s : gset string) x : x ∈ iter order s <-> x ∈ s.
Proof. rewrite (iter_perm order s). apply elem_of_elements. Qed.

Lemma NoDup_iter (order : SetOrder) (s : gset string) : NoDup (iter order s).
Proof. rewrite (iter_perm order s). apply NoDup_elements. Qed.

Lemma elem_of_sorted (l : list string) x : x ∈ Py.sorted l <-> x ∈ l.
Proof. unfold Py.sorted. by rewrite merge_sort_Permutation. Qed.

Lemma compare_columns_yields order tname conn_table metadata_table diffs ctx :
  shared_names_resolve conn_table metadata_table ->
  yields (_compare_columns order tname conn_table metadata_table diffs ctx)
         (diffs ++ column_changes order tname conn_table metadata_table ctx).
Proof.
  intros Hkeys. unfold _compare_columns, column_changes.
  set (cols := cols_by_name metadata_table).
  eapply yields_bind.
  { apply yields_for_each with
      (step := fun s cname => s ++ match cols !! cname with
                                   | Some c => [add_column tname c]
                                   | None => []
                                   end).
    intros cname s' Hin. apply elem_of_iter, elem_of_difference in Hin as [Hin _].
    apply elem_of_dom in Hin as [c Hc]. rewrite Hc.
    eapply yields_bind; [apply yields_getitem; exact Hc|].
    eapply yields_bind; [apply yields_log_info|apply yields_ret]. }
  eapply yields_bind.
  { apply yields_for_each with
      (step := fun s cname =>
                 s ++ match conn_table !! cname with
                      | Some r => [remove_column tname
                                     (schema_Column cname (rec_type r) (rec_nullable r)
                                        (rec_default r))]
                      | None => []
                      end).
    intros cname s' Hin. apply elem_of_iter, elem_of_difference in Hin as [Hin _].
    apply elem_of_dom in Hin as [r Hr]. rewrite Hr.
    eapply yields_bind; [apply yields_getitem; exact Hr|].
    eapply yields_bind; [apply yields_log_info|apply yields_ret]. }
  eapply yields_eq;
    [apply yields_for_each with
       (step := fun s cname =>
                  s ++ match cols_by_key metadata_table !! cname, conn_table !! cname with
                       | Some c, Some r => column_entry tname cname r c ctx
                       | _, _ => []
                       end)
    |rewrite !foldl_snoc_bind, <- !app_assoc; reflexivity].
  intros cname s' Hin.
  apply (proj1 (elem_of_iter _ _ _)), elem_of_intersection in Hin as [Hc Hr].
  destruct (Hkeys cname Hc Hr) as [c Hk]. clear Hc.
  apply elem_of_dom in Hr as [r Hr]. rewrite Hk, Hr.
  eapply yields_bind; [apply yields_getitem; exact Hk|].
  eapply yields_bind; [apply yields_getitem; exact Hr|].
  apply compare_column_attrs_yields.
Qed.

(** The loop over the observed tables that are not declared: every name
    is met once, so each table is reflected. *)
Lemma removal_loop_diffs (inspector : Inspector) (l : list string) :
  forall (rm : gmap string Table) (ds : list diff),
    NoDup l -> (forall x, x ∈ l -> rm !! x = None) ->
    (foldl (fun (acc : gmap string Table * list diff) tname =>
              let t := match acc.1 !! tname with
                       | Some t => t
                       | None => reflected inspector tname
                       end in
              (<[tname := t]> acc.1, acc.2 ++ [remove_table t]))
           (rm, ds) l).2
    = ds ++ ((fun tname => remove_table (reflected inspector tname)) <$> l).
Proof.
  induction l as [|x l IH]; intros rm ds Hnd Hfresh; simpl.
  - by rewrite app_nil_r.
  - apply NoDup_cons in Hnd as [Hx Hnd].
    rewrite (Hfresh x) by left. rewrite IH; [by rewrite <- app_assoc|exact Hnd|].
    intros y Hy. rewrite lookup_insert_ne; [apply Hfresh; by right|].
    intros ->. contradiction.
Qed.

Lemma produce_net_changes_yields order connection metadata diffs ctx :
  keys_resolve (from_engine connection) metadata ->
  yields (_produce_net_changes order connection metadata diffs ctx)
         (diffs ++ net_changes order connection metadata ctx).
Proof.
  intros Hkeys. unfold _produce_net_changes, _compare_tables, net_changes, table_changes,
    existing_sorted.
  set (inspector := from_engine connection).
  fold (conn_names inspector).
  set (CT := conn_names inspector). set (MT := dom (tables metadata)).
  eapply yields_bind.
  { apply yields_for_each with
      (step := fun s tname => s ++ match tables metadata !! tname with
                                   | Some t => [add_table t]
                                   | None => []
                                   end).
    intros tname s' Hin. apply elem_of_iter, elem_of_difference in Hin as [Hin _].
    apply elem_of_dom in Hin as [t Ht]. rewrite Ht.
    eapply yields_bind; [apply yields_getitem; exact Ht|].
    eapply yields_bind; [apply yields_log_info|apply yields_ret]. }
  eapply yields_bind.
  { apply yields_for_each with
      (step := fun (acc : gmap string Table * list diff) tname =>
                 let t := match acc.1 !! tname with
                          | Some t => t
                          | None => reflected inspector tname
                          end in
                 (<[tname := t]> acc.1, acc.2 ++ [remove_table t])).
    intros tname [rm ds] _.
    eapply yields_bind; [apply yields_log_info|apply yields_ret]. }
  rewrite removal_loop_diffs; [|apply NoDup_iter|intros; apply lookup_empty].
  eapply yields_eq;
    [apply yields_for_each with
       (step := fun s tname => s ++ existing_table_changes order inspector metadata ctx tname)
    |rewrite !foldl_snoc_bind, <- !app_assoc; reflexivity].
  intros tname s' Hin. apply (proj1 (elem_of_sorted _ _)) in Hin.
  pose proof Hin as Hex.
  apply (proj1 (elem_of_iter _ _ _)), elem_of_intersection in Hex as [Hcn Hm].
  apply elem_of_dom in Hm as [t Ht].
  eapply yields_bind.
  { apply yields_getitem.
    apply (dict_of_keys
             (fun tname => dict ((fun rec => (rec_name rec, rec))
                                 <$> get_columns inspector tname))).
    exact Hin. }
  eapply yields_bind; [apply yields_getitem; exact Ht|].
  unfold existing_table_changes. rewrite Ht. apply compare_columns_yields.
  exact (Hkeys tname t Hcn Ht).
Qed.

(** *** When the comparison raises *)

Lemma fails_bind_l {A B} (c : M A) (k : A -> M B) : fails c -> fails (bind c k).
Proof.
  intros Hc w. destruct (Hc w) as (e & w' & H). exists e, w'.
  exact (bind_run_err _ _ _ _ _ H).
Qed.

Lemma fails_bind_r {A B} (c : M A) (k : A -> M B) :
  (forall a, fails (k a)) -> fails (bind c k).
Proof.
  intros Hk w. unfold bind. destruct (c w) as [[e|a] w1]; [eauto|apply Hk].
Qed.

Lemma fails_bind_yields {A B} (c : M A) (k : A -> M B) a :
  yields c a -> fails (k a) -> fails (bind c k).
Proof.
  intros Hc Hk w. destruct (Hc w) as [w1 H1]. rewrite (bind_run _ _ _ _ _ H1). apply Hk.
Qed.

Lemma fails_getitem {V} (d : gmap string V) k : d !! k = None -> fails (getitem d k).
Proof. intros H w. unfold getitem. rewrite H. exists (KeyError k), w. reflexivity. Qed.

Lemma fails_for_each {A S} (l : list A) (body : A -> S -> M S) x :
  x ∈ l -> (forall s, fails (body x s)) -> forall s, fails (for_each l body s).
Proof.
  intros Hin Hx. induction l as [|y l IH]; intros s w; [inversion Hin|]. simpl.
  unfold bind. destruct (body y s w) as [[e|s1] w1] eqn:Hy; [eauto|].
  apply elem_of_cons in Hin as [->|Hin].
  - destruct (Hx s w) as (e & w2 & He). congruence.
  - apply (IH Hin).
Qed.

Lemma fails_not_returns {A} (c : M A) w a w' : fails c -> c w = (inr a, w') -> False.
Proof. intros Hf H. destruct (Hf w) as (e & w1 & He). congruence. Qed.

Lemma compare_columns_fails order tname conn_table metadata_table diffs ctx colname :
  colname ∈ dom (cols_by_name metadata_table) -> colname ∈ dom conn_table ->
  cols_by_key metadata_table !! colname = None ->
  fails (_compare_columns order tname conn_table metadata_table diffs ctx).
Proof.
  intros Hc Hr Hk. unfold _compare_columns.
  apply fails_bind_r. intros d1. apply fails_bind_r. intros d2.
  apply fails_for_each with (x := colname).
  - apply elem_of_iter. by apply elem_of_intersection.
  - intros s. apply fails_bind_l, fails_getitem. exact Hk.
Qed.

Lemma produce_net_changes_fails order connection metadata diffs ctx tname t colname :
  tname ∈ conn_names (from_engine connection) -> tables metadata !! tname = Some t ->
  colname ∈ dom (cols_by_name t) ->
  colname ∈ dom (observed_columns (from_engine connection) tname) ->
  cols_by_key t !! colname = None ->
  fails (_produce_net_changes order connection metadata diffs ctx).
Proof.
  intros Hcn Ht Hc Hr Hk. unfold _produce_net_changes, _compare_tables.
  fold (conn_names (from_engine connection)).
  assert (Hin : tname ∈ iter order (conn_names (from_engine connection)
                                    ∩ dom (tables metadata))).
  { apply elem_of_iter, elem_of_intersection. split; [exact Hcn|].
    apply elem_of_dom. eauto. }
  apply fails_bind_r. intros d1. apply fails_bind_r. intros acc.
  apply fails_for_each with (x := tname); [by apply elem_of_sorted|].
  intros s. eapply fails_bind_yields.
  { apply yields_getitem.
    apply (dict_of_keys
             (fun tname => dict ((fun rec => (rec_name rec, rec))
                                 <$> get_columns (from_engine connection) tname))).
    exact Hin. }
  eapply fails_bind_yields; [apply yields_getitem; exact Ht|].
  eapply compare_columns_fails; eassumption.
Qed.

(** A run of the comparison returns exactly when the key lookups find
    their columns, and then it returns the diff list [net_changes]. *)
Lemma produce_net_changes_returns order connection metadata diffs ctx w ds w' :
  _produce_net_changes order connection metadata diffs ctx w = (inr ds, w') ->
  keys_resolve (from_engine connection) metadata
  /\ ds = diffs ++ net_changes order connection metadata ctx.
Proof.
  intros Hrun.
  assert (Hkeys : keys_resolve (from_engine connection) metadata).
  { intros tname t Hcn Ht colname Hc Hr.
    destruct (cols_by_key t !! colname) eqn:Hk; [eauto|]. exfalso.
    eapply fails_not_returns; [|exact Hrun].
    eapply produce_net_changes_fails; eassumption. }
  split; [exact Hkeys|].
  destruct (produce_net_changes_yields order connection metadata diffs ctx Hkeys w)
    as [w1 H1]. congruence.
Qed.

Lemma keys_resolve_returns order connection metadata diffs ctx w :
  keys_resolve (from_engine connection) metadata
  <-> exists ds w', _produce_net_changes order connection metadata diffs ctx w = (inr ds, w').
Proof.
  split.
  - intros Hkeys.
    destruct (produce_net_changes_yields order connection metadata diffs ctx Hkeys w)
      as [w1 H1]. eauto.
  - intros (ds & w' & Hrun). eapply produce_net_changes_returns. exact Hrun.
Qed.

(** Columns whose keys are their names, as [schema.Column] makes them
    by default, are found under their names. *)
Lemma keys_are_names_resolve inspector metadata :
  (forall t c, t ∈ metadata_tables metadata -> c ∈ tbl_c t -> col_key c = col_name c) ->
  keys_resolve inspector metadata.
Proof.
  intros Hkn tname t _ Ht colname Hc _.
  apply tables_lookup_name in Ht as [_ Ht].
  assert (Heq : cols_by_key t = cols_by_name t).
  { unfold cols_by_key, cols_by_name. f_equal. apply list_fmap_ext.
    intros i c Hi. rewrite (Hkn t c Ht); [reflexivity|].
    eapply list_elem_of_lookup_2. exact Hi. }
  rewrite Heq. by apply elem_of_dom.
Qed.

(** ** Which tables the diffs are about *)

Lemma column_entry_tables tname cname conn_col metadata_col ctx d x :
  d ∈ column_entry tname cname conn_col metadata_col ctx -> x ∈ diff_tables d -> x = tname.
Proof.
  unfold column_entry, type_changes, nullable_changes, default_changes.
  intros Hd Hx.
  destruct (_ ++ _ ++ _) as [|m g] eqn:Hg; [inversion Hd|].
  apply list_elem_of_singleton in Hd. subst d. rewrite <- Hg in Hx. clear Hg.
  simpl in Hx. apply list_elem_of_fmap in Hx as (md & -> & Hmd).
  repeat match type of Hmd with
         | context [if ?b then _ else _] => destruct b
         end;
    simpl in Hmd;
    repeat (apply elem_of_cons in Hmd as [->|Hmd]; [reflexivity|]); inversion Hmd.
Qed.

Lemma column_changes_tables order tname conn_table metadata_table ctx d x :
  d ∈ column_changes order tname conn_table metadata_table ctx ->
  x ∈ diff_tables d -> x = tname.
Proof.
  unfold column_changes. intros Hd Hx.
  apply elem_of_app in Hd as [Hd|Hd]; [|apply elem_of_app in Hd as [Hd|Hd]];
    apply list_elem_of_bind in Hd as (cname & Hd & _).
  - destruct (_ !! cname); [|inversion Hd].
    apply list_elem_of_singleton in Hd. subst d.
    apply list_elem_of_singleton in Hx. exact Hx.
  - destruct (_ !! cname); [|inversion Hd].
    apply list_elem_of_singleton in Hd. subst d.
    apply list_elem_of_singleton in Hx. exact Hx.
  - destruct (_ !! cname); [|inversion Hd]. destruct (_ !! cname); [|inversion Hd].
    eapply column_entry_tables; eassumption.
Qed.

Lemma alembic_version_not_observed inspector : "alembic_version" ∉ conn_names inspector.
Proof.
  unfold conn_names. intros H. apply elem_of_difference in H as [_ H].
  apply H, elem_of_list_to_set. left.
Qed.

(** Where a diff of a run comes from. *)
Lemma net_changes_origin order connection metadata ctx d :
  d ∈ net_changes order connection metadata ctx ->
  (exists tname t, tables metadata !! tname = Some t /\ d = add_table t
                   /\ tname ∉ conn_names (from_engine connection))
  \/ (exists tname, tname ∈ conn_names (from_engine connection)
                    /\ tables metadata !! tname = None
                    /\ d = remove_table (reflected (from_engine connection) tname))
  \/ (exists tname, tname ∈ conn_names (from_engine connection)
                    /\ is_Some (tables metadata !! tname)
                    /\ forall x, x ∈ diff_tables d -> x = tname).
Proof.
  unfold net_changes, table_changes, existing_sorted. intros Hd.
  apply elem_of_app in Hd as [Hd|Hd]; [apply elem_of_app in Hd as [Hd|Hd]|].
  - left. apply list_elem_of_bind in Hd as (tname & Hd & Hin).
    apply (proj1 (elem_of_iter _ _ _)), elem_of_difference in Hin as [_ Hn].
    destruct (tables metadata !! tname) as [t|] eqn:Ht; [|inversion Hd].
    apply list_elem_of_singleton in Hd. eauto.
  - right. left. apply list_elem_of_fmap in Hd as (tname & -> & Hin).
    apply (proj1 (elem_of_iter _ _ _)), elem_of_difference in Hin as [Hc Hn].
    exists tname. split; [exact Hc|]. split; [|reflexivity].
    by apply not_elem_of_dom.
  - right. right. apply list_elem_of_bind in Hd as (tname & Hd & Hin).
    apply (proj1 (elem_of_sorted _ _)), (proj1 (elem_of_iter _ _ _)),
      elem_of_intersection in Hin as [Hc Hm].
    exists tname. split; [exact Hc|]. split; [by apply elem_of_dom|].
    unfold existing_table_changes in Hd.
    destruct (tables metadata !! tname); [|inversion Hd].
    intros x Hx. eapply column_changes_tables; eassumption.
Qed.

(** C10, as the code has it: [alembic_version] is taken out of the
    observed names before the comparison, so a run has no [remove_table]
    diff and no column diff for it; the one diff that can be about this
    table is the [add_table] diff of a declared table of that name, and
    without such a declared table no diff is about it.  This holds of
    every diff list that the comparison returns, and the comparison
    returns one exactly when its lookups of declared columns by key find
    their columns. *)
Theorem alembic_version_excluded (order : SetOrder) (connection : Connection)
    (metadata : MetaData) (ctx : autogen_context) (w : world) :
  ("alembic_version" ∉ conn_names (from_engine connection))
  /\ (keys_resolve (from_engine connection) metadata
      <-> exists ds w', _produce_net_changes order connection metadata [] ctx w = (inr ds, w'))
  /\ forall ds w',
       _produce_net_changes order connection metadata [] ctx w = (inr ds, w') ->
       (forall d, d ∈ ds -> "alembic_version" ∈ diff_tables d ->
                  exists t, tables metadata !! "alembic_version" = Some t
                            /\ d = add_table t)
       /\ (forall t, remove_table t ∈ ds -> tbl_name t <> "alembic_version")
       /\ (forall tname c, (add_column tname c ∈ ds \/ remove_column tname c ∈ ds) ->
                           tname <> "alembic_version")
       /\ (forall g, ColumnGroup g ∈ ds -> "alembic_version" ∉ md_tname <$> g)
       /\ (tables metadata !! "alembic_version" = None ->
           forall d, d ∈ ds -> "alembic_version" ∉ diff_tables d).
Proof.
  split; [apply alembic_version_not_observed|].
  split; [apply keys_resolve_returns|].
  intros ds w' Hrun. apply produce_net_changes_returns in Hrun as [_ ->]. simpl.
  assert (Hmain : forall d, d ∈ net_changes order connection metadata ctx ->
                            "alembic_version" ∈ diff_tables d ->
                            exists t, tables metadata !! "alembic_version" = Some t
                                      /\ d = add_table t).
  { intros d Hd Hx.
    apply net_changes_origin in Hd
      as [(tname & t & Ht & -> & _)|[(tname & Hc & _ & ->)|(tname & Hc & _ & Hall)]].
    - simpl in Hx. apply list_elem_of_singleton in Hx.
      destruct (tables_lookup_name _ _ _ Ht) as [Hn _]. exists t. split; congruence.
    - simpl in Hx. apply list_elem_of_singleton in Hx. subst tname.
      exfalso. exact (alembic_version_not_observed _ Hc).
    - apply Hall in Hx. subst tname.
      exfalso. exact (alembic_version_not_observed _ Hc). }
  split; [exact Hmain|]. repeat split.
  - intros t Hin Hname. destruct (Hmain _ Hin) as (t' & _ & Heq); [|discriminate Heq].
    simpl. rewrite Hname. left.
  - intros tname c Hin ->.
    destruct Hin as [Hin|Hin]; destruct (Hmain _ Hin) as (t' & _ & Heq);
      try discriminate Heq; simpl; left.
  - intros g Hin Hx. destruct (Hmain _ Hin Hx) as (t' & _ & Heq). discriminate Heq.
  - intros Hnone d Hin Hx. destruct (Hmain _ Hin Hx) as (t' & Ht & _). congruence.
Qed.

(** C10 fails as it is stated: with a declared table named
    [alembic_version], a run over a database that has this table puts an
    [add_table] diff for it on the diff list. *)
Lemma alembic_version_declared_is_added :
  let declared := {| metadata_tables := [Sample.table_named "alembic_version"] |} in
  Sample.result_of
    (_produce_net_changes Sample.hash_order (Sample.connection_of ["alembic_version"])
       declared [] (Sample.ctx_of (Some declared) ["alembic_version"]))
  = Some [add_table (Sample.table_named "alembic_version")]
  /\ "alembic_version" ∈ get_table_names (from_engine (Sample.connection_of ["alembic_version"]))
  /\ "alembic_version" ∈ diff_tables (add_table (Sample.table_named "alembic_version")).
Proof. split; [vm_compute; reflexivity|]. split; left. Qed.

(** ** The diff list and the order of set iteration *)

Lemma iter_Permutation (o1 o2 : SetOrder) (s : gset string) : iter o1 s ≡ₚ iter o2 s.
Proof. by rewrite (iter_perm o1 s), (iter_perm o2 s). Qed.

Lemma bind_ext_Permutation {A B} (f g : A -> list B) (l1 l2 : list A) :
  l1 ≡ₚ l2 -> (forall x, f x ≡ₚ g x) -> l1 ≫= f ≡ₚ l2 ≫= g.
Proof.
  intros Hl Hfg. rewrite Hl. clear Hl l1.
  induction l2 as [|x l IH]; csimpl; [reflexivity|].
  by rewrite IH, (Hfg x).
Qed.

Lemma bind_ext {A B} (f g : A -> list B) (l : list A) :
  (forall x, f x = g x) -> l ≫= f = l ≫= g.
Proof.
  intros Hfg. induction l as [|x l IH]; csimpl; [reflexivity|].
  by rewrite IH, (Hfg x).
Qed.

Lemma sorted_Permutation (l1 l2 : list string) : l1 ≡ₚ l2 -> Py.sorted l1 = Py.sorted l2.
Proof.
  intros H. unfold Py.sorted.
  apply (Sorted_unique String.le); try apply Sorted_merge_sort; try apply _.
  by rewrite !merge_sort_Permutation.
Qed.

Lemma existing_sorted_order (o1 o2 : SetOrder) inspector metadata :
  existing_sorted o1 inspector metadata = existing_sorted o2 inspector metadata.
Proof. apply sorted_Permutation, iter_Permutation. Qed.

Lemma existing_sorted_Sorted order inspector metadata :
  StronglySorted String.le (existing_sorted order inspector metadata).
Proof. apply StronglySorted_merge_sort; apply _. Qed.

Lemma column_changes_Permutation (o1 o2 : SetOrder) tname conn_table metadata_table ctx :
  column_changes o1 tname conn_table metadata_table ctx
  ≡ₚ column_changes o2 tname conn_table metadata_table ctx.
Proof.
  unfold column_changes.
  repeat apply Permutation_app;
    (apply bind_ext_Permutation; [apply iter_Permutation|reflexivity]).
Qed.

Lemma net_changes_Permutation (o1 o2 : SetOrder) connection metadata ctx :
  net_changes o1 connection metadata ctx ≡ₚ net_changes o2 connection metadata ctx.
Proof.
  unfold net_changes, table_changes.
  rewrite (existing_sorted_order o1 o2).
  repeat apply Permutation_app.
  - apply bind_ext_Permutation; [apply iter_Permutation|reflexivity].
  - apply fmap_Permutation, iter_Permutation.
  - apply bind_ext_Permutation; [reflexivity|]. intros tname.
    unfold existing_table_changes. destruct (tables metadata !! tname); [|reflexivity].
    apply column_changes_Permutation.
Qed.

Lemma net_changes_same_order (o1 o2 : SetOrder) connection metadata ctx :
  (forall s, iter o1 s = iter o2 s) ->
  net_changes o1 connection metadata ctx = net_changes o2 connection metadata ctx.
Proof.
  intros H. unfold net_changes, table_changes, existing_sorted. rewrite !H.
  f_equal. apply bind_ext. intros tname.
  unfold existing_table_changes, column_changes.
  destruct (tables metadata !! tname); [|reflexivity]. by rewrite !H.
Qed.

(** C6, as the code has it: whether the comparison returns a diff
    list does not depend on the order in which sets are walked (it returns
    exactly when its lookups of declared columns by key find their
    columns); runs over the same schema pair in which sets are walked in
    the same order return the same list, and so the same two command
    sequences; when sets are walked in different orders the lists still
    hold the same diffs, and the tables found on both sides are still
    compared in the sorted order of their names, after the table diffs. *)
Theorem diff_list_up_to_set_order (o1 o2 : SetOrder) (connection : Connection)
    (metadata : MetaData) (ctx : autogen_context) (w : world) :
  ((exists ds w', _produce_net_changes o1 connection metadata [] ctx w = (inr ds, w'))
   <-> (exists ds w', _produce_net_changes o2 connection metadata [] ctx w = (inr ds, w')))
  /\ (keys_resolve (from_engine connection) metadata
      <-> exists ds w', _produce_net_changes o1 connection metadata [] ctx w = (inr ds, w'))
  /\ forall ds1 w1,
       _produce_net_changes o1 connection metadata [] ctx w = (inr ds1, w1) ->
       exists ds2 w2,
         _produce_net_changes o2 connection metadata [] ctx w = (inr ds2, w2)
         /\ ds1 ≡ₚ ds2
         /\ (exists names,
               names = existing_sorted o1 (from_engine connection) metadata
               /\ names = existing_sorted o2 (from_engine connection) metadata
               /\ StronglySorted String.le names
               /\ ds1 = table_changes o1 (from_engine connection) metadata
                        ++ (names ≫= existing_table_changes o1 (from_engine connection)
                                       metadata ctx)
               /\ ds2 = table_changes o2 (from_engine connection) metadata
                        ++ (names ≫= existing_table_changes o2 (from_engine connection)
                                       metadata ctx))
         /\ ((forall s, iter o1 s = iter o2 s) ->
             ds1 = ds2
             /\ forall w',
                  _produce_upgrade_commands ds1 ctx w' = _produce_upgrade_commands ds2 ctx w'
                  /\ _produce_downgrade_commands ds1 ctx w'
                     = _produce_downgrade_commands ds2 ctx w').
Proof.
  split; [|split].
  - rewrite <- !keys_resolve_returns. reflexivity.
  - apply keys_resolve_returns.
  - intros ds1 w1 H1. apply produce_net_changes_returns in H1 as [Hkeys ->].
    destruct (produce_net_changes_yields o2 connection metadata [] ctx Hkeys w) as [w2 H2].
    simpl in H2 |- *.
    exists (net_changes o2 connection metadata ctx), w2.
    split; [exact H2|].
    split; [apply net_changes_Permutation|]. split.
    + exists (existing_sorted o1 (from_engine connection) metadata).
      split; [reflexivity|]. split; [apply existing_sorted_order|].
      split; [apply existing_sorted_Sorted|]. split; [reflexivity|].
      unfold net_changes. by rewrite (existing_sorted_order o1 o2).
    + intros H. rewrite (net_changes_same_order o1 o2 _ _ _ H). auto.
Qed.

(** C6 fails as it is stated: over one schema pair, a database with no
    table and two declared tables, the diff list follows the order in
    which the set of the added names is walked, and so do the commands. *)
Lemma set_order_changes_the_diff_list :
  let declared :=
    {| metadata_tables := [Sample.table_named "account"; Sample.table_named "booking"] |} in
  let connection := Sample.connection_of [] in
  let ctx := Sample.ctx_of (Some declared) [] in
  Sample.result_of (_produce_net_changes Sample.hash_order connection declared [] ctx)
  = Some [add_table (Sample.table_named "account"); add_table (Sample.table_named "booking")]
  /\ Sample.result_of (_produce_net_changes Sample.reversed_order connection declared [] ctx)
     = Some [add_table (Sample.table_named "booking"); add_table (Sample.table_named "account")]
  /\ Sample.result_of (_produce_net_changes Sample.hash_order connection declared [] ctx)
     <> Sample.result_of (_produce_net_changes Sample.reversed_order connection declared [] ctx)
  /\ Sample.result_of
       (ds <~ _produce_net_changes Sample.hash_order connection declared [] ctx ;;
        _produce_upgrade_commands ds ctx)
     <> Sample.result_of
          (ds <~ _produce_net_changes Sample.reversed_order connection declared [] ctx ;;
           _produce_upgrade_commands ds ctx).
Proof.
  split; [vm_compute; reflexivity|]. split; [vm_compute; reflexivity|].
  split; vm_compute; discriminate.
Qed.

(** ** Exceptions of the rendering *)

Lemma bind_inv {A B} (c : M A) (k : A -> M B) w b w' :
  bind c k w = (inr b, w') -> exists a w1, c w = (inr a, w1) /\ k a w1 = (inr b, w').
Proof.
  unfold bind. destruct (c w) as [[e|a] w1]; [discriminate|]. eauto.
Qed.

Lemma raises_only_ret {A} P (a : A) : raises_only P (ret a).
Proof. intros w e w' H. discriminate H. Qed.

Lemma raises_only_raise {A} (P : exn -> Prop) e : P e -> raises_only P (@raise A e).
Proof. intros HP w e' w' [= <- _]. exact HP. Qed.

Lemma raises_only_bind {A B} P (c : M A) (k : A -> M B) :
  raises_only P c -> (forall a, raises_only P (k a)) -> raises_only P (bind c k).
Proof.
  intros Hc Hk w e w'. unfold bind.
  destruct (c w) as [[e1|a] w1] eqn:H1.
  - intros [= <- _]. exact (Hc _ _ _ H1).
  - apply Hk.
Qed.

Lemma raises_only_yields {A} P (c : M A) a : yields c a -> raises_only P c.
Proof. intros Hy w e w' H. destruct (Hy w) as [w1 H1]. congruence. Qed.

Lemma raises_only_map_M {A B} P (f : A -> M B) (l : list A) :
  (forall x, raises_only P (f x)) -> raises_only P (map_M f l).
Proof.
  intros Hf. induction l as [|x l IH]; simpl; [apply raises_only_ret|].
  apply raises_only_bind; [apply Hf|]. intros y.
  apply raises_only_bind; [exact IH|]. intros ys. apply raises_only_ret.
Qed.

Lemma repr_type_raises prefix v ctx : raises_only render_error (_repr_type prefix v ctx).
Proof.
  unfold _repr_type. destruct (Py.startswith _ _); [|apply raises_only_ret].
  apply raises_only_bind.
  - unfold dialect_name. destruct (Py.strip_prefix _ _) as [rest|];
      [destruct (Py.take_word rest); [|apply raises_only_ret]|];
      apply raises_only_raise; left; reflexivity.
  - intros dname. apply raises_only_bind; [|intros; apply raises_only_ret].
    intros w e w' H. discriminate H.
Qed.

Lemma render_column_raises column ctx : raises_only render_error (_render_column column ctx).
Proof.
  unfold _render_column. apply raises_only_bind; [apply repr_type_raises|].
  intros ty. apply raises_only_ret.
Qed.

Lemma modify_col_fields_raises ctx sd ty n et en esd :
  raises_only render_error (_modify_col_fields ctx sd ty n et en esd).
Proof.
  unfold _modify_col_fields. apply raises_only_bind; [apply repr_type_raises|].
  intros s. apply raises_only_bind; [|intros; apply raises_only_ret].
  destruct (negb (is_None ty)); [|apply raises_only_ret].
  apply raises_only_bind; [apply repr_type_raises|intros; apply raises_only_ret].
Qed.

Lemma invoke_command_raises ud d ctx : raises_only render_error (_invoke_command ud d ctx).
Proof.
  destruct d as [a args|g]; simpl.
  - assert (H1 : raises_only render_error ((_commands args).1 ctx)).
    { destruct args; simpl; apply raises_only_ret. }
    assert (H2 : raises_only render_error ((_commands args).2 ctx)).
    { destruct args; simpl.
      - unfold _add_table. apply raises_only_bind; [|intros; apply raises_only_ret].
        apply raises_only_map_M. intros col. apply render_column_raises.
      - unfold _add_column. apply raises_only_bind; [apply render_column_raises|].
        intros; apply raises_only_ret. }
    unfold _invoke_adddrop_command. destruct ud, a; assumption.
  - unfold _invoke_modify_command. destruct g as [|first rest].
    + apply raises_only_raise. right. reflexivity.
    + unfold _modify_col. apply raises_only_bind; [apply modify_col_fields_raises|].
      intros; apply raises_only_ret.
Qed.

Lemma produce_commands_raises ud diffs ctx :
  raises_only render_error (produce_commands ud diffs ctx).
Proof.
  assert (H : raises_only render_error (render_all ud diffs ctx)).
  { apply raises_only_map_M. intros d. apply invoke_command_raises. }
  destruct ud; simpl; (apply raises_only_bind; [exact H|intros; apply raises_only_ret]).
Qed.

Lemma raises_only_weaken {A} (P Q : exn -> Prop) (c : M A) :
  (forall e, P e -> Q e) -> raises_only P c -> raises_only Q c.
Proof. intros HPQ Hc w e w' H. apply HPQ. exact (Hc _ _ _ H). Qed.

Lemma raises_only_for_each {A S} P (l : list A) (body : A -> S -> M S) :
  (forall x s, raises_only P (body x s)) -> forall s, raises_only P (for_each l body s).
Proof.
  intros Hb. induction l as [|x l IH]; intros s; simpl; [apply raises_only_ret|].
  apply raises_only_bind; [apply Hb|exact IH].
Qed.

Lemma raises_only_getitem {V} (d : gmap string V) k : raises_only is_KeyError (getitem d k).
Proof.
  unfold getitem. destruct (d !! k); [apply raises_only_ret|].
  apply raises_only_raise. by exists k.
Qed.

Lemma raises_only_log P r : raises_only P (log_info r).
Proof. intros w e w' H. discriminate H. Qed.

(** The comparison raises nothing but the key error of a lookup. *)
Lemma produce_net_changes_raises order connection metadata diffs ctx :
  raises_only is_KeyError (_produce_net_changes order connection metadata diffs ctx).
Proof.
  unfold _produce_net_changes, _compare_tables, _compare_columns.
  repeat match goal with
         | |- raises_only _ (compare_column_attrs _ _ _ _ _ _) =>
             eapply raises_only_yields; apply compare_column_attrs_yields
         | |- raises_only _ (let '(_, _) := ?p in _) => destruct p
         | |- raises_only _ (log_info _) => apply raises_only_log
         | |- raises_only _ (getitem _ _) => apply raises_only_getitem
         | |- raises_only _ (ret _) => apply raises_only_ret
         | |- raises_only _ (for_each _ _ _) => apply raises_only_for_each; intros
         | |- raises_only _ (bind _ _) => apply raises_only_bind; [|intros]
         end.
Qed.

(** ** The top level *)

(** C9: without target metadata the entry point raises the command
    error whose message names the environment script and the missing
    [MetaData] object, before anything is logged, compared or added to
    the imports; with target metadata it never raises a command error. *)
Theorem missing_metadata_is_fatal (order : SetOrder) (context : MigrationContext)
    (template_args : gmap string string) (w : world) :
  (target_metadata (context_opts context) = None ->
   produce_migration_diffs order context template_args w
   = (inl (CommandError
             ("Can't proceed with --autogenerate option; environment script "
              +:+ env_py_location context +:+
              " does not provide a MetaData object to the context.")), w))
  /\ (is_Some (target_metadata (context_opts context)) ->
      forall msg,
        (produce_migration_diffs order context template_args w).1 <> inl (CommandError msg)).
Proof.
  split.
  - intros H. unfold produce_migration_diffs. rewrite H. reflexivity.
  - intros [metadata H] msg Herr.
    assert (Hr : raises_only (fun e => is_KeyError e \/ render_error e)
                   (produce_migration_diffs order context template_args)).
    { unfold produce_migration_diffs. rewrite H.
      apply raises_only_bind;
        [eapply raises_only_weaken; [|apply produce_net_changes_raises]; auto|].
      intros diffs.
      apply raises_only_bind;
        [eapply raises_only_weaken; [|apply (produce_commands_raises upgrade)]; auto|].
      intros up.
      apply raises_only_bind;
        [eapply raises_only_weaken; [|apply (produce_commands_raises downgrade)]; auto|].
      intros down.
      apply raises_only_bind; [|intros; apply raises_only_ret].
      intros w1 e w2 Hg. discriminate Hg. }
    destruct (produce_migration_diffs order context template_args w) as [r w'] eqn:Hrun.
    simpl in Herr. subst r.
    destruct (Hr _ _ _ Hrun) as [[k He]|[He|He]]; discriminate He.
Qed.

(** ** Command sequences *)

Lemma render_all_inv ud ctx diffs : forall w buf w',
  render_all ud diffs ctx w = (inr buf, w') -> Forall2 (rendering_of ud ctx) diffs buf.
Proof.
  unfold render_all. induction diffs as [|d diffs IH]; intros w buf w' H; simpl in H.
  - injection H as <- _. constructor.
  - apply bind_inv in H as (c & w1 & Hc & H).
    apply bind_inv in H as (cs & w2 & Hcs & H).
    injection H as <- _. constructor; [exists w, w1; exact Hc|].
    eapply IH. exact Hcs.
Qed.

Lemma render_all_run ud ctx diffs :
  Forall (renders ud ctx) diffs ->
  forall w, exists buf w', render_all ud diffs ctx w = (inr buf, w').
Proof.
  unfold render_all. induction 1 as [|d diffs Hd _ IH]; intros w; simpl.
  - do 2 eexists. reflexivity.
  - destruct (Hd w) as (c & w1 & Hc). destruct (IH w1) as (cs & w2 & Hcs).
    exists (c :: cs), w2.
    rewrite (bind_run _ _ _ _ _ Hc), (bind_run _ _ _ _ _ Hcs). reflexivity.
Qed.

Lemma produce_commands_render_all ud diffs ctx :
  produce_commands ud diffs ctx
  = (buf <~ render_all ud diffs ctx ;; ret (join_commands buf)).
Proof. destruct ud; reflexivity. Qed.

(** C7: a run renders the diff list twice, once per direction; each
    sequence is the commands of the diffs, one for each diff and in the
    order of the list, joined by newlines, and the sequence of an empty
    diff list is the marker [pass]; the two sequences go to the template
    arguments under the upgrade token and the downgrade token. *)
Theorem two_command_sequences (diffs : list diff) (ctx : autogen_context) (w : world) :
  (forall ud,
      (Forall (renders ud ctx) diffs ->
       exists buf w',
         produce_commands ud diffs ctx w
         = (inr (match buf with [] => "pass" | _ => Py.join Py.nl buf end), w')
         /\ Forall2 (rendering_of ud ctx) diffs buf)
      /\ (forall text w',
            produce_commands ud diffs ctx w = (inr text, w') ->
            exists buf,
              Forall2 (rendering_of ud ctx) diffs buf
              /\ List.length buf = List.length diffs
              /\ text = match buf with [] => "pass" | _ => Py.join Py.nl buf end))
  /\ (_produce_upgrade_commands [] ctx w = (inr "pass", w)
      /\ _produce_downgrade_commands [] ctx w = (inr "pass", w))
  /\ (forall order context template_args r w',
        produce_migration_diffs order context template_args w = (inr r, w') ->
        exists up down imports_text actx,
          (exists wa wb, _produce_upgrade_commands (run_diffs r) actx wa = (inr up, wb))
          /\ (exists wa wb, _produce_downgrade_commands (run_diffs r) actx wa = (inr down, wb))
          /\ run_template_args r
             = <["imports" := imports_text]>
                 (<[downgrade_token (context_opts context) := _indent down]>
                    (<[upgrade_token (context_opts context) := _indent up]> template_args))).
Proof.
  split; [|split].
  - intros ud. rewrite produce_commands_render_all. split.
    + intros Hall. destruct (render_all_run ud ctx diffs Hall w) as (buf & w' & Hbuf).
      exists buf, w'. rewrite (bind_run _ _ _ _ _ Hbuf).
      split; [destruct buf; reflexivity|]. eapply render_all_inv. exact Hbuf.
    + intros text w' H. apply bind_inv in H as (buf & w1 & Hbuf & H).
      injection H as <- _. exists buf.
      pose proof (render_all_inv _ _ _ _ _ _ Hbuf) as HF.
      split; [exact HF|]. split; [|destruct buf; reflexivity].
      symmetry. eapply Forall2_length. exact HF.
  - split; reflexivity.
  - intros order context template_args r w' H. unfold produce_migration_diffs in H.
    destruct (target_metadata (context_opts context)) as [metadata|]; [|discriminate H].
    apply bind_inv in H as (ds & w1 & _ & H).
    apply bind_inv in H as (up & w2 & Hup & H).
    apply bind_inv in H as (down & w3 & Hdown & H).
    apply bind_inv in H as (imports & w4 & _ & H).
    injection H as <- _. simpl. do 4 eexists.
    split; [do 2 eexists; exact Hup|]. split; [do 2 eexists; exact Hdown|]. reflexivity.
Qed.

(** ** The properties on the sample schemas *)

Lemma module_ok_INTEGER : module_ok (ty_module Sample.INTEGER).
Proof. intros H. discriminate H. Qed.

Lemma module_ok_VARCHAR : module_ok (ty_module Sample.VARCHAR).
Proof. intros _. exists "postgresql.base", "p"%char, "ostgresql". split; reflexivity. Qed.

Lemma unresolved_type_no_modify_type_witness :
  (_type_affinity (rec_type Sample.untyped_rec) = NullType
   \/ _type_affinity (col_type Sample.data_col) = NullType)
  /\ exists out evs,
       compare_column_attrs "users" "data" Sample.untyped_rec Sample.data_col []
         Sample.ctx Sample.w0
       = (inr out, {| w_imports := ∅; w_trace := evs |})
       /\ Forall (fun e => is_compare_type_call e = false) evs
       /\ (out = []
           \/ exists g, out = [ColumnGroup g]
                        /\ Forall (fun d => md_tag d <> modify_type) g).
Proof.
  assert (H : _type_affinity (rec_type Sample.untyped_rec) = NullType
              \/ _type_affinity (col_type Sample.data_col) = NullType).
  { left. reflexivity. }
  split; [exact H|].
  destruct (unresolved_type_no_modify_type "users" "data" Sample.untyped_rec
              Sample.data_col Sample.ctx H) as [_ Hcol].
  exact (Hcol [] Sample.w0).
Defined.

Lemma composite_merge_fields_witness :
  ((compare_column_attrs "users" "email" Sample.email_rec Sample.email_col []
      Sample.ctx Sample.w0).1
   = inr [ColumnGroup Sample.email_group]
   /\ md_tag <$> Sample.email_group = [modify_type; modify_nullable]
   /\ module_ok (ty_module (rec_type Sample.email_rec))
   /\ module_ok (ty_module (col_type Sample.email_col)))
  /\ forall ud w, exists fields w',
       alter_column_fields ud Sample.email_group Sample.ctx w = (inr fields, w')
       /\ fields.*1 = ["existing_type"; "type_"; "nullable"; "existing_server_default"]
       /\ (_invoke_command ud (ColumnGroup Sample.email_group) Sample.ctx w).1
          = inr ("op.alter_column('users', 'email', " +:+ Py.nl
                 +:+ "           existing_type="
                 +:+ match ud with
                     | upgrade => "sa.INTEGER()"
                     | downgrade => "postgresql.VARCHAR(length=50)"
                     end
                 +:+ ", " +:+ Py.nl
                 +:+ "           type_="
                 +:+ match ud with
                     | upgrade => "postgresql.VARCHAR(length=50)"
                     | downgrade => "sa.INTEGER()"
                     end
                 +:+ ", " +:+ Py.nl
                 +:+ "           nullable="
                 +:+ match ud with upgrade => "False" | downgrade => "True" end
                 +:+ ", " +:+ Py.nl
                 +:+ "           existing_server_default='x')").
Proof.
  assert (H1 : (compare_column_attrs "users" "email" Sample.email_rec Sample.email_col []
                  Sample.ctx Sample.w0).1
               = inr [ColumnGroup Sample.email_group]).
  { vm_compute. reflexivity. }
  assert (H2 : md_tag <$> Sample.email_group = [modify_type; modify_nullable]).
  { reflexivity. }
  split; [auto using module_ok_INTEGER, module_ok_VARCHAR|].
  intros ud w.
  destruct (composite_merge_fields "users" "email" Sample.email_rec Sample.email_col
              Sample.ctx Sample.w0 _ H1 H2 module_ok_INTEGER module_ok_VARCHAR)
    as [Hs _].
  destruct (Hs ud w) as (fields & w' & Hf & Hinv & Hn & _ & _ & _ & _ & Htext).
  exists fields, w'. split; [exact Hf|]. split; [rewrite Hn; destruct ud; reflexivity|].
  rewrite Hinv, Htext. destruct ud; vm_compute; reflexivity.
Defined.

(** C1 fails as it is stated: the observed column [users.email] has the
    default ['x'], the declared column has the same default, a new type
    and a new nullable flag; the group holds a type diff and a nullable
    diff, and the call rendered for the upgrade carries
    [existing_server_default], in its fields and in its text. *)
Lemma unchanged_default_is_rendered_as_existing :
  (compare_column_attrs "users" "email" Sample.email_rec Sample.email_col []
     Sample.ctx Sample.w0).1
  = inr [ColumnGroup Sample.email_group]
  /\ md_tag <$> Sample.email_group = [modify_type; modify_nullable]
  /\ Sample.result_of (alter_column_fields upgrade Sample.email_group Sample.ctx)
     = Some [("existing_type", "sa.INTEGER()");
             ("type_", "postgresql.VARCHAR(length=50)");
             ("nullable", "False");
             ("existing_server_default", "'x'")]
  /\ Sample.result_of (_invoke_command upgrade (ColumnGroup Sample.email_group) Sample.ctx)
     = Some ("op.alter_column('users', 'email', " +:+ Py.nl
             +:+ "           existing_type=sa.INTEGER(), " +:+ Py.nl
             +:+ "           type_=postgresql.VARCHAR(length=50), " +:+ Py.nl
             +:+ "           nullable=False, " +:+ Py.nl
             +:+ "           existing_server_default='x')")
  /\ ~ (forall fields,
          Sample.result_of (alter_column_fields upgrade Sample.email_group Sample.ctx)
          = Some fields ->
          "existing_server_default" ∉ fields.*1).
Proof.
  split; [vm_compute; reflexivity|]. split; [reflexivity|].
  split; [vm_compute; reflexivity|]. split; [vm_compute; reflexivity|].
  intros H. eapply H; [vm_compute; reflexivity|]. simpl. mem_dec.
Qed.

(** The nullable scenario: the declared [users.email] is not nullable,
    the observed one is; the upgrade sets [nullable=False], the downgrade
    [nullable=True], both with the observed type as [existing_type]. *)
Example nullable_only_upgrade_and_downgrade :
  Sample.result_of (alter_column_fields upgrade Sample.email_nullable_group Sample.ctx)
  = Some [("existing_type", "sa.INTEGER()"); ("nullable", "False");
          ("existing_server_default", "'x'")]
  /\ Sample.result_of (alter_column_fields downgrade Sample.email_nullable_group Sample.ctx)
     = Some [("existing_type", "sa.INTEGER()"); ("nullable", "True");
             ("existing_server_default", "'x'")]
  /\ Sample.result_of
       (_invoke_command downgrade (ColumnGroup Sample.email_nullable_group) Sample.ctx)
     = Some ("op.alter_column('users', 'email', " +:+ Py.nl
             +:+ "           existing_type=sa.INTEGER(), " +:+ Py.nl
             +:+ "           nullable=True, " +:+ Py.nl
             +:+ "           existing_server_default='x')").
Proof. repeat split; vm_compute; reflexivity. Qed.

(** A group whose new nullable flag is unknown: the upgrade call has no
    [nullable] field. *)
Example unknown_nullable_is_not_rendered :
  Sample.result_of
    (alter_column_fields upgrade
       [nullable_diff "users" "email" Sample.email_rec None] Sample.ctx)
  = Some [("existing_type", "sa.INTEGER()"); ("existing_server_default", "'x'")].
Proof. vm_compute. reflexivity. Qed.

(** A table that is only declared: created on upgrade, dropped on downgrade. *)
Example add_table_both_directions :
  Sample.result_of
    (_produce_upgrade_commands [add_table (Sample.table_named "account")] Sample.ctx)
  = Some (Py.join Py.nl ["op.create_table('account',";
                         "sa.Column('id', sa.INTEGER(), nullable=False),";
                         "sa.PrimaryKeyConstraint('id')";
                         ")"])
  /\ Sample.result_of
       (_produce_downgrade_commands [add_table (Sample.table_named "account")] Sample.ctx)
     = Some "op.drop_table('account')".
Proof. split; vm_compute; reflexivity. Qed.

(** A run without target metadata, and a run with it. *)
Example run_without_metadata :
  Sample.result_of
    (produce_migration_diffs Sample.hash_order (Sample.context_of None ["users"]) ∅)
  = None.
Proof. reflexivity. Qed.

Example run_with_metadata :
  let declared := {| metadata_tables := [Sample.users] |} in
  (run_diffs <$> Sample.result_of
     (produce_migration_diffs Sample.hash_order
        (Sample.context_of (Some declared) ["users"; "alembic_version"]) ∅))
  = Some [ColumnGroup Sample.email_group].
Proof. vm_compute. reflexivity. Qed.

Example repr_str_plain : Py.repr_str "users" = "'users'".
Proof. reflexivity. Qed.

Example repr_str_quote :
  Py.repr_str "it's" = String Py.dquote ("it's" +:+ String Py.dquote EmptyString).
Proof. reflexivity. Qed.

Example sub_outer_quotes_both : Py.sub_outer_quotes "'abc'" = "abc".
Proof. reflexivity. Qed.

Example sub_outer_quotes_inner : Py.sub_outer_quotes "a'b" = "a'b".
Proof. reflexivity. Qed.

Example sorted_names :
  Py.sorted ["users"; "address"; "order"] = ["address"; "order"; "users"].
Proof. vm_compute. reflexivity. Qed.

(** * Further properties *)

(** ** Symmetry of the two directions *)

Lemma merge_diff_swap kw m : merge_diff downgrade kw m = merge_diff upgrade kw (swap_diff m).
Proof. reflexivity. Qed.

Lemma modify_kw_swap args :
  modify_kw downgrade args = modify_kw upgrade (swap_diff <$> args).
Proof.
  unfold modify_kw.
  assert (H : forall kw, foldl (merge_diff downgrade) kw args
                         = foldl (merge_diff upgrade) kw (swap_diff <$> args)).
  { induction args as [|m args IH]; intros kw; simpl; [reflexivity|].
    rewrite IH. reflexivity. }
  rewrite H. reflexivity.
Qed.

Lemma swap_diff_involutive m : swap_diff (swap_diff m) = m.
Proof. destruct m. reflexivity. Qed.

Lemma map_M_fmap {A B C} (f : B -> M C) (g : A -> B) (l : list A) w :
  map_M f (g <$> l) w = map_M (fun x => f (g x)) l w.
Proof.
  revert w. induction l as [|x l IH]; intros w; simpl; [reflexivity|].
  unfold bind. destruct (f (g x) w) as [[e|c] w1]; [reflexivity|].
  rewrite IH. reflexivity.
Qed.

Lemma map_M_ext {A B} (f g : A -> M B) (l : list A) w :
  (forall x w', f x w' = g x w') -> map_M f l w = map_M g l w.
Proof.
  intros Hfg. revert w. induction l as [|x l IH]; intros w; simpl; [reflexivity|].
  unfold bind. rewrite Hfg. destruct (g x w) as [[e|c] w1]; [reflexivity|].
  rewrite IH. reflexivity.
Qed.

Lemma invoke_command_reverse d ctx w :
  _invoke_command downgrade d ctx w = _invoke_command upgrade (reverse_diff d) ctx w.
Proof.
  destruct d as [a args|g]; simpl.
  - destruct a; reflexivity.
  - destruct g as [|m g]; [reflexivity|].
    unfold _invoke_modify_command. rewrite modify_kw_swap. reflexivity.
Qed.

(** The downgrade of a diff is the upgrade of the diff that undoes it:
    for every diff, and so for every diff list, the downgrade commands
    are the upgrade commands of the reversed diffs; reversing twice gives
    the diff back. *)
Theorem downgrade_is_upgrade_of_reverse (diffs : list diff) (ctx : autogen_context)
    (w : world) :
  (forall d, _invoke_command downgrade d ctx w
             = _invoke_command upgrade (reverse_diff d) ctx w)
  /\ _produce_downgrade_commands diffs ctx w
     = _produce_upgrade_commands (reverse_diff <$> diffs) ctx w
  /\ (forall d, reverse_diff (reverse_diff d) = d).
Proof.
  split; [intros d; apply invoke_command_reverse|]. split.
  - unfold _produce_downgrade_commands, _produce_upgrade_commands, render_all, bind.
    rewrite map_M_fmap.
    rewrite (map_M_ext _ (fun x => _invoke_command upgrade (reverse_diff x) ctx));
      [reflexivity|].
    intros d w'. apply invoke_command_reverse.
  - intros [a args|g]; simpl.
    + destruct a; reflexivity.
    + f_equal. rewrite <- list_fmap_compose.
      rewrite <- (list_fmap_id g) at 2. apply list_fmap_ext.
      intros i m _. apply swap_diff_involutive.
Qed.

(** ** The keyword dictionary of a group *)

Lemma merge_diff_keys ud kw m :
  (forall k, is_Some (kw !! k) -> k ∈ modify_col_keywords) ->
  forall k, is_Some (merge_diff ud kw m !! k) -> k ∈ modify_col_keywords.
Proof.
  intros Hkw k. unfold merge_diff.
  assert (Hsd : forall kw' a v,
             a ∈ modify_col_keywords ->
             (forall k, is_Some (kw' !! k) -> k ∈ modify_col_keywords) ->
             forall k, is_Some (setdefault kw' a v !! k) -> k ∈ modify_col_keywords).
  { intros kw' a v Ha H k'. unfold setdefault. destruct (kw' !! a); [apply H|].
    rewrite lookup_insert. case_decide; [subst; auto|apply H]. }
  set (kw3 := foldl _ kw _).
  assert (H3 : forall k, is_Some (kw3 !! k) -> k ∈ modify_col_keywords).
  { subst kw3. simpl.
    repeat (destruct (md_kw m !! _); [apply Hsd; [mem_dec|]|]); exact Hkw. }
  assert (Ho : (_arg_struct (md_tag m)).1 ∈ modify_col_keywords
               /\ (_arg_struct (md_tag m)).2 ∈ modify_col_keywords).
  { destruct (md_tag m); split; simpl; mem_dec. }
  destruct (_arg_struct (md_tag m)) as [old_kw new_kw]. simpl in Ho. destruct Ho.
  destruct ud; rewrite !lookup_insert; repeat case_decide; subst; auto.
Qed.

(** Whatever the diffs of a group hold, the dictionary that is spread
    into the call of [_modify_col] has no key but the six keyword
    parameters of that function. *)
Theorem modify_kw_keys (ud : updown) (args : list modify_diff) (k : string) :
  is_Some (modify_kw ud args !! k) -> k ∈ modify_col_keywords.
Proof.
  assert (H : forall kw, (forall k, is_Some (kw !! k) -> k ∈ modify_col_keywords) ->
                         forall k, is_Some (foldl (merge_diff ud) kw args !! k) ->
                                   k ∈ modify_col_keywords).
  { induction args as [|m args IH]; intros kw Hkw; simpl; [exact Hkw|].
    apply IH. apply merge_diff_keys. exact Hkw. }
  unfold modify_kw. intros Hk. apply (H ∅).
  - intros k' [v Hv]. rewrite lookup_empty in Hv. discriminate.
  - repeat case_decide;
      repeat (apply lookup_delete_is_Some in Hk as [_ Hk]); exact Hk.
Qed.

Lemma modify_kw_keys_witness :
  is_Some (modify_kw upgrade Sample.email_group !! "type_")
  /\ "type_" ∈ modify_col_keywords.
Proof.
  assert (H : is_Some (modify_kw upgrade Sample.email_group !! "type_")).
  { vm_compute. eauto. }
  split; [exact H|]. exact (modify_kw_keys upgrade Sample.email_group "type_" H).
Defined.

(** ** Rendering of defaults *)

Lemma drop_final_quote_snoc s : Py.drop_final_quote (s +:+ "'") = s.
Proof.
  induction s as [|c s IH]; [reflexivity|].
  rewrite append_cons. simpl. rewrite IH.
  destruct (Ascii.eqb c Py.squote); [|reflexivity].
  destruct s as [|d s]; [reflexivity|].
  rewrite append_cons. destruct (s +:+ "'") eqn:E; [|reflexivity].
  destruct s; discriminate E.
Qed.

Lemma sub_outer_quotes_quoted s : Py.sub_outer_quotes ("'" +:+ s +:+ "'") = s.
Proof. rewrite append_cons, append_nil_l. simpl. apply drop_final_quote_snoc. Qed.

(** A default renders to its text between single quotes, with one outer
    pair of quotes of the text dropped, so a text that is already a
    rendering renders to itself; a [DefaultClause] over a text renders as
    the text does, and what is neither a text nor a clause has no
    rendering. *)
Theorem render_server_default_idempotent (default : pyval) (ctx : autogen_context) :
  (forall r, _render_server_default default ctx = Some r ->
             (exists t, r = "'" +:+ t +:+ "'")
             /\ _render_server_default (PStr r) ctx = Some r)
  /\ (forall s, _render_server_default (PDefault {| arg := ArgStr s |}) ctx
                = _render_server_default (PStr s) ctx)
  /\ (forall s, _render_server_default (PStr ("'" +:+ s +:+ "'")) ctx
                = Some ("'" +:+ s +:+ "'"))
  /\ (_render_server_default default ctx = None
      <-> match default with PStr _ | PDefault _ => False | _ => True end).
Proof.
  assert (Hq : forall s, _render_server_default (PStr ("'" +:+ s +:+ "'")) ctx
                         = Some ("'" +:+ s +:+ "'")).
  { intros s. unfold _render_server_default. rewrite sub_outer_quotes_quoted. reflexivity. }
  split; [|split; [reflexivity|split; [exact Hq|]]].
  - intros r Hr.
    assert (exists t, r = "'" +:+ t +:+ "'") as [t ->].
    { unfold _render_server_default in Hr.
      destruct default as [| | |ty|[[s|c]]]; simpl in Hr; try discriminate;
        injection Hr as <-; eauto. }
    split; [eauto|apply Hq].
  - unfold _render_server_default.
    destruct default as [| | |ty|[[s|c]]]; simpl; split; try tauto; discriminate.
Qed.

(** ** The text around the commands *)

Lemma sub_after_newlines_app pad s t :
  Py.sub_after_newlines pad (s +:+ t)
  = Py.sub_after_newlines pad s +:+ Py.sub_after_newlines pad t.
Proof.
  induction s as [|c s IH]; [reflexivity|].
  rewrite append_cons. simpl. rewrite IH.
  destruct (Ascii.eqb c Py.newline); rewrite ?append_cons, ?append_assoc; reflexivity.
Qed.

Lemma rev_app_append s : forall acc, String.rev_app s acc = String.rev s +:+ acc.
Proof.
  unfold String.rev. induction s as [|c s IH]; intros acc; simpl; [reflexivity|].
  rewrite (IH (String c acc)), (IH (String c EmptyString)), append_assoc. reflexivity.
Qed.

Lemma rev_append s t : String.rev (s +:+ t) = String.rev t +:+ String.rev s.
Proof.
  induction s as [|c s IH].
  - rewrite append_nil_l, append_nil_r. reflexivity.
  - rewrite append_cons. unfold String.rev at 1 3. simpl.
    rewrite !rev_app_append, IH, append_assoc. reflexivity.
Qed.

Lemma rev_involutive s : String.rev (String.rev s) = s.
Proof.
  induction s as [|c s IH]; [reflexivity|].
  change (String c s) with (String c EmptyString +:+ s) at 1.
  rewrite rev_append, rev_append, IH. reflexivity.
Qed.

(** [rstrip] leaves a text that ends in a character that is no space. *)
Lemma rstrip_snoc s c :
  Ascii.is_space c = false ->
  Py.rstrip (s +:+ String c EmptyString) = s +:+ String c EmptyString.
Proof.
  intros Hc. unfold Py.rstrip. rewrite rev_append.
  change (String.rev (String c EmptyString)) with (String c EmptyString).
  rewrite append_cons, append_nil_l. simpl. rewrite Hc.
  change (String c (String.rev s)) with (String c EmptyString +:+ String.rev s).
  rewrite rev_append, rev_involutive. reflexivity.
Qed.

(** The block that goes into the template starts with the header line,
    ends with the footer line, and holds between them the commands with
    four spaces put before every line of them; nothing of the commands
    is stripped. *)
Theorem indent_shape (text : string) :
  _indent text
  = "### commands auto generated by Alembic - please adjust! ###" +:+ Py.nl
    +:+ "    " +:+ Py.sub_after_newlines "    " text +:+ Py.nl
    +:+ "    ### end Alembic commands ###".
Proof.
  unfold _indent, Py.sub_line_starts, Py.strip.
  rewrite !sub_after_newlines_app.
  set (body := Py.sub_after_newlines "    " text).
  change (Py.sub_after_newlines "    "
            "### commands auto generated by Alembic - please adjust! ###")
    with "### commands auto generated by Alembic - please adjust! ###".
  change (Py.sub_after_newlines "    " Py.nl) with (Py.nl +:+ "    ").
  change (Py.sub_after_newlines "    " "### end Alembic commands ###")
    with "### end Alembic commands ###".
  change (Py.lstrip ("    " +:+ ?x)) with (Py.lstrip x).
  match goal with
  | |- Py.rstrip (Py.lstrip ?x) = _ =>
      change (Py.lstrip x)
        with ("### commands auto generated by Alembic - please adjust! ###"
              +:+ (Py.nl +:+ "    ") +:+ body +:+ (Py.nl +:+ "    ")
              +:+ "### end Alembic commands ###")
  end.
  rewrite <- !append_assoc.
  change "### end Alembic commands ###"
    with ("### end Alembic commands ##" +:+ String "#" EmptyString) at 1.
  rewrite <- !append_assoc. rewrite rstrip_snoc by reflexivity.
  rewrite !append_assoc. reflexivity.
Qed.

(** ** The constraints of a created table *)

(** The text of [create_table] does not depend on the order in which
    the set of the constraints of the table is walked. *)
Theorem add_table_constraint_order (table table' : Table) (ctx : autogen_context)
    (w : world) :
  tbl_name table = tbl_name table' -> tbl_c table = tbl_c table' ->
  tbl_constraints table ≡ₚ tbl_constraints table' ->
  _add_table table ctx w = _add_table table' ctx w.
Proof.
  intros Hn Hc Hp. unfold _add_table. rewrite Hn, Hc.
  assert (Hs : Py.sorted
                 (omap id ((fun cons => _render_constraint cons ctx) <$> tbl_constraints table))
               = Py.sorted
                   (omap id ((fun cons => _render_constraint cons ctx)
                             <$> tbl_constraints table'))).
  { apply sorted_Permutation. by rewrite Hp. }
  unfold bind. destruct (map_M _ _ w) as [[e|cols] w1]; [reflexivity|].
  unfold ret. rewrite Hs. reflexivity.
Qed.

Lemma add_table_constraint_order_witness :
  let t1 := {| tbl_name := "users"; tbl_c := [Sample.id_col];
               tbl_constraints := [PrimaryKeyConstraint None ["id"]; CheckConstraint None] |} in
  let t2 := {| tbl_name := "users"; tbl_c := [Sample.id_col];
               tbl_constraints := [CheckConstraint None; PrimaryKeyConstraint None ["id"]] |} in
  tbl_constraints t1 ≡ₚ tbl_constraints t2
  /\ _add_table t1 Sample.ctx Sample.w0 = _add_table t2 Sample.ctx Sample.w0.
Proof.
  intros t1 t2.
  assert (Hp : tbl_constraints t1 ≡ₚ tbl_constraints t2) by apply Permutation_swap.
  split; [exact Hp|].
  exact (add_table_constraint_order t1 t2 Sample.ctx Sample.w0 eq_refl eq_refl Hp).
Defined.

(** ** What the comparison puts on the diff list *)

Lemma bind_singletons {A B} (f : A -> list B) (P : A -> B -> Prop) (l : list A) :
  (forall x, x ∈ l -> exists y, f x = [y] /\ P x y) -> Forall2 P l (l ≫= f).
Proof.
  induction l as [|x l IH]; intros H; csimpl; [constructor|].
  destruct (H x) as (y & -> & Hy); [left|].
  simpl. constructor; [exact Hy|]. apply IH. intros z Hz. apply H. by right.
Qed.

Lemma bind_mjoin {A B} (f : A -> list B) (l : list A) : l ≫= f = mjoin (f <$> l).
Proof. induction l as [|x l IH]; csimpl; [reflexivity|]. by rewrite IH. Qed.

Lemma column_entry_shape tname cname conn_col metadata_col ctx d :
  d ∈ column_entry tname cname conn_col metadata_col ctx ->
  exists g, d = ColumnGroup g /\ g <> []
            /\ g = type_changes tname cname conn_col metadata_col ctx
                   ++ nullable_changes tname cname conn_col (col_nullable metadata_col)
                   ++ default_changes tname cname conn_col metadata_col ctx.
Proof.
  unfold column_entry. intros Hd.
  destruct (_ ++ _ ++ _) as [|m g] eqn:Hg; [inversion Hd|].
  apply list_elem_of_singleton in Hd. subst d. eexists. split; [reflexivity|].
  split; [discriminate|reflexivity].
Qed.

Lemma column_changes_shape order tname conn_table metadata_table ctx d :
  d ∈ column_changes order tname conn_table metadata_table ctx ->
  (exists c, c ∈ tbl_c metadata_table /\ d = add_column tname c)
  \/ (exists cname r, conn_table !! cname = Some r
                      /\ d = remove_column tname
                               (schema_Column cname (rec_type r) (rec_nullable r)
                                  (rec_default r)))
  \/ (exists cname c r, c ∈ tbl_c metadata_table /\ conn_table !! cname = Some r
                        /\ d ∈ column_entry tname cname r c ctx).
Proof.
  assert (Hcol : forall cname c, cols_by_name metadata_table !! cname = Some c ->
                                 c ∈ tbl_c metadata_table).
  { intros cname c H. apply dict_lookup_Some, list_elem_of_fmap in H as (x & [= _ ->] & Hx).
    exact Hx. }
  unfold column_changes. intros Hd.
  apply elem_of_app in Hd as [Hd|Hd]; [|apply elem_of_app in Hd as [Hd|Hd]];
    apply list_elem_of_bind in Hd as (cname & Hd & _).
  - destruct (_ !! cname) as [c|] eqn:Hc; [|inversion Hd].
    apply list_elem_of_singleton in Hd. left. eauto.
  - destruct (_ !! cname) as [r|] eqn:Hr; [|inversion Hd].
    apply list_elem_of_singleton in Hd. right. left. eauto.
  - destruct (cols_by_key metadata_table !! cname) as [c|] eqn:Hc; [|inversion Hd].
    destruct (conn_table !! cname) as [r|] eqn:Hr; [|inversion Hd].
    right. right. exists cname, c, r. split; [|auto].
    apply dict_lookup_Some, list_elem_of_fmap in Hc as (x & [= _ ->] & Hx). exact Hx.
Qed.

Lemma observed_columns_lookup inspector tname cname r :
  observed_columns inspector tname !! cname = Some r -> r ∈ get_columns inspector tname.
Proof.
  intros H. apply dict_lookup_Some, list_elem_of_fmap in H as (x & [= _ ->] & Hx). exact Hx.
Qed.

(** Where each diff of a run comes from. *)
Lemma net_changes_cases order connection metadata ctx d :
  d ∈ net_changes order connection metadata ctx ->
  (exists t, t ∈ metadata_tables metadata /\ d = add_table t)
  \/ (exists tname, d = remove_table (reflected (from_engine connection) tname))
  \/ (exists tname t c, t ∈ metadata_tables metadata /\ c ∈ tbl_c t
                        /\ d = add_column tname c)
  \/ (exists tname cname r, r ∈ get_columns (from_engine connection) tname
                            /\ d = remove_column tname
                                     (schema_Column cname (rec_type r) (rec_nullable r)
                                        (rec_default r)))
  \/ (exists tname cname t c r,
         t ∈ metadata_tables metadata /\ c ∈ tbl_c t
         /\ r ∈ get_columns (from_engine connection) tname
         /\ d ∈ column_entry tname cname r c ctx).
Proof.
  unfold net_changes, table_changes. intros Hd.
  apply elem_of_app in Hd as [Hd|Hd]; [apply elem_of_app in Hd as [Hd|Hd]|].
  - left. apply list_elem_of_bind in Hd as (tname & Hd & _).
    destruct (tables metadata !! tname) as [t|] eqn:Ht; [|inversion Hd].
    apply list_elem_of_singleton in Hd. apply tables_lookup_name in Ht as [_ Ht]. eauto.
  - right. left. apply list_elem_of_fmap in Hd as (tname & -> & _). eauto.
  - apply list_elem_of_bind in Hd as (tname & Hd & _).
    unfold existing_table_changes in Hd.
    destruct (tables metadata !! tname) as [t|] eqn:Ht; [|inversion Hd].
    apply tables_lookup_name in Ht as [_ Ht].
    apply column_changes_shape in Hd
      as [(c & Hc & ->)|[(cname & r & Hr & ->)|(cname & c & r & Hc & Hr & Hd)]].
    + right. right. left. exists tname, t, c. auto.
    + right. right. right. left. apply observed_columns_lookup in Hr.
      exists tname, cname, r. auto.
    + right. right. right. right. apply observed_columns_lookup in Hr.
      exists tname, cname, t, c, r. eauto.
Qed.

(** The table diffs of a run are complete and exact: a diff list that
    the comparison returns starts with one [add_table] diff, with the
    declared table, for each declared name that is not observed, then one
    [remove_table] diff, with the reflected table, for each observed name
    that is not declared, each name once; no other diff of the list is a
    table diff, so a table found on both sides gets none. *)
Theorem table_diffs_complete (order : SetOrder) (connection : Connection)
    (metadata : MetaData) (ctx : autogen_context) (w : world) :
  let inspector := from_engine connection in
  let added := iter order (dom (tables metadata) ∖ conn_names inspector) in
  let removed := iter order (conn_names inspector ∖ dom (tables metadata)) in
  (forall ds w',
      _produce_net_changes order connection metadata [] ctx w = (inr ds, w') ->
      exists adds removes rest,
        ds = adds ++ removes ++ rest
        /\ Forall2 (fun tname d => exists t, tables metadata !! tname = Some t
                                             /\ tbl_name t = tname /\ d = add_table t)
                   added adds
        /\ Forall2 (fun tname d => d = remove_table (reflected inspector tname))
                   removed removes
        /\ Forall (fun d => match d with AddDrop _ (TableArgs _) => False | _ => True end)
                  rest)
  /\ (keys_resolve inspector metadata
      <-> exists ds w', _produce_net_changes order connection metadata [] ctx w = (inr ds, w'))
  /\ NoDup added /\ NoDup removed
  /\ (forall tname, tname ∈ added
                    <-> is_Some (tables metadata !! tname)
                        /\ (tname ∉ get_table_names inspector
                            \/ tname = "alembic_version"))
  /\ (forall tname, tname ∈ removed
                    <-> tname ∈ get_table_names inspector
                        /\ tname <> "alembic_version"
                        /\ tables metadata !! tname = None).
Proof.
  intros inspector added removed.
  assert (Hconn : forall tname, tname ∈ conn_names inspector
                                <-> tname ∈ get_table_names inspector
                                    /\ tname <> "alembic_version").
  { intros tname. unfold conn_names.
    rewrite elem_of_difference, !elem_of_list_to_set, list_elem_of_singleton. tauto. }
  split; [|split; [apply keys_resolve_returns|split; [|split; [|split]]]].
  - intros ds w' Hrun. apply produce_net_changes_returns in Hrun as [_ ->]. simpl.
    unfold net_changes, table_changes. fold inspector. rewrite <- app_assoc.
    do 3 eexists. split; [reflexivity|]. split; [|split].
    + apply bind_singletons. intros tname Hin.
      apply (proj1 (elem_of_iter _ _ _)), elem_of_difference in Hin as [Hin _].
      apply elem_of_dom in Hin as [t Ht]. rewrite Ht. exists (add_table t).
      split; [reflexivity|]. exists t. apply tables_lookup_name in Ht as Hn. tauto.
    + apply Forall2_fmap_r, Forall_Forall2_diag, Forall_forall. auto.
    + apply Forall_forall. intros d Hd.
      apply list_elem_of_bind in Hd as (tname & Hd & _).
      unfold existing_table_changes in Hd.
      destruct (tables metadata !! tname); [|inversion Hd].
      apply column_changes_shape in Hd
        as [(c & _ & ->)|[(cname & r & _ & ->)|(cname & c & r & _ & _ & Hd)]]; try exact I.
      apply column_entry_shape in Hd as (g & -> & _). exact I.
  - apply NoDup_iter.
  - apply NoDup_iter.
  - intros tname. unfold added.
    rewrite elem_of_iter, elem_of_difference, elem_of_dom, Hconn.
    destruct (decide (tname = "alembic_version")); [tauto|].
    destruct (decide (tname ∈ get_table_names inspector)); tauto.
  - intros tname. unfold removed.
    rewrite elem_of_iter, elem_of_difference, Hconn, not_elem_of_dom. tauto.
Qed.

Lemma compare_columns_raises order tname conn_table metadata_table diffs ctx :
  raises_only is_KeyError
    (_compare_columns order tname conn_table metadata_table diffs ctx).
Proof.
  unfold _compare_columns.
  repeat match goal with
         | |- raises_only _ (compare_column_attrs _ _ _ _ _ _) =>
             eapply raises_only_yields; apply compare_column_attrs_yields
         | |- raises_only _ (log_info _) => apply raises_only_log
         | |- raises_only _ (getitem _ _) => apply raises_only_getitem
         | |- raises_only _ (ret _) => apply raises_only_ret
         | |- raises_only _ (for_each _ _ _) => apply raises_only_for_each; intros
         | |- raises_only _ (bind _ _) => apply raises_only_bind; [|intros]
         end.
Qed.

(** [_compare_columns] looks a column name found on both sides up in
    the column collection of the declared table, which is keyed by column
    key: it returns exactly when every such name is a key of the
    collection, and raises a key error otherwise.  When it returns, it has
    appended to the diffs it was given one [add_column] diff, with the
    declared column of that name, for each declared name that is not
    observed, then one [remove_column] diff for each observed name that is
    not declared, with a column rebuilt from the observed type, nullable
    flag and default, then for each name on both sides the group of the
    observed column and of the declared column held under that key, or
    nothing. *)
Theorem column_diffs_complete (order : SetOrder) (tname : string)
    (conn_table : gmap string ColRec) (metadata_table : Table) (diffs : list diff)
    (ctx : autogen_context) (w : world) :
  let cols := cols_by_name metadata_table in
  (shared_names_resolve conn_table metadata_table
   <-> exists out w',
         _compare_columns order tname conn_table metadata_table diffs ctx w = (inr out, w'))
  /\ (forall e w',
        _compare_columns order tname conn_table metadata_table diffs ctx w = (inl e, w') ->
        exists k, e = KeyError k)
  /\ forall out w',
       _compare_columns order tname conn_table metadata_table diffs ctx w = (inr out, w') ->
       exists adds removes entries,
         out = diffs ++ adds ++ removes ++ mjoin entries
         /\ Forall2 (fun cname d => exists c, cols !! cname = Some c
                                              /\ c ∈ tbl_c metadata_table
                                              /\ col_name c = cname
                                              /\ d = add_column tname c)
                    (iter order (dom cols ∖ dom conn_table)) adds
         /\ Forall2 (fun cname d =>
                       exists r, conn_table !! cname = Some r
                                 /\ d = remove_column tname
                                          {| col_name := cname; col_key := cname;
                                             col_type := rec_type r;
                                             col_nullable := rec_nullable r;
                                             col_server_default :=
                                               (fun s => {| arg := ArgStr s |})
                                               <$> rec_default r |})
                    (iter order (dom conn_table ∖ dom cols)) removes
         /\ Forall2 (fun cname e =>
                       exists c r, cols_by_key metadata_table !! cname = Some c
                                   /\ col_key c = cname
                                   /\ conn_table !! cname = Some r
                                   /\ e = column_entry tname cname r c ctx
                                   /\ (e = [] \/ exists g, e = [ColumnGroup g] /\ g <> []))
                    (iter order (dom cols ∩ dom conn_table)) entries.
Proof.
  intros cols.
  assert (Hret : forall out w',
             _compare_columns order tname conn_table metadata_table diffs ctx w
             = (inr out, w') ->
             shared_names_resolve conn_table metadata_table).
  { intros out w' Hrun colname Hc Hr.
    destruct (cols_by_key metadata_table !! colname) eqn:Hk; [eauto|]. exfalso.
    eapply fails_not_returns; [|exact Hrun].
    eapply compare_columns_fails; eassumption. }
  split; [|split].
  - split; [|intros (out & w' & Hrun); eapply Hret; exact Hrun].
    intros Hkeys.
    destruct (compare_columns_yields order tname conn_table metadata_table diffs ctx
                Hkeys w) as [w' Hrun]. eauto.
  - intros e w' Hrun. exact (compare_columns_raises _ _ _ _ _ _ _ _ _ Hrun).
  - intros out w' Hrun. pose proof (Hret _ _ Hrun) as Hkeys.
    destruct (compare_columns_yields order tname conn_table metadata_table diffs ctx
                Hkeys w) as [w1 H1].
    assert (out = diffs ++ column_changes order tname conn_table metadata_table ctx)
      as -> by congruence.
    clear Hrun H1 Hret. unfold column_changes. fold cols.
    set (f := fun cname => match cols_by_key metadata_table !! cname,
                                 conn_table !! cname with
                           | Some c, Some r => column_entry tname cname r c ctx
                           | _, _ => []
                           end).
    exists (iter order (dom cols ∖ dom conn_table) ≫= fun cname =>
              match cols !! cname with Some c => [add_column tname c] | None => [] end),
           (iter order (dom conn_table ∖ dom cols) ≫= fun cname =>
              match conn_table !! cname with
              | Some r => [remove_column tname
                             (schema_Column cname (rec_type r) (rec_nullable r)
                                (rec_default r))]
              | None => []
              end),
           (f <$> iter order (dom cols ∩ dom conn_table)).
    split; [rewrite <- bind_mjoin; reflexivity|].
    split; [|split].
    + apply bind_singletons. intros cname Hin.
      apply (proj1 (elem_of_iter _ _ _)), elem_of_difference in Hin as [Hin _].
      apply elem_of_dom in Hin as [c Hc]. rewrite Hc. eexists. split; [reflexivity|].
      exists c. pose proof Hc as Hc'.
      apply dict_lookup_Some, list_elem_of_fmap in Hc' as (x & [= -> ->] & Hx). auto.
    + apply bind_singletons. intros cname Hin.
      apply (proj1 (elem_of_iter _ _ _)), elem_of_difference in Hin as [Hin _].
      apply elem_of_dom in Hin as [r Hr]. rewrite Hr. eexists. split; [reflexivity|].
      exists r. auto.
    + apply Forall2_fmap_r, Forall_Forall2_diag, Forall_forall. intros cname Hin.
      apply (proj1 (elem_of_iter _ _ _)), elem_of_intersection in Hin as [Hc Hr].
      destruct (Hkeys cname Hc Hr) as [c Hk].
      apply elem_of_dom in Hr as [r Hr].
      exists c, r. unfold f. rewrite Hk, Hr. split; [reflexivity|].
      split.
      { apply dict_lookup_Some, list_elem_of_fmap in Hk as (x & [= -> ->] & _).
        reflexivity. }
      split; [reflexivity|]. split; [reflexivity|].
      unfold column_entry.
      destruct (_ ++ _ ++ _); [left; reflexivity|right].
      eexists. split; [reflexivity|discriminate].
Qed.

(** ** Column groups *)

Lemma type_changes_cases tname cname conn_col metadata_col ctx :
  type_changes tname cname conn_col metadata_col ctx = []
  \/ (type_changes tname cname conn_col metadata_col ctx
      = [type_diff tname cname conn_col metadata_col]
      /\ _type_affinity (rec_type conn_col) <> NullType
      /\ _type_affinity (col_type metadata_col) <> NullType
      /\ compare_type (ac_context ctx) conn_col metadata_col = true).
Proof.
  unfold type_changes.
  destruct (_type_affinity (rec_type conn_col)); simpl; [auto|].
  destruct (_type_affinity (col_type metadata_col)); simpl; [auto|].
  destruct (compare_type _ _ _); [right|auto]. repeat split; discriminate.
Qed.

Lemma nullable_changes_cases tname cname conn_col mn :
  (nullable_changes tname cname conn_col mn = [] /\ rec_nullable conn_col = mn)
  \/ (nullable_changes tname cname conn_col mn = [nullable_diff tname cname conn_col mn]
      /\ rec_nullable conn_col <> mn).
Proof.
  unfold nullable_changes. destruct (decide _) as [H|H]; [auto|left].
  split; [reflexivity|]. destruct (decide (rec_nullable conn_col = mn)); tauto.
Qed.

Lemma default_changes_cases tname cname conn_col metadata_col ctx :
  default_changes tname cname conn_col metadata_col ctx = []
  \/ (default_changes tname cname conn_col metadata_col ctx
      = [default_diff tname cname conn_col metadata_col]
      /\ (rec_default conn_col <> None \/ col_server_default metadata_col <> None)).
Proof.
  unfold default_changes.
  destruct (rec_default conn_col), (col_server_default metadata_col); simpl; auto;
    destruct (compare_server_default _ _ _ _); auto; right; split; auto; left; discriminate.
Qed.

(** The merged keyword dictionary of a group, by what the group holds. *)
Lemma group_kwargs ud tname cname conn_col metadata_col (tc nc dc : list modify_diff) :
  tc = [] \/ tc = [type_diff tname cname conn_col metadata_col] ->
  nc = [] \/ nc = [nullable_diff tname cname conn_col (col_nullable metadata_col)] ->
  dc = [] \/ dc = [default_diff tname cname conn_col metadata_col] ->
  tc ++ nc ++ dc <> [] ->
  let kw := modify_kw ud (tc ++ nc ++ dc) in
  kw !! "type_"
  = match tc with [] => None | _ => Some (PType (type_set ud conn_col metadata_col)) end
  /\ kw !! "existing_type"
     = Some (PType match tc with
                   | [] => rec_type conn_col
                   | _ => type_replaced ud conn_col metadata_col
                   end)
  /\ kw !! "nullable"
     = match nc with [] => None | _ => Some (nullable_set ud conn_col metadata_col) end
  /\ kw !! "existing_nullable"
     = match nc with [] => Some (of_nullable (rec_nullable conn_col)) | _ => None end
  /\ kw !! "server_default"
     = match dc with [] => None | _ => Some (default_set ud conn_col metadata_col) end
  /\ kw !! "existing_server_default"
     = match dc with [] => Some (of_default (rec_default conn_col)) | _ => None end.
Proof.
  intros [->| ->] [->| ->] [->| ->] Hne; try (exfalso; apply Hne; reflexivity);
    destruct ud; vm_compute; repeat split.
Qed.

(** The one call of a column group carries, for each attribute that
    changed, the value its direction sets and no [existing_] value of
    that attribute, and for each attribute that did not change, the
    observed value as its [existing_] value; only [existing_type], which
    the call always has, holds after a type change the type that the
    direction replaces. *)
Theorem merged_kwargs_of_group (ud : updown) (tname cname : string) (conn_col : ColRec)
    (metadata_col : Column) (ctx : autogen_context) :
  let tc := type_changes tname cname conn_col metadata_col ctx in
  let nc := nullable_changes tname cname conn_col (col_nullable metadata_col) in
  let dc := default_changes tname cname conn_col metadata_col ctx in
  let kw := modify_kw ud (tc ++ nc ++ dc) in
  tc ++ nc ++ dc <> [] ->
  kw !! "type_"
  = match tc with [] => None | _ => Some (PType (type_set ud conn_col metadata_col)) end
  /\ kw !! "existing_type"
     = Some (PType match tc with
                   | [] => rec_type conn_col
                   | _ => type_replaced ud conn_col metadata_col
                   end)
  /\ kw !! "nullable"
     = match nc with [] => None | _ => Some (nullable_set ud conn_col metadata_col) end
  /\ kw !! "existing_nullable"
     = match nc with [] => Some (of_nullable (rec_nullable conn_col)) | _ => None end
  /\ kw !! "server_default"
     = match dc with [] => None | _ => Some (default_set ud conn_col metadata_col) end
  /\ kw !! "existing_server_default"
     = match dc with [] => Some (of_default (rec_default conn_col)) | _ => None end.
Proof.
  intros tc nc dc kw Hne.
  apply (group_kwargs ud tname cname conn_col metadata_col); [| | |exact Hne].
  - destruct (type_changes_cases tname cname conn_col metadata_col ctx) as [H|[H _]]; auto.
  - destruct (nullable_changes_cases tname cname conn_col (col_nullable metadata_col))
      as [[H _]|[H _]]; auto.
  - destruct (default_changes_cases tname cname conn_col metadata_col ctx) as [H|[H _]]; auto.
Qed.

Lemma merged_kwargs_of_group_witness :
  type_changes "users" "email" Sample.email_rec Sample.email_col Sample.ctx
  ++ nullable_changes "users" "email" Sample.email_rec (col_nullable Sample.email_col)
  ++ default_changes "users" "email" Sample.email_rec Sample.email_col Sample.ctx <> []
  /\ modify_kw downgrade Sample.email_group !! "existing_type" = Some (PType Sample.VARCHAR)
  /\ modify_kw downgrade Sample.email_group !! "existing_server_default"
     = Some (PStr "'x'").
Proof.
  assert (H : type_changes "users" "email" Sample.email_rec Sample.email_col Sample.ctx
              ++ nullable_changes "users" "email" Sample.email_rec
                   (col_nullable Sample.email_col)
              ++ default_changes "users" "email" Sample.email_rec Sample.email_col
                   Sample.ctx <> []).
  { vm_compute. discriminate. }
  split; [exact H|].
  destruct (merged_kwargs_of_group downgrade "users" "email" Sample.email_rec
              Sample.email_col Sample.ctx H) as (_ & H2 & _ & _ & _ & H6).
  split; [exact H2|exact H6].
Defined.

(** Every group on a diff list that the comparison returns has at
    least one diff and at most one diff of each kind, in the order type,
    nullable, default, and all its diffs are about one column of one
    table. *)
Theorem groups_well_formed (order : SetOrder) (connection : Connection)
    (metadata : MetaData) (ctx : autogen_context) (w : world) :
  (keys_resolve (from_engine connection) metadata
   <-> exists ds w', _produce_net_changes order connection metadata [] ctx w = (inr ds, w'))
  /\ forall ds w',
       _produce_net_changes order connection metadata [] ctx w = (inr ds, w') ->
       forall g, ColumnGroup g ∈ ds ->
         g <> []
         /\ (exists tb nb db : bool,
               md_tag <$> g = (if tb then [modify_type] else [])
                              ++ (if nb then [modify_nullable] else [])
                              ++ (if db then [modify_default] else []))
         /\ exists tname cname,
              Forall (fun m => md_tname m = tname /\ md_cname m = cname) g.
Proof.
  split; [apply keys_resolve_returns|].
  intros ds w' Hrun. apply produce_net_changes_returns in Hrun as [_ ->]. simpl.
  intros g Hg.
  apply net_changes_cases in Hg
    as [(t & _ & Hd)|[(tn & Hd)|[(tn & t & c & _ & _ & Hd)|[(tn & cn & r & _ & Hd)|
        (tn & cn & t & c & r & _ & _ & _ & Hd)]]]]; try discriminate Hd.
  apply column_entry_shape in Hd as (g' & [= <-] & Hne & Hg).
  split; [exact Hne|].
  destruct (type_changes_cases tn cn r c ctx) as [Ht|[Ht _]],
           (nullable_changes_cases tn cn r (col_nullable c)) as [[Hn _]|[Hn _]],
           (default_changes_cases tn cn r c ctx) as [Hd|[Hd _]];
    rewrite Ht, Hn, Hd in Hg; subst g; (split; [|exists tn, cn; repeat constructor]).
  - exists false, false, false. reflexivity.
  - exists false, false, true. reflexivity.
  - exists false, true, false. reflexivity.
  - exists false, true, true. reflexivity.
  - exists true, false, false. reflexivity.
  - exists true, false, true. reflexivity.
  - exists true, true, false. reflexivity.
  - exists true, true, true. reflexivity.
Qed.

(** ** What the comparison does to the world *)

(** For a column found on both sides the type predicate is called once
    when both types have a known affinity and not at all otherwise, then
    the default predicate is called once when some side has a default and
    not at all otherwise, with the rendered declared default; what the
    predicates answer does not change which calls are made. *)
Theorem comparator_calls_of_column (tname cname : string) (conn_col : ColRec)
    (metadata_col : Column) (diffs : list diff) (ctx : autogen_context) (w : world) :
  exists evs,
    (compare_column_attrs tname cname conn_col metadata_col diffs ctx w).2
    = {| w_imports := w_imports w; w_trace := w_trace w ++ evs |}
    /\ calls_of evs
       = (if is_NullType (_type_affinity (rec_type conn_col))
             || is_NullType (_type_affinity (col_type metadata_col))
          then [] else [CompareTypeCall conn_col metadata_col])
         ++ (if bool_decide (rec_default conn_col = None)
                && bool_decide (col_server_default metadata_col = None)
             then []
             else [CompareServerDefaultCall conn_col metadata_col
                     (_render_server_default
                        (of_server_default (col_server_default metadata_col)) ctx)]).
Proof.
  destruct (compare_column_attrs_run tname cname conn_col metadata_col diffs ctx w)
    as (g1 & g2 & g3 & e1 & e2 & e3 & w1 & w2 & H1 & -> & H2 & -> & H3 & Hall).
  exists (e1 ++ e2 ++ e3). rewrite Hall. split; [reflexivity|].
  destruct (compare_type_run tname cname conn_col metadata_col [] ctx w)
    as (o1 & v1 & R1 & C1).
  pose proof (eq_trans (eq_sym R1) H1) as E1. injection E1 as _ E1.
  apply app_inv_head in E1. subst v1.
  destruct (compare_nullable_run tname cname conn_col (col_nullable metadata_col) g1 ctx
              {| w_imports := w_imports w; w_trace := w_trace w ++ e1 |})
    as (o2 & v2 & R2 & C2).
  pose proof (eq_trans (eq_sym R2) H2) as E2. injection E2 as _ E2.
  simpl in E2. rewrite <- app_assoc in E2. do 2 apply app_inv_head in E2. subst v2.
  destruct (compare_server_default_run tname cname conn_col metadata_col (g1 ++ g2) ctx
              {| w_imports := w_imports w; w_trace := w_trace w ++ e1 ++ e2 |})
    as (o3 & v3 & R3 & C3).
  pose proof (eq_trans (eq_sym R3) H3) as E3. injection E3 as _ E3.
  simpl in E3. rewrite <- !app_assoc in E3. do 3 apply app_inv_head in E3. subst v3.
  assert (Hnull : forall a, a <> NullType -> is_NullType a = false).
  { intros [|cls] Ha; [contradiction|reflexivity]. }
  assert (K1 : calls_of e1
               = if is_NullType (_type_affinity (rec_type conn_col))
                    || is_NullType (_type_affinity (col_type metadata_col))
                 then [] else [CompareTypeCall conn_col metadata_col]).
  { destruct C1 as [(Ha & _ & ->)|[(Ha & Hb & _ & ->)|[(Ha & Hb & _ & _ & ->)|
      (Ha & Hb & _ & _ & ->)]]].
    - rewrite Ha. reflexivity.
    - rewrite Hb, orb_true_r. reflexivity.
    - rewrite (Hnull _ Ha), (Hnull _ Hb). reflexivity.
    - rewrite (Hnull _ Ha), (Hnull _ Hb). reflexivity. }
  assert (K2 : calls_of e2 = []).
  { destruct C2 as [(_ & _ & ->)|(_ & _ & (what & ->))]; reflexivity. }
  assert (Hside : forall (A : Type) (x : option A) (B : Type) (y : option B),
             x <> None \/ y <> None ->
             bool_decide (x = None) && bool_decide (y = None) = false).
  { intros A [a|] B [b|] [H|H]; try reflexivity; contradiction. }
  assert (K3 : calls_of e3
               = if bool_decide (rec_default conn_col = None)
                    && bool_decide (col_server_default metadata_col = None)
                 then []
                 else [CompareServerDefaultCall conn_col metadata_col
                         (_render_server_default
                            (of_server_default (col_server_default metadata_col)) ctx)]).
  { destruct C3 as [(Ha & Hb & _ & ->)|[(Hs & _ & _ & ->)|(Hs & _ & _ & ->)]].
    - rewrite Ha, Hb. reflexivity.
    - rewrite (Hside _ _ _ _ Hs). reflexivity.
    - rewrite (Hside _ _ _ _ Hs). reflexivity. }
  unfold calls_of in *. rewrite !List.filter_app, K1, K2, K3. reflexivity.
Qed.

Lemma only_logs_ret {A} (a : A) : only_logs (ret a).
Proof. intros w r w' [= _ <-]. split; [reflexivity|]. exists []. by rewrite app_nil_r. Qed.

Lemma only_logs_raise {A} e : only_logs (@raise A e).
Proof. intros w r w' [= _ <-]. split; [reflexivity|]. exists []. by rewrite app_nil_r. Qed.

Lemma only_logs_emit e : only_logs (emit e).
Proof. intros w r w' [= _ <-]. split; [reflexivity|]. by exists [e]. Qed.

Lemma only_logs_bind {A B} (c : M A) (k : A -> M B) :
  only_logs c -> (forall a, only_logs (k a)) -> only_logs (bind c k).
Proof.
  intros Hc Hk w r w'. unfold bind. destruct (c w) as [[e|a] w1] eqn:H1.
  - intros [= _ <-]. exact (Hc _ _ _ H1).
  - intros H2. destruct (Hc _ _ _ H1) as (Hi1 & evs1 & Ht1).
    destruct (Hk _ _ _ _ H2) as (Hi2 & evs2 & Ht2).
    split; [congruence|]. exists (evs1 ++ evs2). rewrite Ht2, Ht1, app_assoc. reflexivity.
Qed.

Lemma only_logs_getitem {V} (d : gmap string V) k : only_logs (getitem d k).
Proof. unfold getitem. destruct (d !! k); [apply only_logs_ret|apply only_logs_raise]. Qed.

Lemma only_logs_for_each {A S} (l : list A) (body : A -> S -> M S) :
  (forall x s, only_logs (body x s)) -> forall s, only_logs (for_each l body s).
Proof.
  intros Hb. induction l as [|x l IH]; intros s; simpl; [apply only_logs_ret|].
  apply only_logs_bind; [apply Hb|exact IH].
Qed.

Ltac only_logs_step :=
  first [ apply only_logs_ret | apply only_logs_raise | apply only_logs_emit
        | apply only_logs_getitem
        | apply only_logs_bind; [|intros]
        | apply only_logs_for_each; intros ].

Lemma only_logs_compare_column_attrs tname cname conn_col metadata_col diffs ctx :
  only_logs (compare_column_attrs tname cname conn_col metadata_col diffs ctx).
Proof.
  unfold compare_column_attrs, _compare_type, _compare_nullable, _compare_server_default,
    log_info.
  apply only_logs_bind.
  { repeat match goal with
           | |- only_logs (if ?b then _ else _) => destruct b
           | |- _ => only_logs_step
           end. }
  intros g1. apply only_logs_bind.
  { repeat match goal with
           | |- only_logs (if ?b then _ else _) => destruct b
           | |- _ => only_logs_step
           end. }
  intros g2. apply only_logs_bind.
  { repeat match goal with
           | |- only_logs (if ?b then _ else _) => destruct b
           | |- _ => only_logs_step
           end. }
  intros g3. destruct g3; apply only_logs_ret.
Qed.

Lemma only_logs_produce_net_changes order connection metadata diffs ctx :
  only_logs (_produce_net_changes order connection metadata diffs ctx).
Proof.
  unfold _produce_net_changes, _compare_tables, _compare_columns, log_info.
  repeat match goal with
         | |- only_logs (compare_column_attrs _ _ _ _ _ _) =>
             apply only_logs_compare_column_attrs
         | |- only_logs (let '(_, _) := ?p in _) => destruct p
         | |- _ => only_logs_step
         end.
Qed.

(** The comparison returns exactly when its lookups of declared columns
    by key find their columns, and otherwise raises a key error, nothing
    else.  When it returns, it keeps the diffs it is given at the head of
    the list, and what it appends does not depend on them nor on the world
    it starts in.  Returning or raising, it leaves the imports alone: all
    it does to the world is to add events to the trace. *)
Theorem comparison_effects (order : SetOrder) (connection : Connection)
    (metadata : MetaData) (diffs : list diff) (ctx : autogen_context) (w : world) :
  let run := _produce_net_changes order connection metadata diffs ctx w in
  (exists evs, run.2 = {| w_imports := w_imports w; w_trace := w_trace w ++ evs |})
  /\ (keys_resolve (from_engine connection) metadata ->
      run.1 = inr (diffs ++ net_changes order connection metadata ctx))
  /\ (forall ds, run.1 = inr ds ->
                 keys_resolve (from_engine connection) metadata
                 /\ ds = diffs ++ net_changes order connection metadata ctx)
  /\ (forall e, run.1 = inl e ->
                (exists k, e = KeyError k)
                /\ ~ keys_resolve (from_engine connection) metadata).
Proof.
  intros run. subst run.
  destruct (_produce_net_changes order connection metadata diffs ctx w) as [r w'] eqn:Hrun.
  simpl. split; [|split; [|split]].
  - destruct (only_logs_produce_net_changes order connection metadata diffs ctx _ _ _ Hrun)
      as (Hi & evs & Ht).
    exists evs. destruct w'. simpl in *. subst. reflexivity.
  - intros Hkeys.
    destruct (produce_net_changes_yields order connection metadata diffs ctx Hkeys w)
      as [w1 H1]. congruence.
  - intros ds ->. eapply produce_net_changes_returns. exact Hrun.
  - intros e ->. split.
    + exact (produce_net_changes_raises _ _ _ _ _ _ _ _ Hrun).
    + intros Hkeys.
      destruct (produce_net_changes_yields order connection metadata diffs ctx Hkeys w)
        as [w1 H1]. congruence.
Qed.

(** ** What the rendering does to the world *)

Lemma take_word_idem s : Py.take_word (Py.take_word s) = Py.take_word s.
Proof.
  induction s as [|c s IH]; [reflexivity|]. simpl.
  destruct (Py.is_word c) eqn:Hc; [|reflexivity]. simpl. rewrite Hc, IH. reflexivity.
Qed.

Lemma only_imports_ret {A} (a : A) : only_imports (ret a).
Proof. intros w r w' [= _ <-]. repeat split; [reflexivity|]. intros; contradiction. Qed.

Lemma only_imports_raise {A} e : only_imports (@raise A e).
Proof. intros w r w' [= _ <-]. repeat split; [reflexivity|]. intros; contradiction. Qed.

Lemma only_imports_bind {A B} (c : M A) (k : A -> M B) :
  only_imports c -> (forall a, only_imports (k a)) -> only_imports (bind c k).
Proof.
  intros Hc Hk w r w'. unfold bind. destruct (c w) as [[e|a] w1] eqn:H1.
  - intros [= _ <-]. exact (Hc _ _ _ H1).
  - intros H2. destruct (Hc _ _ _ H1) as (Ht1 & Hs1 & Hn1).
    destruct (Hk _ _ _ _ H2) as (Ht2 & Hs2 & Hn2).
    split; [congruence|]. split; [set_solver|].
    intros line Hin Hnot. destruct (decide (line ∈ w_imports w1)); auto.
Qed.

Lemma only_imports_map_M {A B} (f : A -> M B) (l : list A) :
  (forall x, only_imports (f x)) -> only_imports (map_M f l).
Proof.
  intros Hf. induction l as [|x l IH]; simpl; [apply only_imports_ret|].
  apply only_imports_bind; [apply Hf|]. intros y.
  apply only_imports_bind; [exact IH|]. intros ys. apply only_imports_ret.
Qed.

Lemma only_imports_repr_type prefix v ctx : only_imports (_repr_type prefix v ctx).
Proof.
  unfold _repr_type. destruct (Py.startswith _ _); [|apply only_imports_ret].
  unfold dialect_name. destruct (Py.strip_prefix _ _) as [rest|].
  - destruct (Py.take_word rest) as [|c dname] eqn:Hw.
    + intros w r w' [= _ <-]. repeat split; [reflexivity|]. intros; contradiction.
    + intros w r w' [= _ <-]. simpl. split; [reflexivity|]. split; [set_solver|].
      intros line Hin Hnot. apply elem_of_union in Hin as [Hin|Hin]; [|contradiction].
      apply elem_of_singleton in Hin. subst line. exists c, dname.
      split; [reflexivity|]. rewrite <- Hw. apply take_word_idem.
  - intros w r w' [= _ <-]. repeat split; [reflexivity|]. intros; contradiction.
Qed.

Lemma only_imports_invoke_command ud d ctx : only_imports (_invoke_command ud d ctx).
Proof.
  assert (Hcol : forall column, only_imports (_render_column column ctx)).
  { intros column. unfold _render_column.
    apply only_imports_bind; [apply only_imports_repr_type|].
    intros; apply only_imports_ret. }
  destruct d as [a args|g]; simpl.
  - assert (H1 : only_imports ((_commands args).1 ctx)).
    { destruct args; simpl; apply only_imports_ret. }
    assert (H2 : only_imports ((_commands args).2 ctx)).
    { destruct args; simpl.
      - unfold _add_table. apply only_imports_bind; [|intros; apply only_imports_ret].
        apply only_imports_map_M. exact Hcol.
      - unfold _add_column. apply only_imports_bind; [apply Hcol|].
        intros; apply only_imports_ret. }
    unfold _invoke_adddrop_command. destruct ud, a; assumption.
  - unfold _invoke_modify_command. destruct g as [|first rest].
    + apply only_imports_raise.
    + unfold _modify_col, _modify_col_fields.
      apply only_imports_bind; [|intros; apply only_imports_ret].
      apply only_imports_bind; [apply only_imports_repr_type|]. intros s.
      apply only_imports_bind; [|intros; apply only_imports_ret].
      destruct (negb _); [|apply only_imports_ret].
      apply only_imports_bind; [apply only_imports_repr_type|].
      intros; apply only_imports_ret.
Qed.

(** Rendering the commands of a direction logs nothing and calls no
    comparison predicate; it never takes a line out of the imports, and
    every line it adds imports a dialect of [sqlalchemy.dialects] whose
    name is a word, also when the rendering ends in an exception. *)
Theorem rendering_effects (ud : updown) (diffs : list diff) (ctx : autogen_context)
    (w : world) :
  let w' := (produce_commands ud diffs ctx w).2 in
  w_trace w' = w_trace w
  /\ w_imports w ⊆ w_imports w'
  /\ forall line, line ∈ w_imports w' -> line ∉ w_imports w ->
        exists c dname,
          line = "from sqlalchemy.dialects import " +:+ String c dname
          /\ Py.take_word (String c dname) = String c dname.
Proof.
  assert (H : only_imports (produce_commands ud diffs ctx)).
  { rewrite produce_commands_render_all.
    apply only_imports_bind; [|intros; apply only_imports_ret].
    apply only_imports_map_M. intros d. apply only_imports_invoke_command. }
  intros w'. subst w'.
  destruct (produce_commands ud diffs ctx w) as [r w'] eqn:Hrun.
  exact (H _ _ _ Hrun).
Qed.

(** ** When a run fails and when it succeeds *)

Lemma repr_type_raises_attribute prefix v ctx :
  raises_only (fun e => e = AttributeError) (_repr_type prefix v ctx).
Proof.
  unfold _repr_type. destruct (Py.startswith _ _); [|apply raises_only_ret].
  apply raises_only_bind.
  - unfold dialect_name. destruct (Py.strip_prefix _ _) as [rest|];
      [destruct (Py.take_word rest); [|apply raises_only_ret]|];
      apply raises_only_raise; reflexivity.
  - intros dname. apply raises_only_bind; [|intros; apply raises_only_ret].
    intros w e w' H. discriminate H.
Qed.

Lemma raises_only_map_M_in {A B} P (f : A -> M B) (l : list A) :
  (forall x, x ∈ l -> raises_only P (f x)) -> raises_only P (map_M f l).
Proof.
  induction l as [|x l IH]; intros Hf; simpl; [apply raises_only_ret|].
  apply raises_only_bind; [apply Hf; left|]. intros y.
  apply raises_only_bind; [|intros; apply raises_only_ret].
  apply IH. intros z Hz. apply Hf. by right.
Qed.

Lemma invoke_command_raises_attribute ud d ctx :
  d <> ColumnGroup [] ->
  raises_only (fun e => e = AttributeError) (_invoke_command ud d ctx).
Proof.
  intros Hd.
  assert (Hcol : forall column,
             raises_only (fun e => e = AttributeError) (_render_column column ctx)).
  { intros column. unfold _render_column.
    apply raises_only_bind; [apply repr_type_raises_attribute|].
    intros; apply raises_only_ret. }
  destruct d as [a args|g]; simpl.
  - assert (H1 : raises_only (fun e => e = AttributeError) ((_commands args).1 ctx)).
    { destruct args; simpl; apply raises_only_ret. }
    assert (H2 : raises_only (fun e => e = AttributeError) ((_commands args).2 ctx)).
    { destruct args; simpl.
      - unfold _add_table. apply raises_only_bind; [|intros; apply raises_only_ret].
        apply raises_only_map_M. exact Hcol.
      - unfold _add_column. apply raises_only_bind; [apply Hcol|].
        intros; apply raises_only_ret. }
    unfold _invoke_adddrop_command. destruct ud, a; assumption.
  - unfold _invoke_modify_command. destruct g as [|first rest]; [contradiction|].
    unfold _modify_col, _modify_col_fields.
    apply raises_only_bind; [|intros; apply raises_only_ret].
    apply raises_only_bind; [apply repr_type_raises_attribute|]. intros s.
    apply raises_only_bind; [|intros; apply raises_only_ret].
    destruct (negb _); [|apply raises_only_ret].
    apply raises_only_bind; [apply repr_type_raises_attribute|].
    intros; apply raises_only_ret.
Qed.

Lemma net_changes_no_empty_group order connection metadata ctx d :
  d ∈ net_changes order connection metadata ctx -> d <> ColumnGroup [].
Proof.
  intros Hd ->.
  apply net_changes_cases in Hd
    as [(t & _ & Hd)|[(tn & Hd)|[(tn & t & c & _ & _ & Hd)|[(tn & cn & r & _ & Hd)|
        (tn & cn & t & c & r & _ & _ & _ & Hd)]]]]; try discriminate Hd.
  apply column_entry_shape in Hd as (g' & [= <-] & Hne & _). contradiction.
Qed.

(** A run fails in three ways only: without target metadata, with the
    command error; with target metadata, with the key error of the lookup
    of a declared column by key, exactly when some column name found on
    both sides is not a key of the column collection of its declared
    table; and, when these lookups find their columns, with the attribute
    error of a type whose module starts with [sqlalchemy.dialects] and
    names no dialect.  The index error of a group without a diff does not
    occur, since the comparison puts no such group on the list. *)
Theorem run_failures (order : SetOrder) (context : MigrationContext)
    (template_args : gmap string string) (w : world) (e : exn) (w' : world) :
  produce_migration_diffs order context template_args w = (inl e, w') ->
  (target_metadata (context_opts context) = None /\ exists msg, e = CommandError msg)
  \/ (exists metadata,
        target_metadata (context_opts context) = Some metadata
        /\ ~ keys_resolve (from_engine (context_bind context)) metadata
        /\ exists k, e = KeyError k)
  \/ (exists metadata,
        target_metadata (context_opts context) = Some metadata
        /\ keys_resolve (from_engine (context_bind context)) metadata
        /\ e = AttributeError).
Proof.
  unfold produce_migration_diffs.
  destruct (target_metadata (context_opts context)) as [metadata|] eqn:Hm.
  - intros H. right.
    set (ctx := {| ac_connection := context_bind context; ac_dialect := _;
                   ac_context := context; ac_opts := context_opts context |}) in *.
    destruct (_produce_net_changes order (context_bind context) metadata [] ctx w)
      as [[e1|ds] w1] eqn:Hrun.
    + left. exists metadata. split; [reflexivity|].
      rewrite (bind_run_err _ _ _ _ _ Hrun) in H. injection H as <- _. split.
      * intros Hkeys.
        destruct (produce_net_changes_yields order (context_bind context) metadata []
                    ctx Hkeys w) as [w2 H2]. congruence.
      * exact (produce_net_changes_raises _ _ _ _ _ _ _ _ Hrun).
    + right. exists metadata. split; [reflexivity|].
      destruct (produce_net_changes_returns _ _ _ _ _ _ _ _ Hrun) as [Hkeys ->].
      split; [exact Hkeys|].
      simpl in Hrun. rewrite (bind_run _ _ _ _ _ Hrun) in H. simpl in H.
      assert (Hr : forall ud, raises_only (fun e => e = AttributeError)
                     (produce_commands ud
                        (net_changes order (context_bind context) metadata ctx) ctx)).
      { intros ud. rewrite produce_commands_render_all.
        apply raises_only_bind; [|intros; apply raises_only_ret].
        apply raises_only_map_M_in. intros d Hd.
        apply invoke_command_raises_attribute.
        eapply net_changes_no_empty_group. exact Hd. }
      refine (raises_only_bind (fun e => e = AttributeError) _ _ (Hr upgrade) _ _ _ _ H).
      intros up.
      apply raises_only_bind; [apply (Hr downgrade)|]. intros down.
      apply raises_only_bind; [|intros; apply raises_only_ret].
      intros w2 e2 w3 Hg. discriminate Hg.
  - intros [= <- _]. left. eauto.
Qed.

Lemma run_failures_witness :
  let context := Sample.context_of (Some {| metadata_tables := [Sample.odd_table] |}) [] in
  produce_migration_diffs Sample.hash_order context ∅ Sample.w0
  = (inl AttributeError,
     {| w_imports := ∅; w_trace := [LogInfo (DetectedAddedTable "odd")] |})
  /\ target_metadata (context_opts context) <> None.
Proof.
  intros context.
  assert (H : produce_migration_diffs Sample.hash_order context ∅ Sample.w0
              = (inl AttributeError,
                 {| w_imports := ∅; w_trace := [LogInfo (DetectedAddedTable "odd")] |})).
  { vm_compute. reflexivity. }
  split; [exact H|].
  destruct (run_failures Sample.hash_order context ∅ Sample.w0 _ _ H)
    as [[_ [msg Hn]]|[(m & Hm & _)|(m & Hm & _)]];
    [discriminate Hn|rewrite Hm; discriminate..].
Defined.

(** A declared column [email] held under the key [mail]: the lookup of
    the name in the column collection raises the key error. *)
Example run_with_renamed_key :
  let context := Sample.context_of (Some {| metadata_tables := [Sample.keyed_users] |})
                   ["users"] in
  (produce_migration_diffs Sample.hash_order context ∅ Sample.w0).1
  = inl (KeyError "email").
Proof. vm_compute. reflexivity. Qed.

Lemma succeeds_ret {A} (a : A) : succeeds (ret a).
Proof. intros w. exists a, w. reflexivity. Qed.

Lemma succeeds_bind {A B} (c : M A) (k : A -> M B) :
  succeeds c -> (forall a, succeeds (k a)) -> succeeds (bind c k).
Proof.
  intros Hc Hk w. destruct (Hc w) as (a & w1 & H1). destruct (Hk a w1) as (b & w2 & H2).
  exists b, w2. rewrite (bind_run _ _ _ _ _ H1). exact H2.
Qed.

Lemma succeeds_map_M {A B} (f : A -> M B) (l : list A) :
  (forall x, x ∈ l -> succeeds (f x)) -> succeeds (map_M f l).
Proof.
  induction l as [|x l IH]; intros Hf; simpl; [apply succeeds_ret|].
  apply succeeds_bind; [apply Hf; left|]. intros y.
  apply succeeds_bind; [|intros; apply succeeds_ret].
  apply IH. intros z Hz. apply Hf. by right.
Qed.

Lemma succeeds_repr_type prefix v ctx :
  module_ok (py_module v) -> succeeds (_repr_type prefix v ctx).
Proof.
  intros Hok w. destruct (repr_type_run prefix v ctx w Hok) as [w' H]. eauto.
Qed.

Lemma succeeds_render_column column ctx :
  module_ok (ty_module (col_type column)) -> succeeds (_render_column column ctx).
Proof.
  intros Hok. unfold _render_column.
  apply succeeds_bind; [apply succeeds_repr_type; exact Hok|intros; apply succeeds_ret].
Qed.

Lemma succeeds_table ud a t ctx :
  (forall c, c ∈ tbl_c t -> module_ok (ty_module (col_type c))) ->
  succeeds (_invoke_command ud (AddDrop a (TableArgs t)) ctx).
Proof.
  intros Hok.
  assert (Hadd : succeeds (_add_table t ctx)).
  { unfold _add_table. apply succeeds_bind; [|intros; apply succeeds_ret].
    apply succeeds_map_M. intros c Hc. apply succeeds_render_column. auto. }
  assert (Hdrop : succeeds (_drop_table t ctx)) by apply succeeds_ret.
  destruct ud, a; assumption.
Qed.

Lemma succeeds_column ud a tname c ctx :
  module_ok (ty_module (col_type c)) ->
  succeeds (_invoke_command ud (AddDrop a (ColumnArgs tname c)) ctx).
Proof.
  intros Hok.
  assert (Hadd : succeeds (_add_column tname c ctx)).
  { unfold _add_column.
    apply succeeds_bind; [apply succeeds_render_column; exact Hok|].
    intros; apply succeeds_ret. }
  assert (Hdrop : succeeds (_drop_column tname c ctx)) by apply succeeds_ret.
  destruct ud, a; assumption.
Qed.

Lemma succeeds_group ud tname cname conn_col metadata_col ctx d :
  module_ok (ty_module (rec_type conn_col)) ->
  module_ok (ty_module (col_type metadata_col)) ->
  d ∈ column_entry tname cname conn_col metadata_col ctx ->
  succeeds (_invoke_command ud d ctx).
Proof.
  intros Hr Hc Hd. apply column_entry_shape in Hd as (g & -> & Hne & Hg).
  assert (Hkw : exists t1,
             modify_kw ud g !! "existing_type" = Some (PType t1)
             /\ module_ok (ty_module t1)
             /\ (modify_kw ud g !! "type_" = None
                 \/ exists t2, modify_kw ud g !! "type_" = Some (PType t2)
                               /\ module_ok (ty_module t2))).
  { rewrite Hg in Hne |- *.
    destruct (group_kwargs ud tname cname conn_col metadata_col
                (type_changes tname cname conn_col metadata_col ctx)
                (nullable_changes tname cname conn_col (col_nullable metadata_col))
                (default_changes tname cname conn_col metadata_col ctx))
      as (K1 & K2 & _); [| | |exact Hne|].
    - destruct (type_changes_cases tname cname conn_col metadata_col ctx) as [H|[H _]]; auto.
    - destruct (nullable_changes_cases tname cname conn_col (col_nullable metadata_col))
        as [[H _]|[H _]]; auto.
    - destruct (default_changes_cases tname cname conn_col metadata_col ctx)
        as [H|[H _]]; auto.
    - eexists. split; [exact K2|].
      destruct (type_changes tname cname conn_col metadata_col ctx).
      + split; [exact Hr|left; exact K1].
      + split; [destruct ud; assumption|right].
        eexists. split; [exact K1|destruct ud; assumption]. }
  destruct Hkw as (t1 & K2 & Ht1 & K1).
  simpl. destruct g as [|first rest]; [contradiction|].
  unfold _invoke_modify_command, _modify_col.
  apply succeeds_bind; [|intros; apply succeeds_ret].
  intros w.
  destruct (modify_col_fields_run ctx
              (kwarg (modify_kw ud (first :: rest)) "server_default" (PBool false))
              (kwarg (modify_kw ud (first :: rest)) "type_" PNone)
              (kwarg (modify_kw ud (first :: rest)) "nullable" PNone)
              (kwarg (modify_kw ud (first :: rest)) "existing_type" PNone)
              (kwarg (modify_kw ud (first :: rest)) "existing_nullable" PNone)
              (kwarg (modify_kw ud (first :: rest)) "existing_server_default" (PBool false))
              w) as (fields & w' & H); [| |eauto].
  - unfold kwarg. rewrite K2. exact Ht1.
  - unfold kwarg. destruct K1 as [K1|(t2 & K1 & Ht2)]; rewrite K1;
      [exact module_ok_builtin|exact Ht2].
Qed.

(** With target metadata, with every column name found on both sides a
    key of the column collection of its declared table, and with every
    type of the declared columns, of the observed columns and of the
    reflected tables in a module where [_repr_type] finds what it looks
    for, a run returns: its diff list is
    the one of the comparison, the two rendered sequences go under the
    upgrade and the downgrade token, the sorted import lines under
    [imports], and the other template arguments stay. *)
Theorem run_succeeds (order : SetOrder) (context : MigrationContext)
    (metadata : MetaData) (template_args : gmap string string) (w : world) :
  target_metadata (context_opts context) = Some metadata ->
  keys_resolve (from_engine (context_bind context)) metadata ->
  schema_types_ok (from_engine (context_bind context)) metadata ->
  exists r w' up down,
    produce_migration_diffs order context template_args w = (inr r, w')
    /\ run_diffs r
       = net_changes order (context_bind context) metadata (autogen_context_of context)
    /\ run_template_args r
       = <["imports" := Py.join Py.nl (Py.sorted (iter order (w_imports w')))]>
           (<[downgrade_token (context_opts context) := _indent down]>
              (<[upgrade_token (context_opts context) := _indent up]> template_args))
    /\ (exists wa wb, _produce_upgrade_commands (run_diffs r) (autogen_context_of context) wa
                      = (inr up, wb))
    /\ (exists wa wb, _produce_downgrade_commands (run_diffs r) (autogen_context_of context) wa
                      = (inr down, wb))
    /\ forall k, k <> "imports" -> k <> upgrade_token (context_opts context) ->
                 k <> downgrade_token (context_opts context) ->
                 run_template_args r !! k = template_args !! k.
Proof.
  intros Hm Hkeys (Hdecl & Hobs & Hrefl).
  set (ctx := autogen_context_of context).
  set (ds := net_changes order (context_bind context) metadata ctx).
  assert (Hall : forall ud, Forall (renders ud ctx) ds).
  { intros ud. apply Forall_forall. intros d Hd.
    apply net_changes_cases in Hd
      as [(t & Ht & ->)|[(tn & ->)|[(tn & t & c & Ht & Hc & ->)|[(tn & cn & r & Hr & ->)|
          (tn & cn & t & c & r & Ht & Hc & Hr & Hd)]]]].
    - apply succeeds_table. intros c Hc. eapply Hdecl; eassumption.
    - apply succeeds_table. intros c Hc. eapply Hrefl. exact Hc.
    - apply succeeds_column. eapply Hdecl; eassumption.
    - apply succeeds_column. simpl. eapply Hobs. exact Hr.
    - eapply succeeds_group; [| |exact Hd]; [eapply Hobs|eapply Hdecl]; eassumption. }
  destruct (produce_net_changes_yields order (context_bind context) metadata [] ctx Hkeys w)
    as [w1 Hrun].
  destruct (render_all_run upgrade ctx ds (Hall upgrade) w1) as (ubuf & w2 & Hup).
  destruct (render_all_run downgrade ctx ds (Hall downgrade) w2) as (dbuf & w3 & Hdown).
  assert (Hup' : _produce_upgrade_commands ds ctx w1 = (inr (join_commands ubuf), w2)).
  { unfold _produce_upgrade_commands. rewrite (bind_run _ _ _ _ _ Hup). reflexivity. }
  assert (Hdown' : _produce_downgrade_commands ds ctx w2 = (inr (join_commands dbuf), w3)).
  { unfold _produce_downgrade_commands. rewrite (bind_run _ _ _ _ _ Hdown). reflexivity. }
  eexists _, w3, (join_commands ubuf), (join_commands dbuf).
  split.
  { unfold produce_migration_diffs. rewrite Hm.
    change {| ac_connection := context_bind context;
              ac_dialect := dialect (context_bind context);
              ac_context := context; ac_opts := context_opts context |} with ctx.
    simpl in Hrun. rewrite (bind_run _ _ _ _ _ Hrun).
    rewrite (bind_run _ _ _ _ _ Hup'), (bind_run _ _ _ _ _ Hdown'). reflexivity. }
  simpl. split; [reflexivity|]. split; [reflexivity|].
  split; [eauto|]. split; [eauto|].
  intros k H1 H2 H3. rewrite !lookup_insert_ne by congruence. reflexivity.
Qed.

Lemma run_succeeds_witness :
  let declared := {| metadata_tables := [Sample.users] |} in
  let context := Sample.context_of (Some declared) ["users"; "alembic_version"] in
  (target_metadata (context_opts context) = Some declared
   /\ keys_resolve (from_engine (context_bind context)) declared
   /\ schema_types_ok (from_engine (context_bind context)) declared)
  /\ exists r w',
       produce_migration_diffs Sample.hash_order context ∅ Sample.w0 = (inr r, w')
       /\ run_diffs r
          = net_changes Sample.hash_order (context_bind context) declared
              (autogen_context_of context).
Proof.
  intros declared context.
  assert (H1 : target_metadata (context_opts context) = Some declared) by reflexivity.
  assert (Hk : keys_resolve (from_engine (context_bind context)) declared).
  { apply keys_are_names_resolve. intros t c Ht Hc.
    apply list_elem_of_singleton in Ht. subst t. simpl in Hc.
    apply elem_of_cons in Hc as [->|Hc]; [reflexivity|].
    apply list_elem_of_singleton in Hc. subst c. reflexivity. }
  assert (H2 : schema_types_ok (from_engine (context_bind context)) declared).
  { split; [|split].
    - intros t c Ht Hc. apply list_elem_of_singleton in Ht. subst t.
      simpl in Hc. apply elem_of_cons in Hc as [->|Hc];
        [exact module_ok_INTEGER|].
      apply list_elem_of_singleton in Hc. subst c. exact module_ok_VARCHAR.
    - intros tname r Hr. simpl in Hr.
      destruct (String.eqb tname "users");
        repeat (apply elem_of_cons in Hr as [->|Hr]; [exact module_ok_INTEGER|]);
        inversion Hr.
    - intros tname c Hc. simpl in Hc. apply list_elem_of_singleton in Hc. subst c.
      exact module_ok_INTEGER. }
  split; [auto|].
  destruct (run_succeeds Sample.hash_order context declared ∅ Sample.w0 H1 Hk H2)
    as (r & w' & up & down & Hrun & Hd & _).
  exists r, w'. auto.
Defined.

(** ** A column that only the database has *)

(** For a column found in the database only, the upgrade command drops
    the column by its name, and the downgrade command adds a column of the
    observed type, with the observed default between quotes when there is
    one that is not the empty text, and with the observed nullable flag
    when it is known. *)
Theorem removed_column_commands (tname cname : string) (r : ColRec)
    (ctx : autogen_context) (w : world) :
  module_ok (ty_module (rec_type r)) ->
  let d := remove_column tname
             (schema_Column cname (rec_type r) (rec_nullable r) (rec_default r)) in
  let opts :=
    match rec_default r with
    | Some s => ["server_default='" +:+ Py.sub_outer_quotes s +:+ "'"]
    | None => []
    end
    ++ match rec_nullable r with
       | Some b => ["nullable=" +:+ Py.repr_bool b]
       | None => []
       end in
  _invoke_command upgrade d ctx w
  = (inr (_alembic_autogenerate_prefix ctx +:+ "drop_column(" +:+ Py.repr_str tname +:+ ", "
          +:+ Py.repr_str cname +:+ ")"), w)
  /\ exists w',
       _invoke_command downgrade d ctx w
       = (inr (_alembic_autogenerate_prefix ctx +:+ "add_column(" +:+ Py.repr_str tname
               +:+ ", "
               +:+ (_sqlalchemy_autogenerate_prefix ctx +:+ "Column(" +:+ Py.repr_str cname
                    +:+ ", "
                    +:+ repr_type_text (_sqlalchemy_autogenerate_prefix ctx)
                          (PType (rec_type r))
                    +:+ ", " +:+ Py.join ", " opts +:+ ")")
               +:+ ")"), w').
Proof.
  intros Hok d opts. split; [reflexivity|].
  destruct (repr_type_run (_sqlalchemy_autogenerate_prefix ctx) (PType (rec_type r)) ctx w Hok)
    as [w' Hty].
  exists w'. subst d opts. simpl.
  unfold _invoke_adddrop_command, _add_column, _render_column. simpl.
  unfold bind at 1. unfold bind at 1. simpl in Hty. rewrite Hty.
  destruct (rec_default r) as [s|], (rec_nullable r) as [b|]; reflexivity.
Qed.

Lemma removed_column_commands_witness :
  module_ok (ty_module (rec_type Sample.email_rec))
  /\ Sample.result_of
       (_invoke_command downgrade
          (remove_column "users"
             (schema_Column "email" (rec_type Sample.email_rec)
                (rec_nullable Sample.email_rec) (rec_default Sample.email_rec)))
          Sample.ctx)
     = Some "op.add_column('users', sa.Column('email', sa.INTEGER(), server_default='x', nullable=True))".
Proof.
  split; [exact module_ok_INTEGER|].
  destruct (removed_column_commands "users" "email" Sample.email_rec Sample.ctx Sample.w0
              module_ok_INTEGER) as [_ [w' H]].
  unfold Sample.result_of. rewrite H. reflexivity.
Defined.

(** ** Schemas that agree *)

Lemma bind_nil {A B} (f : A -> list B) (l : list A) :
  (forall x, x ∈ l -> f x = []) -> l ≫= f = [].
Proof.
  induction l as [|x l IH]; intros H; csimpl; [reflexivity|].
  rewrite (H x) by left. rewrite IH; [reflexivity|]. intros y Hy. apply H. by right.
Qed.

Lemma iter_empty (order : SetOrder) : iter order ∅ = [].
Proof. apply Permutation_nil_r. rewrite (iter_perm order ∅), elements_empty. reflexivity. Qed.

(** When the declared tables are the observed ones, every such table has
    the observed column names, every observed name is a key of the column
    collection of its declared table, and the column found under it
    differs from the observed one in no type, nullable flag or default,
    the diff list of a run is empty and both command sequences are the
    marker [pass], whatever the order of the sets. *)
Theorem agreeing_schemas_give_pass (order : SetOrder) (context : MigrationContext)
    (metadata : MetaData) (template_args : gmap string string) (w : world) :
  let inspector := from_engine (context_bind context) in
  let ctx := autogen_context_of context in
  target_metadata (context_opts context) = Some metadata ->
  dom (tables metadata) = conn_names inspector ->
  (forall tname t,
      tables metadata !! tname = Some t ->
      dom (cols_by_name t) = dom (observed_columns inspector tname)
      /\ forall cname r,
           observed_columns inspector tname !! cname = Some r ->
           exists c, cols_by_key t !! cname = Some c
                     /\ column_entry tname cname r c ctx = []) ->
  net_changes order (context_bind context) metadata ctx = []
  /\ exists evs,
       produce_migration_diffs order context template_args w
       = (inr {| run_diffs := [];
                 run_template_args :=
                   <["imports" := Py.join Py.nl (Py.sorted (iter order (w_imports w)))]>
                     (<[downgrade_token (context_opts context) := _indent "pass"]>
                        (<[upgrade_token (context_opts context) := _indent "pass"]>
                           template_args)) |},
          {| w_imports := w_imports w; w_trace := w_trace w ++ evs |}).
Proof.
  intros inspector ctx Hm Htab Hcols.
  assert (Hnet : net_changes order (context_bind context) metadata ctx = []).
  { unfold net_changes, table_changes. fold inspector. rewrite Htab.
    rewrite !difference_diag_L, iter_empty. csimpl.
    apply bind_nil. intros tname _. unfold existing_table_changes.
    destruct (tables metadata !! tname) as [t|] eqn:Ht; [|reflexivity].
    destruct (Hcols tname t Ht) as [Hdom Hsame].
    unfold column_changes. rewrite Hdom, !difference_diag_L, iter_empty. csimpl.
    apply bind_nil. intros cname _.
    destruct (observed_columns inspector tname !! cname) as [r|] eqn:Hr;
      [|destruct (cols_by_key t !! cname); reflexivity].
    destruct (Hsame cname r Hr) as (c & -> & Hc). exact Hc. }
  split; [exact Hnet|].
  assert (Hkeys : keys_resolve inspector metadata).
  { intros tname t _ Ht cname _ Hin. destruct (Hcols tname t Ht) as [_ Hsame].
    apply elem_of_dom in Hin as [r Hr].
    destruct (Hsame cname r Hr) as (c & Hc & _). eauto. }
  destruct (produce_net_changes_yields order (context_bind context) metadata [] ctx Hkeys w)
    as [w1 Hrun].
  destruct (only_logs_produce_net_changes _ _ _ _ _ _ _ _ Hrun) as (Hi & evs & Ht).
  exists evs. unfold produce_migration_diffs. rewrite Hm.
  change {| ac_connection := context_bind context;
            ac_dialect := dialect (context_bind context);
            ac_context := context; ac_opts := context_opts context |} with ctx.
  simpl in Hrun. rewrite Hnet in Hrun. rewrite (bind_run _ _ _ _ _ Hrun).
  destruct w1 as [i1 t1]. simpl in Hi, Ht. subst i1 t1. reflexivity.
Qed.

Lemma agreeing_schemas_give_pass_witness :
  let declared := {| metadata_tables := [Sample.table_named "account"] |} in
  let context := Sample.context_of (Some declared) ["account"; "alembic_version"] in
  net_changes Sample.hash_order (context_bind context) declared (autogen_context_of context)
  = []
  /\ (run_template_args <$> Sample.result_of
        (produce_migration_diffs Sample.hash_order context ∅))
     = Some (<["imports" := EmptyString]>
               (<["downgrades" := _indent "pass"]> (<["upgrades" := _indent "pass"]> ∅))).
Proof.
  intros declared context.
  assert (H1 : target_metadata (context_opts context) = Some declared) by reflexivity.
  assert (H2 : dom (tables declared) = conn_names (from_engine (context_bind context))).
  { vm_compute. reflexivity. }
  assert (H3 : forall tname t,
             tables declared !! tname = Some t ->
             dom (cols_by_name t)
             = dom (observed_columns (from_engine (context_bind context)) tname)
             /\ forall cname r,
                  observed_columns (from_engine (context_bind context)) tname !! cname
                  = Some r ->
                  exists c, cols_by_key t !! cname = Some c
                            /\ column_entry tname cname r c (autogen_context_of context)
                               = []).
  { intros tname t Ht. apply tables_lookup_name in Ht as [Hn Ht].
    apply list_elem_of_singleton in Ht. subst t. simpl in Hn. subst tname.
    split; [vm_compute; reflexivity|].
    intros cname r Hr.
    apply dict_lookup_Some in Hr. simpl in Hr.
    apply list_elem_of_singleton in Hr. simplify_eq.
    eexists. split; vm_compute; reflexivity. }
  destruct (agreeing_schemas_give_pass Sample.hash_order context declared ∅ Sample.w0
              H1 H2 H3) as [Hnet [evs Hrun]].
  split; [exact Hnet|].
  unfold Sample.result_of. rewrite Hrun. vm_compute. reflexivity.
Defined.
